(** * Aurora: the timeline data engine, the smoothed state, the trail pass
      and the sonification engine of [src/AuroraApp.jsx]

    The development embeds the JavaScript of [AuroraApp.jsx] shallowly:
    [parseNOAAData], [generateSimulatedTimeline], the class
    [TimelinePlayer] ([fetchLive], [getCurrent], [advance], [seekTo],
    [togglePause]), the class [SonEngine] ([start], [update], [stop]), of
    [buildScene] the smoothing of [animate], the numbers it derives for a
    frame, the [uFade] uniform and the fragment shaders of [trailMat] and
    [bloomMat], and of [AuroraApp] the interval callback that drives the
    player.  The particle systems, the camera, the aurora shader, the HUD
    and the rest of the React component are not part of it.

    - A JavaScript [number] is an IEEE 754 double.  The code is written once,
      over an interface [JsNumber] of the operations it uses, and read at two
      instances: [float] (primitive binary64 floats, the arithmetic the
      program really runs) and [Q] (exact rationals, the arithmetic the
      program approximates).  Structural properties are proved for every
      instance, rounding-sensitive ones at [float], algebraic ones at [Q].
    - [Math.random], [Date] and [Tone.now] are inputs: a stream of draws
      threaded through the code, a clock value, a time stamp per call.
    - [try]/[catch] is an error monad; a [fetch] is its outcome; the calls
      into Tone.js are a log. *)

From Stdlib Require Import ZArith QArith Qabs Qround Lqa Floats Ascii String.
From stdpp Require Import gmap strings list pretty.

#[global] Set Warnings "-inexact-float".

Set Default Proof Using "Type".

(* ================================================================== *)
(** * JavaScript numbers *)
(* ================================================================== *)

(** The operations of [number] the program uses. *)
Class JsNumber (Num : Type) := {
  num_lit    : Q -> Num;          (* the number a decimal literal denotes *)
  num_add    : Num -> Num -> Num;
  num_sub    : Num -> Num -> Num;
  num_mul    : Num -> Num -> Num;
  num_div    : Num -> Num -> Num;
  num_ltb    : Num -> Num -> bool;  (* x < y *)
  num_truthy : Num -> bool;       (* ToBoolean: false at 0, -0 and NaN *)
  num_min    : Num -> Num -> Num;   (* Math.min *)
  num_max    : Num -> Num -> Num;   (* Math.max *)
  num_abs    : Num -> Num;        (* Math.abs *)
  num_neg    : Num -> Num;        (* unary minus *)
  num_floor  : Num -> Z;          (* Math.floor, of a finite value *)
}.

Declare Scope js_scope.
Delimit Scope js_scope with js.
Infix "+" := num_add : js_scope.
Infix "-" := num_sub : js_scope.
Infix "*" := num_mul : js_scope.
Infix "/" := num_div : js_scope.
Infix "<?" := num_ltb : js_scope.
Notation "x >? y" := (num_ltb y x) : js_scope.
Notation "- x" := (num_neg x) : js_scope.
(** [x || d] on numbers. *)
Notation "x '|||' d" := (if num_truthy x then x else d)
  (at level 50, left associativity) : js_scope.

Definition num_of_Z `{JsNumber Num} (z : Z) : Num := num_lit (inject_Z z).
Definition num_of_nat `{JsNumber Num} (n : nat) : Num := num_of_Z (Z.of_nat n).

(** ** Doubles *)

(** The double nearest to a rational (ties to even), as a numeric literal
    or [parseFloat] denotes it: the quotient is taken with 66 bits or more
    and a sticky bit, and [binary_normalize] rounds it once. *)
Definition float_of_Q (q : Q) : float :=
  let n := Qnum q in
  let d := Zpos (Qden q) in
  let a := Z.abs n in
  let k := Z.max 0 (66 + Z.log2 d - Z.log2 a) in
  let quot := (a * 2 ^ k / d)%Z in
  let sticky := if (a * 2 ^ k mod d =? 0)%Z then 0%Z else 1%Z in
  let m := (2 * quot + sticky)%Z in
  SF2Prim (binary_normalize prec emax (if (n <? 0)%Z then (- m)%Z else m)
                            (- k - 1) false).

Definition float_is_zero (x : float) : bool := PrimFloat.eqb x 0%float.

Definition float_is_neg_zero (x : float) : bool :=
  match Prim2SF x with S754_zero true => true | _ => false end.

(** Neither NaN nor an infinity. *)
Definition float_is_finite (x : float) : bool :=
  match Prim2SF x with
  | S754_zero _ | S754_finite _ _ _ => true
  | _ => false
  end.

Definition float_truthy (x : float) : bool :=
  negb (float_is_zero x || PrimFloat.is_nan x).

(** [Math.min]: NaN if an argument is, and -0 below +0. *)
Definition float_min (x y : float) : float :=
  if (PrimFloat.is_nan x || PrimFloat.is_nan y)%bool then PrimFloat.nan
  else if PrimFloat.ltb x y then x
  else if PrimFloat.ltb y x then y
  else if float_is_neg_zero x then x else y.

Definition float_max (x y : float) : float :=
  if (PrimFloat.is_nan x || PrimFloat.is_nan y)%bool then PrimFloat.nan
  else if PrimFloat.ltb x y then y
  else if PrimFloat.ltb y x then x
  else if float_is_neg_zero x then y else x.

(** The integer part towards minus infinity; 0 where there is none. *)
Definition float_floor (x : float) : Z :=
  match Prim2SF x with
  | S754_finite s m e =>
      let z := if s then Zneg m else Zpos m in
      if (0 <=? e)%Z then (z * 2 ^ e)%Z else (z / 2 ^ (- e))%Z
  | _ => 0%Z
  end.

#[export] Instance float_number : JsNumber float := {
  num_lit := float_of_Q;
  num_add := PrimFloat.add;
  num_sub := PrimFloat.sub;
  num_mul := PrimFloat.mul;
  num_div := PrimFloat.div;
  num_ltb := PrimFloat.ltb;
  num_truthy := float_truthy;
  num_min := float_min;
  num_max := float_max;
  num_abs := PrimFloat.abs;
  num_neg := PrimFloat.opp;
  num_floor := float_floor;
}.

(** ** Exact rationals *)

Definition Q_ltb (x y : Q) : bool := negb (Qle_bool y x).
Definition Q_truthy (x : Q) : bool := negb (Qeq_bool x 0).
Definition Q_min (x y : Q) : Q := if Qle_bool x y then x else y.
Definition Q_max (x y : Q) : Q := if Qle_bool x y then y else x.

#[export] Instance Q_number : JsNumber Q := {
  num_lit := fun q => q;
  num_add := Qplus;
  num_sub := Qminus;
  num_mul := Qmult;
  num_div := Qdiv;
  num_ltb := Q_ltb;
  num_truthy := Q_truthy;
  num_min := Q_min;
  num_max := Q_max;
  num_abs := Qabs;
  num_neg := Qopp;
  num_floor := Qfloor;
}.

(* ================================================================== *)
(** * Exceptions *)
(* ================================================================== *)

(** A computation that returns or throws an [Error] with a message. *)
Inductive Result (A : Type) : Type :=
  | Ok (a : A)
  | Throw (message : string).
Arguments Ok {A} a.
Arguments Throw {A} message.

#[export] Instance Result_ret : MRet Result := fun _ a => Ok a.
#[export] Instance Result_bind : MBind Result := fun _ _ f m =>
  match m with
  | Ok a => f a
  | Throw e => Throw e
  end.

(* ================================================================== *)
(** * JavaScript strings *)
(* ================================================================== *)

(** A JavaScript string is a sequence of UTF-16 code units: [length],
    indexing and [substring] count code units, and two strings are the
    same key of a [Map] when their code units are the same.  The messages
    of errors and the note names handed to Tone.js, which the program
    only passes on, are kept as [string]. *)
Definition jstring : Type := list N.

#[export] Instance jstring_eq_dec : EqDecision jstring := list_eq_dec.
#[export] Instance jstring_countable : Countable jstring := list_countable.

(** The string an ASCII literal of the source denotes. *)
Definition jstr (s : string) : jstring :=
  map N_of_ascii (list_ascii_of_string s).
Coercion jstr : string >-> jstring.

(* ================================================================== *)
(** * Data model *)
(* ================================================================== *)

(** One entry of the timeline array: the object literal pushed by
    [parseNOAAData] and [generateSimulatedTimeline].  Field [x] of the
    source is [tp_x] here. *)
Record TelemetryPoint (Num : Type) : Type := mkPoint {
  tp_time : jstring;
  tp_speed : Num; tp_density : Num; tp_temp : Num;
  tp_bt : Num; tp_bz : Num; tp_bx : Num; tp_by : Num;
  tp_kp : Num;
  tp_xray : Num;
}.
Arguments mkPoint {Num}.
Arguments tp_time {Num}. Arguments tp_speed {Num}. Arguments tp_density {Num}.
Arguments tp_temp {Num}. Arguments tp_bt {Num}. Arguments tp_bz {Num}.
Arguments tp_bx {Num}. Arguments tp_by {Num}. Arguments tp_kp {Num}.
Arguments tp_xray {Num}.

(** The [latest] object of a sample. *)
Record Latest (Num : Type) : Type := mkLatest {
  l_speed : Num; l_density : Num; l_temp : Num; l_bt : Num; l_bz : Num; l_kp : Num;
}.
Arguments mkLatest {Num}.
Arguments l_speed {Num}. Arguments l_density {Num}. Arguments l_temp {Num}.
Arguments l_bt {Num}. Arguments l_bz {Num}. Arguments l_kp {Num}.

(** What [getCurrent] returns. *)
Record Sample (Num : Type) : Type := mkSample {
  latest : Latest Num;
  xray_values : list Num;
  s_currentTime : jstring;
  s_progress : Num;
  s_isLive : bool;
  totalPoints : nat;
  s_index : Z;
}.
Arguments mkSample {Num}.
Arguments latest {Num}. Arguments xray_values {Num}. Arguments s_currentTime {Num}.
Arguments s_progress {Num}. Arguments s_isLive {Num}. Arguments totalPoints {Num}.
Arguments s_index {Num}.

(** The fields of a [TimelinePlayer].  [index] only ever holds an integer
    ([0], [index + 1]), kept in [Z]. *)
Record TimelinePlayer (Num : Type) : Type := mkPlayer {
  timeline : list (TelemetryPoint Num);
  index : Z;
  isLive : bool;
  loading : bool;
  error : option string;
  currentTime : jstring;
  progress : Num;
  paused : bool;
}.
Arguments mkPlayer {Num}.
Arguments timeline {Num}. Arguments index {Num}. Arguments isLive {Num}.
Arguments loading {Num}. Arguments error {Num}. Arguments currentTime {Num}.
Arguments progress {Num}. Arguments paused {Num}.

(* ================================================================== *)
(** * Timeline player: [getCurrent], [advance], [togglePause] *)
(* ================================================================== *)

Section Player.
Context {Num : Type} `{JsNumber Num}.
Local Open Scope js_scope.

(** [constructor()] *)
Definition newPlayer : TimelinePlayer Num :=
  mkPlayer [] 0 false true None "" (num_lit 0) false.

(** [this.timeline[i]] for an integer [i]: [undefined] out of range. *)
Definition at_index (tl : list (TelemetryPoint Num)) (i : Z)
  : option (TelemetryPoint Num) :=
  if (i <? 0)%Z then None else tl !! Z.to_nat i.

(** Reading a field of [this.timeline[i]] throws when it is [undefined]. *)
Definition point_at (tl : list (TelemetryPoint Num)) (i : Z)
  : Result (TelemetryPoint Num) :=
  match at_index tl i with
  | Some a => Ok a
  | None => Throw "TypeError: Cannot read properties of undefined"
  end.

(** [const lerp = (v1, v2) => v1 + (v2 - v1) * t] *)
Definition lerp (t v1 v2 : Num) : Num := v1 + (v2 - v1) * t.

Definition timeline_length (p : TimelinePlayer Num) : Z :=
  Z.of_nat (length (timeline p)).

(** [getCurrent(fraction)]: [null] on an empty timeline; it stores
    [currentTime] and [progress] in the player. *)
Definition getCurrent (fraction : Num) (p : TimelinePlayer Num)
  : Result (option (Sample Num) * TimelinePlayer Num) :=
  if (timeline_length p =? 0)%Z then Ok (None, p)
  else
    let i := Z.min (index p) (timeline_length p - 1) in
    a ← point_at (timeline p) i;
    b ← point_at (timeline p) (Z.min (i + 1) (timeline_length p - 1));
    let t := fraction in
    let progress' :=
      num_of_Z (index p) / num_of_Z (Z.max 1 (timeline_length p - 1)) in
    let p' := mkPlayer (timeline p) (index p) (isLive p) (loading p)
                       (error p) (tp_time a) progress' (paused p) in
    Ok (Some {|
          latest := {|
            l_speed := lerp t (tp_speed a) (tp_speed b);
            l_density := lerp t (tp_density a) (tp_density b);
            l_temp := lerp t (tp_temp a) (tp_temp b);
            l_bt := lerp t (tp_bt a) (tp_bt b);
            l_bz := lerp t (tp_bz a) (tp_bz b);
            l_kp := lerp t (tp_kp a) (tp_kp b);
          |};
          xray_values := [tp_xray a; lerp t (tp_xray a) (tp_xray b)];
          s_currentTime := tp_time a;
          s_progress := progress';
          s_isLive := isLive p;
          totalPoints := length (timeline p);
          s_index := index p;
        |}, p').

Definition set_index (p : TimelinePlayer Num) (i : Z) : TimelinePlayer Num :=
  mkPlayer (timeline p) i (isLive p) (loading p) (error p)
           (currentTime p) (progress p) (paused p).

(** [advance()]: [true] is the signal to fetch again. *)
Definition advance (p : TimelinePlayer Num) : bool * TimelinePlayer Num :=
  if paused p then (false, p)
  else
    let p1 := set_index p (index p + 1) in
    if (timeline_length p1 - 1 <=? index p1)%Z
    then (true, set_index p1 0)
    else (false, p1).

(** [togglePause()] *)
Definition togglePause (p : TimelinePlayer Num) : bool * TimelinePlayer Num :=
  let p' := mkPlayer (timeline p) (index p) (isLive p) (loading p)
                     (error p) (currentTime p) (progress p)
                     (negb (paused p)) in
  (paused p', p').

(** [k] calls of [advance()] in a row, with what each returned. *)
Fixpoint advances (k : nat) (p : TimelinePlayer Num)
  : list bool * TimelinePlayer Num :=
  match k with
  | O => ([], p)
  | S k' =>
      let '(r, p1) := advance p in
      let '(rs, p2) := advances k' p1 in
      (r :: rs, p2)
  end.
End Player.

(* ================================================================== *)
(** * JSON payloads and [parseFloat] *)
(* ================================================================== *)

(** A value as [JSON.parse] returns it, and [undefined] for what a
    property access can add.  The members of an object are kept as
    written, a repeated key more than once. *)
#[warnings="-register-all"]
Inductive JsVal : Type :=
  | VUndefined
  | VNull
  | VBool (b : bool)
  | VNum (x : float)
  | VStr (s : jstring)
  | VArr (items : list JsVal)
  | VObj (props : list (jstring * JsVal)).

(** ToBoolean, as [!r] uses it. *)
Definition js_truthy (v : JsVal) : bool :=
  match v with
  | VUndefined | VNull => false
  | VBool b => b
  | VNum x => float_truthy x
  | VStr s => match s with [] => false | _ => true end
  | VArr _ | VObj _ => true
  end.

(** The own property [k] of a parsed object: the last member written
    under the key, [None] when there is none. *)
Fixpoint obj_get (props : list (jstring * JsVal)) (k : jstring)
  : option JsVal :=
  match props with
  | [] => None
  | (k', v) :: rest =>
      match obj_get rest k with
      | Some found => Some found
      | None => if bool_decide (k' = k) then Some v else None
      end
  end.

(** [r[i]] for a constant index [i].  Every use is behind [!r], so the
    receiver is never [null] or [undefined] (where the access throws).
    No prototype has a property named by a number. *)
Definition js_index (r : JsVal) (i : nat) : JsVal :=
  match r with
  | VArr items => default VUndefined (items !! i)
  | VStr s => match s !! i with
              | Some c => VStr [c]
              | None => VUndefined
              end
  | VObj props => default VUndefined (obj_get props (jstr (pretty i)))
  | _ => VUndefined
  end.

(** [r.time_tag] and [r.flux], again behind [!r]: an own property of an
    object, no prototype having either name. *)
Definition js_prop (r : JsVal) (name : jstring) : JsVal :=
  match r with
  | VObj props => default VUndefined (obj_get props name)
  | _ => VUndefined
  end.

(** [v.substring(0, 16)]: the first 16 code units of a string.  No other
    value of a payload has the method, and a member of that name is not
    callable. *)
Definition js_substring16 (v : JsVal) : Result jstring :=
  match v with
  | VStr s => Ok (take 16 s)
  | _ => Throw "TypeError: substring is not a function"
  end.

(** ** [parseFloat] on a string *)

(** StrWhiteSpaceChar: the white space and the line terminators of the
    language, which [parseFloat] trims from the front. *)
Definition is_whitespace (c : N) : bool :=
  ((9 <=? c) && (c <=? 13)            (* TAB, LF, VT, FF, CR *)
   || (c =? 32)                       (* SPACE *)
   || (c =? 160)                      (* U+00A0 NO-BREAK SPACE *)
   || (c =? 5760)                     (* U+1680 OGHAM SPACE MARK *)
   || (8192 <=? c) && (c <=? 8202)    (* U+2000 .. U+200A *)
   || (c =? 8232) || (c =? 8233)      (* U+2028, U+2029 *)
   || (c =? 8239)                     (* U+202F *)
   || (c =? 8287)                     (* U+205F *)
   || (c =? 12288)                    (* U+3000 *)
   || (c =? 65279))%N.                (* U+FEFF *)

Fixpoint skip_whitespace (s : jstring) : jstring :=
  match s with
  | c :: s' => if is_whitespace c then skip_whitespace s' else s
  | [] => s
  end.

Definition digit_of (c : N) : option Z :=
  if ((48 <=? c) && (c <=? 57))%N then Some (Z.of_N c - 48)%Z else None.

(** Reads a run of decimal digits after the value [acc]: the value, the
    number of digits read, the rest of the string. *)
Fixpoint read_digits (s : jstring) (acc : Z) (cnt : nat)
  : Z * nat * jstring :=
  match s with
  | c :: s' =>
      match digit_of c with
      | Some d => read_digits s' (10 * acc + d) (S cnt)
      | None => (acc, cnt, s)
      end
  | [] => (acc, cnt, s)
  end.

(** The sign at the head of [s], and what follows it. *)
Definition read_sign (s : jstring) : bool * jstring :=
  match s with
  | c :: r => if (c =? 45)%N then (true, r)        (* - *)
              else if (c =? 43)%N then (false, r)  (* + *)
              else (false, s)
  | [] => (false, s)
  end.

(** The value of an ExponentPart at the head of [s]; 0 when there is none
    (an [e] without digits is not part of the literal). *)
Definition read_exponent (s : jstring) : Z :=
  match s with
  | c :: s1 =>
      if ((c =? 101) || (c =? 69))%N then           (* e, E *)
        let '(neg, s2) := read_sign s1 in
        let '(v, cnt, _) := read_digits s2 0 0 in
        match cnt with
        | O => 0%Z
        | _ => if neg then (- v)%Z else v
        end
      else 0%Z
  | [] => 0%Z
  end.

(** [m * 10 ^ e] *)
Definition decimal (m e : Z) : Q :=
  if (0 <=? e)%Z then inject_Z (m * 10 ^ e)
  else Qmake m (Z.to_pos (10 ^ (- e))).

(** [s] begins with [p]. *)
Fixpoint starts_with (p s : jstring) : bool :=
  match p, s with
  | [], _ => true
  | c :: p', d :: s' => (c =? d)%N && starts_with p' s'
  | _ :: _, [] => false
  end.

(** The longest prefix that is an unsigned StrDecimalLiteral, as a double;
    [None] when no prefix is one. *)
Definition read_magnitude (s : jstring) : option float :=
  if starts_with (jstr "Infinity") s then Some infinity
  else
    let '(ip, ni, s1) := read_digits s 0 0 in
    let '(fp, nf, s2) :=
      match s1 with
      | c :: r => if (c =? 46)%N then read_digits r ip 0   (* . *)
                  else (ip, O, s1)
      | [] => (ip, O, s1)
      end in
    match (ni + nf)%nat with
    | O => None
    | _ => Some (float_of_Q (decimal fp (read_exponent s2 - Z.of_nat nf)))
    end.

Definition parseFloat_string (s : jstring) : float :=
  let '(neg, s1) := read_sign (skip_whitespace s) in
  match read_magnitude s1 with
  | Some x => if neg then PrimFloat.opp x else x
  | None => nan
  end.

(** ** [parseFloat] on a value *)

(** [parseFloat(v)] starts with ToString [v].  Of a parsed object that
    calls [Object.prototype.toString], unless the object has a member
    named [toString]: a parsed value is not callable, and the conversion
    throws a TypeError.  Of an array it joins the ToString of all the
    items, [null] and [undefined] counting as empty, so that it throws
    where that of any item does. *)
Fixpoint ToString_throws (v : JsVal) : bool :=
  match v with
  | VObj props => bool_decide (is_Some (obj_get props (jstr "toString")))
  | VArr items => existsb ToString_throws items
  | _ => false
  end.

(** What [parseFloat] reads from ToString [v].  ToString of a number
    reads back as that number (and -0 as 0); of an array it is its items
    joined by commas, which end any numeral, so that only the first item
    counts; of [undefined], [null], a boolean or an object it is no
    numeral. *)
Fixpoint parseFloat_value (v : JsVal) : float :=
  match v with
  | VStr s => parseFloat_string s
  | VNum x => if float_is_zero x then 0%float else x
  | VArr (VNull :: _) | VArr (VUndefined :: _) => nan
  | VArr (x :: _) => parseFloat_value x
  | _ => nan
  end.

Definition parseFloat (v : JsVal) : Result float :=
  if ToString_throws v
  then Throw "TypeError: Cannot convert object to primitive value"
  else Ok (parseFloat_value v).

(* ================================================================== *)
(** * Telemetry normalizer: [parseNOAAData] *)
(* ================================================================== *)

(** The object stored in [magMap]. *)
Record MagReading : Type := mkMag {
  m_bx : float; m_by : float; m_bz : float; m_bt : float;
}.

(** What [parseNOAAData] is given as [plasma], [mag] or [kp]: a parsed
    body whose [length] and items the loops read.  It is [null]; an
    array; a string, whose items are its code units; or a value without
    a [length], that is a number, a boolean or an object with no member
    of that name.  An object with a member named [length] is the one
    parsed value left out: the bound of the loop would then be the
    number that member converts to. *)
Inductive Body : Type :=
  | BodyNull
  | BodyArray (rows : list JsVal)
  | BodyString (s : jstring)
  | BodyPlain.


(** [body[i]] for [i] from 1 to [body.length - 1], the items a loop
    [for (let i = 1; i < body.length; i++)] visits; reading [length]
    throws on [null], and no item is visited where there is no
    [length]. *)
Definition rows_after_header (body : Body) : Result (list JsVal) :=
  match body with
  | BodyNull =>
      Throw "TypeError: Cannot read properties of null (reading 'length')"
  | BodyArray rows => Ok (tail rows)
  | BodyString s => Ok (map (fun c => VStr [c]) (tail s))
  | BodyPlain => Ok []
  end.

(** [f(acc, x)] over a list, left to right, until a step throws. *)
Fixpoint foldM {A B : Type} (f : B -> A -> Result B) (acc : B) (l : list A)
  : Result B :=
  match l with
  | [] => Ok acc
  | x :: rest => acc' ← f acc x; foldM f acc' rest
  end.

Section Normalizer.
Local Open Scope js_scope.

(** [!r || !r[0]]: the rows the loops over [mag], [kp] and [plasma]
    pass over. *)
Definition row_skipped (r : JsVal) : bool :=
  negb (js_truthy r) || negb (js_truthy (js_index r 0)).

(** The body of the loop over [mag]. *)
Definition mag_step (magMap : gmap jstring MagReading) (r : JsVal)
  : Result (gmap jstring MagReading) :=
  if row_skipped r then Ok magMap
  else
    key ← js_substring16 (js_index r 0);
    bx ← parseFloat (js_index r 1);
    by_ ← parseFloat (js_index r 2);
    bz ← parseFloat (js_index r 3);
    bt ← parseFloat (js_index r 4);
    Ok (<[key := {| m_bx := bx ||| 0%float;
                    m_by := by_ ||| 0%float;
                    m_bz := bz ||| 0%float;
                    m_bt := bt ||| 0%float |}]> magMap).

(** The body of the loop over [kp]. *)
Definition kp_step (kpMap : gmap jstring float) (r : JsVal)
  : Result (gmap jstring float) :=
  if row_skipped r then Ok kpMap
  else
    key ← js_substring16 (js_index r 0);
    v ← parseFloat (js_index r 1);
    Ok (<[key := v ||| 0%float]> kpMap).

(** [!r || !r.time_tag]: the items the loop over [xray] passes over. *)
Definition item_skipped (r : JsVal) : bool :=
  negb (js_truthy r) || negb (js_truthy (js_prop r "time_tag")).

(** The body of the loop over [xray]. *)
Definition xray_step (xrayMap : gmap jstring float) (r : JsVal)
  : Result (gmap jstring float) :=
  if item_skipped r then Ok xrayMap
  else
    key ← js_substring16 (js_prop r "time_tag");
    v ← parseFloat (js_prop r "flux");
    Ok (<[key := v ||| 0%float]> xrayMap).

(** The three maps.  The loops over [mag] and [kp] start at row 1, after
    the header row; the one over [xray] runs only on an array, from its
    first item. *)
Definition build_magMap (mag : Body) : Result (gmap jstring MagReading) :=
  rows ← rows_after_header mag; foldM mag_step ∅ rows.

Definition build_kpMap (kp : Body) : Result (gmap jstring float) :=
  rows ← rows_after_header kp; foldM kp_step ∅ rows.

Definition build_xrayMap (xray : JsVal) : Result (gmap jstring float) :=
  match xray with
  | VArr items => foldM xray_step ∅ items
  | _ => Ok ∅
  end.

(** [magMap.get(key) || { bx: 0, by: 0, bz: 0, bt: 5 }] *)
Definition mag_lookup (magMap : gmap jstring MagReading) (key : jstring)
  : MagReading :=
  default (mkMag 0 0 0 5) (magMap !! key).

(** The loop over the rows of [plasma], with [lastKp] and [lastXray] as
    they stand on entry; the result is what the rows push, in order. *)
Fixpoint plasma_loop (magMap : gmap jstring MagReading)
    (kpMap xrayMap : gmap jstring float)
    (lastKp lastXray : float) (rows : list JsVal)
  : Result (list (TelemetryPoint float)) :=
  match rows with
  | [] => Ok []
  | r :: rest =>
      if row_skipped r
      then plasma_loop magMap kpMap xrayMap lastKp lastXray rest
      else
        let timeStr := js_index r 0 in
        key ← js_substring16 timeStr;
        speed ← parseFloat (js_index r 2);
        density ← parseFloat (js_index r 1);
        temp ← parseFloat (js_index r 3);
        let m := mag_lookup magMap key in
        let lastKp := default lastKp (kpMap !! key) in
        let lastXray := default lastXray (xrayMap !! key) in
        points ← plasma_loop magMap kpMap xrayMap lastKp lastXray rest;
        Ok ({| tp_time := match timeStr with VStr s => s | _ => [] end;
               tp_speed := speed ||| 400%float;
               tp_density := density ||| 5%float;
               tp_temp := temp ||| 100000%float;
               tp_bt := m_bt m; tp_bz := m_bz m;
               tp_bx := m_bx m; tp_by := m_by m;
               tp_kp := lastKp;
               tp_xray := lastXray |} :: points)
  end.

(** [parseNOAAData(plasma, mag, kp, xray)]: the loops in the order of
    the source, each reading the [length] of its payload as it starts. *)
Definition parseNOAAData (plasma mag kp : Body) (xray : JsVal)
  : Result (list (TelemetryPoint float)) :=
  magMap ← build_magMap mag;
  kpMap ← build_kpMap kp;
  xrayMap ← build_xrayMap xray;
  rows ← rows_after_header plasma;
  plasma_loop magMap kpMap xrayMap 2%float 1e-7%float rows.
End Normalizer.

(* ================================================================== *)
(** * Synthetic generator: [generateSimulatedTimeline] *)
(* ================================================================== *)

(** What the code reads from its host: the successive results of
    [Math.random()], the clock [new Date().getTime()], and the rendering
    [ms ↦ new Date(ms).toISOString().replace("T", " ").substring(0, 19)]. *)
Record Host (Num : Type) : Type := mkHost {
  random : nat -> Num;
  clock : Num;
  isoString : Num -> jstring;
}.
Arguments mkHost {Num}.
Arguments random {Num}. Arguments clock {Num}. Arguments isoString {Num}.

(** Code that calls [Math.random()]: from the number of draws made so far
    to a result and the number made after it. *)
Definition Rand (A : Type) : Type := nat -> A * nat.

#[export] Instance Rand_ret : MRet Rand := fun _ a c => (a, c).
#[export] Instance Rand_bind : MBind Rand := fun _ _ f m c =>
  let '(a, c') := m c in f a c'.

Record Storm (Num : Type) : Type := mkStorm {
  center : Num; width : Num; intensity : Num;
}.
Arguments mkStorm {Num}.
Arguments center {Num}. Arguments width {Num}. Arguments intensity {Num}.

(** The running values of the random walk. *)
Record Walk (Num : Type) : Type := mkWalk {
  w_speed : Num; w_density : Num; w_temp : Num; w_bt : Num; w_bz : Num;
  w_bx : Num; w_by : Num; w_kp : Num; w_xray : Num;
}.
Arguments mkWalk {Num}.
Arguments w_speed {Num}. Arguments w_density {Num}. Arguments w_temp {Num}.
Arguments w_bt {Num}. Arguments w_bz {Num}. Arguments w_bx {Num}.
Arguments w_by {Num}. Arguments w_kp {Num}. Arguments w_xray {Num}.

Section Generator.
Context {Num : Type} `{JsNumber Num} (host : Host Num).
Local Open Scope js_scope.

(** [Math.random()] *)
Definition Math_random : Rand Num := fun c => (random host c, S c).

(** [const points = 5000] *)
Definition points : nat := 5000.

(** [7 * 24 * 60 * 60 * 1000] *)
Definition week_ms : Num :=
  num_lit 7 * num_lit 24 * num_lit 60 * num_lit 60 * num_lit 1000.

(** The mapper of [Array.from]: one storm. *)
Definition make_storm : Rand (Storm Num) :=
  r1 ← Math_random; r2 ← Math_random; r3 ← Math_random;
  mret {| center := r1 * num_of_nat points;
          width := num_lit 60 + r2 * num_lit 200;
          intensity := num_lit 0.5 + r3 * num_lit 0.5 |}.

Fixpoint make_storms (n : nat) : Rand (list (Storm Num)) :=
  match n with
  | O => mret []
  | S n' => s ← make_storm; rest ← make_storms n'; mret (s :: rest)
  end.

(** [Array.from({ length: 2 + Math.floor(Math.random() * 3) }, ...)] *)
Definition storms : Rand (list (Storm Num)) :=
  r ← Math_random;
  make_storms (Z.to_nat (2 + num_floor (r * num_lit 3))).

(** The loop over the storms at point [i]. *)
Definition storm_factor (i : nat) (ss : list (Storm Num)) : Num :=
  fold_left (fun stormFactor s =>
               let dist := num_abs (num_of_nat i - center s) / width s in
               if dist <? num_lit 1
               then num_max stormFactor
                      ((num_lit 1 - dist * dist) * intensity s)
               else stormFactor)
            ss (num_lit 0).

Definition clamp (lo hi x : Num) : Num := num_max lo (num_min hi x).

(** One round of the random walk: nine draws, in the order of the code. *)
Definition walk_step (stormFactor : Num) (w : Walk Num) : Rand (Walk Num) :=
  r ← Math_random;
  let speed := clamp (num_lit 280) (num_lit 900)
    (w_speed w + ((r - num_lit 0.48) * num_lit 8
                  + stormFactor * num_lit 15)) in
  r ← Math_random;
  let density := clamp (num_lit 0.5) (num_lit 40)
    (w_density w + ((r - num_lit 0.48) * num_lit 0.8
                    + stormFactor * num_lit 2)) in
  r ← Math_random;
  let temp := clamp (num_lit 20000) (num_lit 500000)
    (w_temp w + (r - num_lit 0.5) * num_lit 8000) in
  r ← Math_random;
  let bt := clamp (num_lit 1) (num_lit 35)
    (w_bt w + ((r - num_lit 0.48) * num_lit 0.6
               + stormFactor * num_lit 1.5)) in
  r ← Math_random;
  let bz := clamp (num_lit (-25)) (num_lit 15)
    (w_bz w + ((r - num_lit 0.52) * num_lit 1.2
               - stormFactor * num_lit 2)) in
  r ← Math_random;
  let bx := clamp (num_lit (-12)) (num_lit 12)
    (w_bx w + (r - num_lit 0.5) * num_lit 0.8) in
  r ← Math_random;
  let by_ := clamp (num_lit (-12)) (num_lit 12)
    (w_by w + (r - num_lit 0.5) * num_lit 0.8) in
  r ← Math_random;
  let kp := clamp (num_lit 0) (num_lit 9)
    (w_kp w + ((r - num_lit 0.48) * num_lit 0.15
               + stormFactor * num_lit 0.4)) in
  r ← Math_random;
  let xray := clamp (num_lit 1e-8) (num_lit 1e-4)
    (w_xray w + ((r - num_lit 0.48) * num_lit 1e-7
                 + stormFactor * num_lit 3e-7)) in
  mret (mkWalk speed density temp bt bz bx by_ kp xray).

(** [n] rounds of the main loop from point [i]; the result is what they
    push, in order. *)
Fixpoint walk_loop (ss : list (Storm Num)) (weekAgo : Num)
    (n i : nat) (w : Walk Num) : Rand (list (TelemetryPoint Num)) :=
  match n with
  | O => mret []
  | S n' =>
      let t := num_of_nat i / num_of_nat points in
      let date := weekAgo + t * num_lit 7 * num_lit 24 * num_lit 60
                            * num_lit 60 * num_lit 1000 in
      w' ← walk_step (storm_factor i ss) w;
      rest ← walk_loop ss weekAgo n' (S i) w';
      mret ({| tp_time := isoString host date;
               tp_speed := w_speed w'; tp_density := w_density w';
               tp_temp := w_temp w';
               tp_bt := w_bt w'; tp_bz := w_bz w';
               tp_bx := w_bx w'; tp_by := w_by w';
               tp_kp := w_kp w'; tp_xray := w_xray w' |} :: rest)
  end.

Definition generateSimulatedTimeline : Rand (list (TelemetryPoint Num)) :=
  let weekAgo := clock host - week_ms in
  ss ← storms;
  walk_loop ss weekAgo points 0
    (mkWalk (num_lit 380) (num_lit 5) (num_lit 120000) (num_lit 6)
            (num_lit 1) (num_lit 0) (num_lit 2) (num_lit 2)
            (num_lit 2e-7)).
End Generator.

(* ================================================================== *)
(** * Timeline player: [fetchLive] *)
(* ================================================================== *)

(** What [fetch(url)] resolved to: the [ok] flag and what [json()] then
    gives, a body or a rejection. *)
Record Response (B : Type) : Type := mkResponse {
  ok : bool;
  json : Result B;
}.
Arguments mkResponse {B}. Arguments ok {B}. Arguments json {B}.

(** How the four fetches of one [fetchLive] went: one of them was
    rejected, or all four resolved.  [Promise.all] rejects with the
    rejection that settles first, so the message of a rejected fetch is
    given as such, and [first] says which of the rejected [json()] calls,
    if any, settles before the others. *)
Inductive Fetched : Type :=
  | FetchRejected (message : string)
  | FetchResolved (plasmaRes magRes kpRes : Response Body)
                  (xrayRes : Response JsVal) (first : nat).

(** The message a call was rejected with, if it was. *)
Definition rejection {B : Type} (r : Result B) : list string :=
  match r with
  | Ok _ => []
  | Throw message => [message]
  end.

(** [await Promise.all([a, b, c, d])] for four calls that have
    settled. *)
Definition Promise_all {A B C D : Type} (first : nat)
    (a : Result A) (b : Result B) (c : Result C) (d : Result D)
  : Result (A * B * C * D) :=
  match a, b, c, d with
  | Ok x, Ok y, Ok z, Ok w => Ok (x, y, z, w)
  | _, _, _, _ =>
      let rejected :=
        rejection a ++ rejection b ++ rejection c ++ rejection d in
      Throw (nth (first mod length rejected) rejected "")
  end.

Section FetchLive.
Variable host : Host float.

(** The [try] block up to the length test: the timeline to install, or
    what was thrown. *)
Definition acquire (f : Fetched) : Result (list (TelemetryPoint float)) :=
  match f with
  | FetchRejected message => Throw message
  | FetchResolved plasmaRes magRes kpRes xrayRes first =>
      if negb (ok plasmaRes) || negb (ok magRes)
      then Throw "NOAA API unavailable"
      else
        '(plasma, mag, kp, xray) ←
          Promise_all first (json plasmaRes) (json magRes) (json kpRes)
                      (json xrayRes);
        tl ← parseNOAAData plasma mag kp xray;
        if (length tl <? 100)%nat then Throw "Insufficient data"
        else Ok tl
  end.

(** [fetchLive()] up to its first [await]. *)
Definition fetchLive_begin (p : TimelinePlayer float) : TimelinePlayer float :=
  mkPlayer (timeline p) (index p) (isLive p) true None
           (currentTime p) (progress p) (paused p).

(** [fetchLive()] from the moment the fetches have settled: the rest of
    the [try] block, or the [catch] block. *)
Definition fetchLive_settle (f : Fetched) (p : TimelinePlayer float)
  : Rand (bool * TimelinePlayer float) :=
  match acquire f with
  | Ok tl =>
      mret (true, mkPlayer tl 0 true false (error p)
                           (currentTime p) (progress p) (paused p))
  | Throw message =>
      tl ← generateSimulatedTimeline host;
      mret (false, mkPlayer tl 0 false false (Some message)
                            (currentTime p) (progress p) (paused p))
  end.

Definition fetchLive (f : Fetched) (p : TimelinePlayer float)
  : Rand (bool * TimelinePlayer float) :=
  fetchLive_settle f (fetchLive_begin p).
End FetchLive.

(* ================================================================== *)
(** * Smoothed state and trail pass: [buildScene], [animate] *)
(* ================================================================== *)

(** [const sm = { speed, density, bz, bt, kp }] *)
Record Smooth (Num : Type) : Type := mkSmooth {
  sm_speed : Num; sm_density : Num; sm_bz : Num; sm_bt : Num; sm_kp : Num;
}.
Arguments mkSmooth {Num}.
Arguments sm_speed {Num}. Arguments sm_density {Num}. Arguments sm_bz {Num}.
Arguments sm_bt {Num}. Arguments sm_kp {Num}.

(** A [vec4] of the fragment shader. *)
Record vec4 (Num : Type) : Type := mkVec4 {
  v_r : Num; v_g : Num; v_b : Num; v_a : Num;
}.
Arguments mkVec4 {Num}.
Arguments v_r {Num}. Arguments v_g {Num}. Arguments v_b {Num}.
Arguments v_a {Num}.

Section Scene.
Context {Num : Type} `{JsNumber Num}.
Local Open Scope js_scope.

Definition sm0 : Smooth Num :=
  mkSmooth (num_lit 0.5) (num_lit 0.5) (num_lit 0) (num_lit 0.3)
           (num_lit 0.3).

(** The five [sm.x += (target - sm.x) * 0.015] of [animate]. *)
Definition smooth (sm : Smooth Num) (l : Latest Num) : Smooth Num :=
  {| sm_speed := sm_speed sm
       + (num_min (num_lit 1) ((l_speed l ||| num_lit 400) / num_lit 900)
          - sm_speed sm) * num_lit 0.015;
     sm_density := sm_density sm
       + (num_min (num_lit 1) ((l_density l ||| num_lit 5) / num_lit 20)
          - sm_density sm) * num_lit 0.015;
     sm_bz := sm_bz sm
       + (num_max (num_lit (-1))
            (num_min (num_lit 1) ((l_bz l ||| num_lit 0) / num_lit 15))
          - sm_bz sm) * num_lit 0.015;
     sm_bt := sm_bt sm
       + (num_min (num_lit 1) ((l_bt l ||| num_lit 5) / num_lit 25)
          - sm_bt sm) * num_lit 0.015;
     sm_kp := sm_kp sm
       + (num_min (num_lit 1) ((l_kp l ||| num_lit 2) / num_lit 9)
          - sm_kp sm) * num_lit 0.015 |}.

(** [Math.max(0.15, (sm.kp + sm.bt + Math.max(0, -sm.bz)) / 2.5)] *)
Definition scene_intensity (sm : Smooth Num) : Num :=
  num_max (num_lit 0.15)
    ((sm_kp sm + sm_bt sm + num_max (num_lit 0) (- sm_bz sm))
     / num_lit 2.5).

(** The smoothing of one render tick; [animate] returns early, before
    it, while [dataRef.current] is null. *)
Definition animate_smooth (sm : Smooth Num) (d : option (Sample Num))
  : Smooth Num :=
  match d with
  | None => sm
  | Some d => smooth sm (latest d)
  end.

(** The smoothed state after a run of render ticks. *)
Definition animate_run (sm : Smooth Num) (ds : list (option (Sample Num)))
  : Smooth Num :=
  fold_left animate_smooth ds sm.

(** [trailMat.uniforms.uFade.value = 0.75 + intensity * 0.08] *)
Definition uFade (intensity : Num) : Num :=
  num_lit 0.75 + intensity * num_lit 0.08.

(** GLSL [max(x, y)]: [y] if [x < y], otherwise [x]. *)
Definition glsl_max (x y : Num) : Num := if x <? y then y else x.

(** The fragment shader of [trailMat] at one pixel:
    [gl_FragColor = max(newCol, texture2D(tPrev, vUv) * uFade)]. *)
Definition trail_fragment (uFade : Num) (newCol prev : vec4 Num)
  : vec4 Num :=
  let prevCol := mkVec4 (v_r prev * uFade) (v_g prev * uFade)
                        (v_b prev * uFade) (v_a prev * uFade) in
  mkVec4 (glsl_max (v_r newCol) (v_r prevCol))
         (glsl_max (v_g newCol) (v_g prevCol))
         (glsl_max (v_b newCol) (v_b prevCol))
         (glsl_max (v_a newCol) (v_a prevCol)).

(** One pixel of the trail buffer over a run of ticks: each tick renders
    the scene colour [fst tick] under the smoothed state [snd tick], and
    what it writes is what the next tick reads (the buffers swap). *)
Definition trail_run (prev : vec4 Num)
    (ticks : list (vec4 Num * Smooth Num)) : vec4 Num :=
  fold_left (fun prev tick =>
               trail_fragment (uFade (scene_intensity (snd tick)))
                              (fst tick) prev)
            ticks prev.
End Scene.

(* ================================================================== *)
(** * Sonification engine: [SonEngine] *)
(* ================================================================== *)

(** The Tone.js classes the engine instantiates. *)
Inductive NodeKind : Type :=
  | Gain | Reverb | FeedbackDelay | Chorus | LFO | FMSynth | PolySynth
  | PluckSynth | AutoFilter | Noise | MembraneSynth.

(** The calls the engine makes into Tone.js.  A node is named by the
    number it was allocated under. *)
Inductive ToneCall (Num : Type) : Type :=
  | ToneStart                                   (* Tone.start() *)
  | SetBpm (bpm : Num)
  | New (kind : NodeKind) (node : nat)          (* new Tone.X(...) *)
  | WindSetNote (freq : Num)                    (* wind.setNote *)
  | PadReleaseAll                               (* bzPad.releaseAll *)
  | PadAttack (freqs : list Num)                (* bzPad.triggerAttack *)
  | PluckAttack (note : option string)          (* pluck.triggerAttack *)
  | NoiseBaseFrequency (freq : Num)
  | NoiseRampTo (volume : Num)
  | BellAttackRelease (note : option string)    (* bell.triggerAttackRelease *)
  | SubAttackRelease (freq : Num)
  | ShimmerAttackRelease (freq : Num)
  | BreathRange (min max : Num)
  | Dispose (node : nat).
Arguments ToneStart {Num}. Arguments SetBpm {Num}. Arguments New {Num}.
Arguments WindSetNote {Num}. Arguments PadReleaseAll {Num}.
Arguments PadAttack {Num}. Arguments PluckAttack {Num}.
Arguments NoiseBaseFrequency {Num}. Arguments NoiseRampTo {Num}.
Arguments BellAttackRelease {Num}. Arguments SubAttackRelease {Num}.
Arguments ShimmerAttackRelease {Num}. Arguments BreathRange {Num}.
Arguments Dispose {Num}.

(** The audio context: how many nodes were ever allocated, and the calls
    made so far. *)
Record Audio (Num : Type) : Type := mkAudio {
  allocated : nat;
  calls : list (ToneCall Num);
}.
Arguments mkAudio {Num}. Arguments allocated {Num}. Arguments calls {Num}.

(** The fields of a [SonEngine]; [None] is a field not yet assigned. *)
Record SonEngine (Num : Type) : Type := mkEngine {
  on : bool;
  master : option nat; reverb : option nat; delay : option nat;
  chorus : option nat; breathLFO : option nat; wind : option nat;
  bzPad : option nat; pluck : option nat; noiseFilter : option nat;
  noise : option nat; bell : option nat; sub : option nat;
  shimmer : option nat;
  _lastPluck : option Num;
  _lastBell : option Num;
}.
Arguments mkEngine {Num}.
Arguments on {Num}. Arguments master {Num}. Arguments reverb {Num}.
Arguments delay {Num}. Arguments chorus {Num}. Arguments breathLFO {Num}.
Arguments wind {Num}. Arguments bzPad {Num}. Arguments pluck {Num}.
Arguments noiseFilter {Num}. Arguments noise {Num}. Arguments bell {Num}.
Arguments sub {Num}. Arguments shimmer {Num}.
Arguments _lastPluck {Num}. Arguments _lastBell {Num}.

Section Sonification.
Context {Num : Type} `{JsNumber Num} (host : Host Num).
Local Open Scope js_scope.

(** [constructor() { this.on = false; }] *)
Definition newEngine : SonEngine Num :=
  mkEngine false None None None None None None None None None None None
           None None None None.

(** [start()], once [Tone.start()] has resolved. *)
Definition start (e : SonEngine Num) (a : Audio Num)
  : SonEngine Num * Audio Num :=
  if on e then (e, a)
  else
    let n := allocated a in
    ({| on := true;
        master := Some n; reverb := Some (n + 1)%nat;
        delay := Some (n + 2)%nat; chorus := Some (n + 3)%nat;
        breathLFO := Some (n + 4)%nat; wind := Some (n + 5)%nat;
        bzPad := Some (n + 6)%nat; pluck := Some (n + 7)%nat;
        noiseFilter := Some (n + 8)%nat; noise := Some (n + 9)%nat;
        bell := Some (n + 10)%nat; sub := Some (n + 11)%nat;
        shimmer := Some (n + 12)%nat;
        _lastPluck := Some (num_lit 0);
        _lastBell := Some (num_lit 0) |},
     {| allocated := (n + 13)%nat;
        calls := calls a ++
          [ToneStart; SetBpm (num_lit 60);
           New Gain n; New Reverb (n + 1)%nat;
           New FeedbackDelay (n + 2)%nat; New Chorus (n + 3)%nat;
           New LFO (n + 4)%nat; New FMSynth (n + 5)%nat;
           New PolySynth (n + 6)%nat; New PluckSynth (n + 7)%nat;
           New AutoFilter (n + 8)%nat; New Noise (n + 9)%nat;
           New PolySynth (n + 10)%nat; New MembraneSynth (n + 11)%nat;
           New FMSynth (n + 12)%nat] |}).

(** [now - last > gap]; false while [last] is [undefined]. *)
Definition elapsed (now : Num) (last : option Num) (gap : Num) : bool :=
  match last with
  | Some t => now - t >? gap
  | None => false
  end.

Definition notes : list string :=
  ["C3"; "D3"; "E3"; "G3"; "A3"; "C4"; "D4"; "E4"; "G4"; "A4"; "C5"].

Definition bellNotes : list string := ["E5"; "G5"; "B5"; "D6"; "F#6"].

(** [arr[Math.floor(r * arr.length)]] *)
Definition pick (arr : list string) (r : Num) : option string :=
  let i := num_floor (r * num_of_nat (length arr)) in
  if (i <? 0)%Z then None else arr !! Z.to_nat i.

(** [d.xray_values?.[d.xray_values.length - 1] || 0] *)
Definition bell_reading (d : Sample Num) : Num :=
  match last (xray_values d) with
  | Some x => x ||| num_lit 0
  | None => num_lit 0
  end.

(** [update(d)] at audio time [now = Tone.now()]: the calls it makes and
    the engine after it.  A call into Tone.js that throws is caught on
    the spot and changes no field of the engine. *)
Definition update (now : Num) (d : option (Sample Num)) (e : SonEngine Num)
  : Rand (list (ToneCall Num) * SonEngine Num) :=
  match on e, d with
  | true, Some d =>
      let l := latest d in
      let sN := num_min (num_lit 1) ((l_speed l ||| num_lit 400) / num_lit 900) in
      let dN := num_min (num_lit 1) ((l_density l ||| num_lit 5) / num_lit 20) in
      let bzN := num_max (num_lit (-1))
                   (num_min (num_lit 1) ((l_bz l ||| num_lit 0) / num_lit 15)) in
      let btN := num_min (num_lit 1) ((l_bt l ||| num_lit 5) / num_lit 25) in
      let kpN := num_min (num_lit 1) ((l_kp l ||| num_lit 2) / num_lit 9) in
      let windCalls := [WindSetNote (num_lit 35 + sN * num_lit 65)] in
      (* Bz chords *)
      let root := num_lit 175 + bzN * num_lit 40 in
      let padCalls :=
        [PadReleaseAll;
         if bzN <? num_lit (-0.3) then
           PadAttack [root; root * num_lit 1.189; root * num_lit 1.414;
                      root * num_lit 1.682]
         else if bzN <? num_lit 0.1 then
           PadAttack [root; root * num_lit 1.189; root * num_lit 1.498]
         else
           PadAttack [root; root * num_lit 1.26; root * num_lit 1.5;
                      root * num_lit 2]] in
      (* Plucks *)
      '(pluckCalls, lastPluck) ←
        (if elapsed now (_lastPluck e) (num_lit 0.3 / (num_lit 0.2 + dN))
         then r ← Math_random host;
              mret ([PluckAttack (pick notes r)], Some now)
         else mret ([], _lastPluck e));
      (* Noise *)
      let noiseCalls :=
        [NoiseBaseFrequency (num_lit 80 + btN * num_lit 2500);
         NoiseRampTo (num_lit (-38) + btN * num_lit 18)] in
      (* X-ray bells *)
      let xv := bell_reading d in
      '(bellCalls, lastBell) ←
        (if (xv >? num_lit 4e-7) && elapsed now (_lastBell e) (num_lit 1.5)
         then r ← Math_random host;
              mret ([BellAttackRelease (pick bellNotes r)], Some now)
         else mret ([], _lastBell e));
      (* Kp rumble *)
      subCalls ←
        (if kpN >? num_lit 0.35
         then r ← Math_random host;
              mret (if r <? kpN * num_lit 0.25
                    then [SubAttackRelease (num_lit 25 + kpN * num_lit 25)]
                    else [])
         else mret []);
      (* Shimmer *)
      shimmerCalls ←
        (if sN + btN + kpN >? num_lit 1.8
         then r ← Math_random host;
              if r <? num_lit 0.15
              then r' ← Math_random host;
                   mret [ShimmerAttackRelease
                           (num_lit 800 + r' * num_lit 1200)]
              else mret []
         else mret []);
      (* Breathing depth *)
      let breathCalls :=
        [BreathRange (num_lit 0.1 + (sN + kpN) * num_lit 0.05)
                     (num_lit 0.2 + (sN + kpN) * num_lit 0.1)] in
      mret (windCalls ++ padCalls ++ pluckCalls ++ noiseCalls ++ bellCalls
              ++ subCalls ++ shimmerCalls ++ breathCalls,
            mkEngine (on e) (master e) (reverb e) (delay e) (chorus e)
                     (breathLFO e) (wind e) (bzPad e) (pluck e)
                     (noiseFilter e) (noise e) (bell e) (sub e) (shimmer e)
                     lastPluck lastBell)
  | _, _ => mret ([], e)
  end.

(** [stop()] *)
Definition stop (e : SonEngine Num) (a : Audio Num)
  : SonEngine Num * Audio Num :=
  if negb (on e) then (e, a)
  else
    (mkEngine false (master e) (reverb e) (delay e) (chorus e)
              (breathLFO e) (wind e) (bzPad e) (pluck e) (noiseFilter e)
              (noise e) (bell e) (sub e) (shimmer e)
              (_lastPluck e) (_lastBell e),
     mkAudio (allocated a)
       (calls a ++
        map Dispose
          (omap id [wind e; bzPad e; pluck e; noise e; bell e; sub e;
                    shimmer e; noiseFilter e; chorus e; delay e; reverb e;
                    breathLFO e; master e]))).

(** A run of [update] calls, each at its own time, with the calls each
    one made. *)
Fixpoint updates (ticks : list (Num * option (Sample Num)))
    (e : SonEngine Num) : Rand (list (list (ToneCall Num)) * SonEngine Num) :=
  match ticks with
  | [] => mret ([], e)
  | (now, d) :: rest =>
      '(cs, e1) ← update now d e;
      '(css, e2) ← updates rest e1;
      mret (cs :: css, e2)
  end.

(** The test of the bell mapping of [update(d)] at time [now]. *)
Definition bell_fires (now : Num) (d : Sample Num) (e : SonEngine Num) : bool :=
  (bell_reading d >? num_lit 4e-7) && elapsed now (_lastBell e) (num_lit 1.5).

Definition is_bell (c : ToneCall Num) : bool :=
  match c with BellAttackRelease _ => true | _ => false end.

(** How many times a run of calls triggers the bell voice. *)
Definition bell_triggers (cs : list (ToneCall Num)) : nat :=
  length (List.filter is_bell cs).
End Sonification.

(* ================================================================== *)
(** * Vocabulary of the statements *)
(* ================================================================== *)

(** The normalized ranges of the smoothed state: the ceilings, which the
    code clamps to (with both ends for [bz]), and the floors at 0. *)
Definition below_ceilings (sm : Smooth Q) : Prop :=
  (sm_speed sm <= 1 /\ sm_density sm <= 1 /\ sm_bt sm <= 1 /\ sm_kp sm <= 1
   /\ -1 <= sm_bz sm <= 1)%Q.

Definition above_floors (sm : Smooth Q) : Prop :=
  (0 <= sm_speed sm /\ 0 <= sm_density sm /\ 0 <= sm_bt sm
   /\ 0 <= sm_kp sm)%Q.

(** A record whose speed, density, field strength and index are not
    negative. *)
Definition nonnegative (l : Latest Q) : Prop :=
  (0 <= l_speed l /\ 0 <= l_density l /\ 0 <= l_bt l /\ 0 <= l_kp l)%Q.

(** What a render tick reads is null or such a record. *)
Definition nonnegative_tick (d : option (Sample Q)) : Prop :=
  match d with
  | Some d => nonnegative (latest d)
  | None => True
  end.



(** The rows of a payload that the loops do not pass over, and the key of
    such a row: the first 16 code units of its time tag. *)
Definition emitting (rows : list JsVal) : list JsVal :=
  List.filter (fun r => negb (row_skipped r)) rows.

Definition row_key (r : JsVal) : jstring :=
  match js_index r 0 with
  | VStr s => take 16 s
  | _ => []
  end.

(** The rows a loop visits, where reading the [length] of the body does
    not throw. *)
Definition data_rows (body : Body) : list JsVal :=
  match rows_after_header body with
  | Ok rows => rows
  | Throw _ => []
  end.

(** [parseFloat(cell) || d] where the conversion of the cell to a string
    does not throw. *)
Definition reading_or (cell : JsVal) (d : float) : float :=
  if float_truthy (parseFloat_value cell) then parseFloat_value cell else d.

(** What the loops over [mag], [kp] and [xray] store for a row or an
    item they neither pass over nor throw at. *)
Definition mag_reading (r : JsVal) : MagReading :=
  {| m_bx := reading_or (js_index r 1) 0;
     m_by := reading_or (js_index r 2) 0;
     m_bz := reading_or (js_index r 3) 0;
     m_bt := reading_or (js_index r 4) 0 |}.

Definition kp_reading (r : JsVal) : float := reading_or (js_index r 1) 0.

Definition xray_reading (r : JsVal) : float :=
  reading_or (js_prop r "flux") 0.

(** The loop over [plasma] on rows none of which it passes over or
    throws at: a reading of [plasma_loop] without its control flow, which
    the proofs go through. *)
Fixpoint emit (magMap : gmap jstring MagReading)
    (kpMap xrayMap : gmap jstring float)
    (lastKp lastXray : float) (rows : list JsVal)
  : list (TelemetryPoint float) :=
  match rows with
  | [] => []
  | r :: rest =>
      let key := row_key r in
      let m := mag_lookup magMap key in
      let lastKp := default lastKp (kpMap !! key) in
      let lastXray := default lastXray (xrayMap !! key) in
      {| tp_time := match js_index r 0 with VStr s => s | _ => [] end;
         tp_speed := reading_or (js_index r 2) 400;
         tp_density := reading_or (js_index r 1) 5;
         tp_temp := reading_or (js_index r 3) 100000;
         tp_bt := m_bt m; tp_bz := m_bz m; tp_bx := m_bx m; tp_by := m_by m;
         tp_kp := lastKp;
         tp_xray := lastXray |}
      :: emit magMap kpMap xrayMap lastKp lastXray rest
  end.

(** Carry forward: the value of a series at the [j]-th point is the
    reading filed under the point's key, if there is one; otherwise the
    value at the point before, and [dflt] at the first point. *)
Definition carried (m : gmap jstring float) (dflt : float)
    (keys : list jstring) (vals : list float) : Prop :=
  length vals = length keys
  /\ forall (j : nat) (key : jstring) (v : float),
      keys !! j = Some key -> vals !! j = Some v ->
      v = default (match j with
                   | O => dflt
                   | S j' => default dflt (vals !! j')
                   end) (m !! key).

(** No reset: from the first point whose key has a reading on, every
    value is the reading of a point met since, whatever the gap. *)
Definition settled (m : gmap jstring float)
    (keys : list jstring) (vals : list float) : Prop :=
  forall (j0 j : nat) (key0 : jstring) (v : float),
    (j0 <= j)%nat ->
    keys !! j0 = Some key0 -> is_Some (m !! key0) ->
    vals !! j = Some v ->
    exists (j1 : nat) (key1 : jstring),
      (j0 <= j1 <= j)%nat /\ keys !! j1 = Some key1 /\ m !! key1 = Some v.

(** The magnetic fields of a point are the reading filed under its key,
    or the fixed object [{ bx: 0, by: 0, bz: 0, bt: 5 }]. *)
Definition mag_of_key (magMap : gmap jstring MagReading) (key : jstring)
    (pt : TelemetryPoint float) : Prop :=
  mkMag (tp_bx pt) (tp_by pt) (tp_bz pt) (tp_bt pt)
  = default (mkMag 0 0 0 5) (magMap !! key).









(** The record [getCurrent] builds from the points [a] and [b] at the
    fraction [t], the record that repeats [a], and the record half way
    between [a] and [b]. *)
Definition interp {Num : Type} `{JsNumber Num} (t : Num)
    (a b : TelemetryPoint Num) : Latest Num :=
  {| l_speed := lerp t (tp_speed a) (tp_speed b);
     l_density := lerp t (tp_density a) (tp_density b);
     l_temp := lerp t (tp_temp a) (tp_temp b);
     l_bt := lerp t (tp_bt a) (tp_bt b);
     l_bz := lerp t (tp_bz a) (tp_bz b);
     l_kp := lerp t (tp_kp a) (tp_kp b) |}.

Definition raw {Num : Type} (a : TelemetryPoint Num) : Latest Num :=
  mkLatest (tp_speed a) (tp_density a) (tp_temp a) (tp_bt a) (tp_bz a)
           (tp_kp a).

Definition midpoint (a b : TelemetryPoint Q) : Latest Q :=
  (mkLatest ((tp_speed a + tp_speed b) / 2)
            ((tp_density a + tp_density b) / 2)
            ((tp_temp a + tp_temp b) / 2)
            ((tp_bt a + tp_bt b) / 2)
            ((tp_bz a + tp_bz b) / 2)
            ((tp_kp a + tp_kp b) / 2))%Q.

(** Two records of rationals with equal fields. *)
Definition Latest_eq (l l' : Latest Q) : Prop :=
  (l_speed l == l_speed l' /\ l_density l == l_density l'
   /\ l_temp l == l_temp l' /\ l_bt l == l_bt l' /\ l_bz l == l_bz l'
   /\ l_kp l == l_kp l')%Q.

(** The cursor of [p] is on the point [a] of its timeline. *)
Definition cursor_on {Num : Type} (p : TimelinePlayer Num)
    (a : TelemetryPoint Num) : Prop :=
  (0 <= index p)%Z /\ timeline p !! Z.to_nat (index p) = Some a.

(** The point after the cursor: the point [a] itself at the end. *)
Definition next_point {Num : Type} (p : TimelinePlayer Num)
    (a : TelemetryPoint Num) : TelemetryPoint Num :=
  default a (timeline p !! S (Z.to_nat (index p))).

(** From [x] to [y] without overflow, [x] not being -0: the step of one
    field over which [lerp] is exact at fraction 0. *)
Definition steady_field (x y : float) : bool :=
  float_is_finite (PrimFloat.sub y x) && negb (float_is_neg_zero x).

Definition steady (a b : TelemetryPoint float) : bool :=
  steady_field (tp_speed a) (tp_speed b)
  && steady_field (tp_density a) (tp_density b)
  && steady_field (tp_temp a) (tp_temp b)
  && steady_field (tp_bt a) (tp_bt b)
  && steady_field (tp_bz a) (tp_bz b)
  && steady_field (tp_kp a) (tp_kp b)
  && steady_field (tp_xray a) (tp_xray b).

(** The rational a finite double stands for; 0 for the others. *)
Definition float_to_Q (x : float) : Q :=
  match Prim2SF x with
  | S754_finite s m e =>
      let z := if s then Zneg m else Zpos m in
      if (0 <=? e)%Z then inject_Z (z * 2 ^ e)
      else Qmake z (Z.to_pos (2 ^ (- e)))
  | _ => 0%Q
  end.

(** The four channels of a pixel. *)
Inductive Channel : Type := Red | Green | Blue | Alpha.

Definition channel {Num : Type} (ch : Channel) (v : vec4 Num) : Num :=
  match ch with
  | Red => v_r v
  | Green => v_g v
  | Blue => v_b v
  | Alpha => v_a v
  end.

(** The scene pass rendered nothing: a black, transparent pixel. *)
Definition black : vec4 Q := mkVec4 0%Q 0%Q 0%Q 0%Q.

(** A run of ticks that render nothing, one per smoothed state. *)
Definition black_ticks (sms : list (Smooth Q))
  : list (vec4 Q * Smooth Q) :=
  map (fun sm => (black, sm)) sms.

(** [0.846 ^ n], 0.846 being the fade at the largest intensity. *)
Fixpoint decay (n : nat) : Q :=
  match n with
  | O => 1%Q
  | S n' => (0.846 * decay n')%Q
  end.

(* ================================================================== *)
(** * Sample inputs *)
(* ================================================================== *)

(** A timeline of [n] copies of one point. *)
Definition flat_timeline {Num : Type} (n : nat) (x : Num)
  : list (TelemetryPoint Num) :=
  replicate n (mkPoint "" x x x x x x x x x).

(** A host whose every draw is one half and whose clock stands at 0. *)
Definition still_host : Host float :=
  mkHost (fun _ => float_of_Q 0.5) (float_of_Q 0) (fun _ => "").

(** An engine as [start()] leaves it, with the last bell at [lastBell]. *)
Definition running_engine (lastBell : float) : SonEngine float :=
  mkEngine true (Some 0%nat) (Some 1%nat) (Some 2%nat) (Some 3%nat)
           (Some 4%nat) (Some 5%nat) (Some 6%nat) (Some 7%nat) (Some 8%nat)
           (Some 9%nat) (Some 10%nat) (Some 11%nat) (Some 12%nat)
           (Some 0%float) (Some lastBell).

(** A sample of quiet solar wind whose flux readings are [flux]. *)
Definition flux_sample (flux : float) : Sample float :=
  mkSample (mkLatest 400 5 100000 5 0 2)%float [flux; flux] "" 0%float
           false 5000 0.



(** A white, opaque pixel. *)
Definition white : vec4 Q := mkVec4 1%Q 1%Q 1%Q 1%Q.

(** The initial smoothed state, three times over. *)
Definition three_ticks : list (Smooth Q) := [sm0; sm0; sm0].

(** Two points, the field [bz] turning from 6.1 to -3.4. *)
Definition north_point : TelemetryPoint float :=
  (mkPoint "2025-02-01 00:00:00" 420.1 5.2 98000 4.5 6.1 1.2 (-3.4) 3
           1e-7)%float.

Definition south_point : TelemetryPoint float :=
  (mkPoint "2025-02-01 00:01:00" 421.7 5.3 98100 4.7 (-3.4) 1.1 (-3.3) 3
           2e-7)%float.

Definition turning_player : TimelinePlayer float :=
  mkPlayer [north_point; south_point] 0 true false None "" 0%float false.

(** The same two points as rationals. *)
Definition north_point_Q : TelemetryPoint Q :=
  mkPoint "2025-02-01 00:00:00" 420.1%Q 5.2%Q 98000%Q 4.5%Q 6.1%Q 1.2%Q
          (-3.4)%Q 3%Q 1e-7%Q.

Definition south_point_Q : TelemetryPoint Q :=
  mkPoint "2025-02-01 00:01:00" 421.7%Q 5.3%Q 98100%Q 4.7%Q (-3.4)%Q 1.1%Q
          (-3.3)%Q 3%Q 2e-7%Q.

Definition turning_player_Q : TimelinePlayer Q :=
  mkPlayer [north_point_Q; south_point_Q] 0 true false None "" 0%Q false.

(** The same timeline with the cursor on its last point. *)
Definition ending_player : TimelinePlayer float :=
  mkPlayer [north_point; south_point] 1 true false None "" 0%float false.

(** Two minutes of plasma; magnetic field, index and flux for the first
    minute only. *)
Definition row (cells : list string) : JsVal :=
  VArr (map (fun cell => VStr (jstr cell)) cells).

Definition plasma_two_minutes : Body :=
  BodyArray
    [row ["time_tag"; "density"; "speed"; "temperature"];
     row ["2025-02-01 00:00:00"; "5.2"; "420.1"; "98000"];
     row ["2025-02-01 00:01:00"; "5.3"; "421.7"; "98100"]].

Definition mag_first_minute : Body :=
  BodyArray
    [row ["time_tag"; "bx_gsm"; "by_gsm"; "bz_gsm"; "bt"];
     row ["2025-02-01 00:00:00"; "1.2"; "-3.4"; "2.1"; "4.5"]].

Definition kp_first_minute : Body :=
  BodyArray
    [row ["time_tag"; "kp_index"];
     row ["2025-02-01 00:00:00"; "3.00"]].

Definition xray_first_minute : JsVal :=
  VArr [VObj [(jstr "time_tag", VStr "2025-02-01 00:00:00");
              (jstr "flux", VNum 1.23e-7)]].

(** An index series whose second reading is no number. *)
Definition kp_malformed : Body :=
  BodyArray
    [row ["time_tag"; "kp_index"];
     row ["2025-02-01 00:00:00"; "3.00"];
     row ["2025-02-01 00:01:00"; "n/a"]].


(** What the normalizer makes of these payloads. *)
Definition points_two_minutes : list (TelemetryPoint float) :=
  match parseNOAAData plasma_two_minutes mag_first_minute kp_first_minute
                      xray_first_minute with
  | Ok pts => pts
  | Throw _ => []
  end.


(* ================================================================== *)
(** * Timeline player: [seekTo] *)
(* ================================================================== *)

Section Seek.
Context {Num : Type} `{JsNumber Num}.
Local Open Scope js_scope.

(** [seekTo(fraction)].  [Math.max(0, Math.min(1, fraction))] is a number
    of [0, 1], below 2, unless [fraction] is NaN; it is then NaN, and so is
    the index the code stores, which is no position at all: [None]. *)
Definition seekTo (fraction : Num) (p : TimelinePlayer Num)
  : option (TimelinePlayer Num) :=
  let clamped := num_max (num_lit 0) (num_min (num_lit 1) fraction) in
  if clamped <? num_lit 2
  then Some (set_index p
               (num_floor (clamped * num_of_Z (timeline_length p - 1))))
  else None.
End Seek.

(** The point [getCurrent] reads first: the one at the cursor, the last
    one when the cursor is past the end. *)
Definition point_read {Num : Type} (p : TimelinePlayer Num)
  : option (TelemetryPoint Num) :=
  timeline p !! Z.to_nat (Z.min (index p) (timeline_length p - 1)).

(** How many of the values are [true]. *)
Definition count_true (bs : list bool) : nat :=
  length (List.filter (fun b => b) bs).

(** The index [seekTo] computes on [n] points, in exact arithmetic. *)
Definition seek_index (q : Q) (n : nat) : Z :=
  Qfloor (Q_max 0 (Q_min 1 q) * inject_Z (Z.of_nat n - 1)).

(** A header row and a hundred plasma rows, all of the same minute. *)
Definition plasma_hundred : Body :=
  BodyArray
    (row ["time_tag"; "density"; "speed"; "temperature"]
     :: replicate 100 (row ["2025-02-01 00:00:00"; "5.2"; "420.1"; "98000"])).

Definition points_hundred : list (TelemetryPoint float) :=
  match parseNOAAData plasma_hundred mag_first_minute kp_first_minute
                      xray_first_minute with
  | Ok pts => pts
  | Throw _ => []
  end.

(* ================================================================== *)
(** * Vocabulary of the further statements on the normalizer *)
(* ================================================================== *)

(** The time tag of a row, when it is a string. *)
Definition time_tag_of (r : JsVal) : jstring :=
  match js_index r 0 with
  | VStr s => s
  | _ => []
  end.

Definition is_string (v : JsVal) : bool :=
  match v with
  | VStr _ => true
  | _ => false
  end.

(** The cells of a row that each loop hands to [parseFloat], in the
    order of the source. *)
Definition mag_cells (r : JsVal) : list JsVal :=
  [js_index r 1; js_index r 2; js_index r 3; js_index r 4].

Definition kp_cells (r : JsVal) : list JsVal := [js_index r 1].

Definition plasma_cells (r : JsVal) : list JsVal :=
  [js_index r 2; js_index r 1; js_index r 3].

(** A row at which a loop throws: it is not passed over, and its time
    tag is not a string, or the conversion of one of its cells to a
    string throws; the same for an item of the flux payload. *)
Definition bad_row (cells : JsVal -> list JsVal) (r : JsVal) : bool :=
  negb (row_skipped r)
  && (negb (is_string (js_index r 0)) || existsb ToString_throws (cells r)).

Definition bad_item (r : JsVal) : bool :=
  negb (item_skipped r)
  && (negb (is_string (js_prop r "time_tag"))
      || ToString_throws (js_prop r "flux")).

(** The body whose [length] cannot be read. *)
Definition null_body (body : Body) : bool :=
  match body with
  | BodyNull => true
  | _ => false
  end.

(** The items the loop over [xray] visits. *)
Definition xray_items (xray : JsVal) : list JsVal :=
  match xray with
  | VArr items => items
  | _ => []
  end.

(** The items of the flux payload the loop does not pass over, and the
    key of such an item. *)
Definition kept_items (items : list JsVal) : list JsVal :=
  List.filter (fun r => negb (item_skipped r)) items.

Definition item_key (r : JsVal) : jstring :=
  match js_prop r "time_tag" with
  | VStr s => take 16 s
  | _ => []
  end.

(** The reading of the last of the rows filed under [key]. *)
Definition last_under {A : Type} (key_of : JsVal -> jstring)
    (reading : JsVal -> A) (key : jstring) (rows : list JsVal) : option A :=
  reading <$> last (filter (fun r => key_of r = key) rows).

(** The number [parseFloat] reads in a plasma cell is passed on when it
    is neither 0 nor NaN. *)
Definition cell_passed_on (cell : JsVal) (field : float) : Prop :=
  forall x, parseFloat cell = Ok x -> float_truthy x = true -> field = x.

Definition plasma_passed_on (r : JsVal) (pt : TelemetryPoint float) : Prop :=
  tp_time pt = time_tag_of r
  /\ cell_passed_on (js_index r 2) (tp_speed pt)
  /\ cell_passed_on (js_index r 1) (tp_density pt)
  /\ cell_passed_on (js_index r 3) (tp_temp pt).

(** The join of a point with the three maps: the magnetic fields are those
    of the last row of [mag] filed under the minute of the plasma row [r],
    or the fixed object; the index and the flux are the last readings
    filed under that minute, when there is one. *)
Definition joined (mag kp : Body) (xray : JsVal)
    (r : JsVal) (pt : TelemetryPoint float) : Prop :=
  mkMag (tp_bx pt) (tp_by pt) (tp_bz pt) (tp_bt pt)
  = default (mkMag 0 0 0 5)
      (last_under row_key mag_reading (row_key r)
                  (emitting (data_rows mag)))
  /\ (forall v,
        last_under row_key kp_reading (row_key r) (emitting (data_rows kp))
        = Some v -> tp_kp pt = v)
  /\ (forall v,
        last_under item_key xray_reading (row_key r)
                   (kept_items (xray_items xray)) = Some v ->
        tp_xray pt = v).

(** No row of the series is filed under the minute of a row of [rows]. *)
Definition no_reading_for {A : Type} (key_of : JsVal -> jstring)
    (reading : JsVal -> A) (series rows : list JsVal) : Prop :=
  Forall (fun r => last_under key_of reading (row_key r) series = None) rows.

(** Two readings of the same minute, then a third of the next minute. *)
Definition kp_revised : Body :=
  BodyArray
    [ row ["time_tag"; "kp_index"];
      row ["2025-02-01 00:00:00"; "3.00"];
      row ["2025-02-01 00:00:30"; "4.33"];
      row ["2025-02-01 00:01:00"; "5.00"] ].

Definition points_revised : list (TelemetryPoint float) :=
  match parseNOAAData plasma_two_minutes mag_first_minute kp_revised
                      xray_first_minute with
  | Ok pts => pts
  | Throw _ => []
  end.

(** A series stamped by the hour only. *)
Definition kp_other_hours : Body :=
  BodyArray
    [ row ["time_tag"; "kp_index"];
      row ["2025-02-01 03:00:00"; "3.00"] ].

Definition points_other_hours : list (TelemetryPoint float) :=
  match parseNOAAData plasma_two_minutes (BodyArray []) kp_other_hours
                      VNull with
  | Ok pts => pts
  | Throw _ => []
  end.

(* ================================================================== *)
(** * Vocabulary of the statements on the generator *)
(* ================================================================== *)

(** The contract of [Math.random()]: every draw is in [0, 1). *)
Definition unit_draws (host : Host Q) : Prop :=
  forall c : nat, (0 <= random host c /\ random host c < 1)%Q.

(** The bounds the random walk clamps its nine values to. *)
Definition in_ranges (pt : TelemetryPoint Q) : Prop :=
  (280 <= tp_speed pt <= 900
   /\ 0.5 <= tp_density pt <= 40
   /\ 20000 <= tp_temp pt <= 500000
   /\ 1 <= tp_bt pt <= 35
   /\ -25 <= tp_bz pt <= 15
   /\ -12 <= tp_bx pt <= 12
   /\ -12 <= tp_by pt <= 12
   /\ 0 <= tp_kp pt <= 9
   /\ 1e-8 <= tp_xray pt <= 1e-4)%Q.

(** The storms that unit draws give. *)
Definition storm_shaped (s : Storm Q) : Prop :=
  (0 <= center s /\ center s < 5000
   /\ 60 <= width s /\ width s < 260
   /\ 0.5 <= intensity s /\ intensity s < 1)%Q.

(** The point [i] is outside the storm [s]. *)
Definition outside (i : nat) (s : Storm Q) : Prop :=
  (width s <= Qabs (inject_Z (Z.of_nat i) - center s))%Q.

(** A host whose draws alternate between a quarter and three quarters. *)
Definition swinging_host : Host Q :=
  mkHost (fun c => if Nat.even c then (1 # 4)%Q else (3 # 4)%Q) 0%Q
         (fun _ => "").

(** One storm around point 120, 60 points wide on each side. *)
Definition lone_storm : list (Storm Q) :=
  [mkStorm 120%Q 60%Q (3 # 4)%Q].

(* ================================================================== *)
(** * Vocabulary of the further statements on the engine *)
(* ================================================================== *)

(** A call of a method of one [SonEngine], the calls not overlapping. *)
Inductive EngineCall (Num : Type) : Type :=
  | CallStart
  | CallUpdate (now : Num) (d : option (Sample Num))
  | CallStop.
Arguments CallStart {Num}. Arguments CallUpdate {Num}.
Arguments CallStop {Num}.

Section EngineRuns.
Context {Num : Type} `{JsNumber Num} (host : Host Num).
Local Open Scope js_scope.

(** One call on the engine; what [update] asks of Tone.js goes to the log
    of the audio context. *)
Definition engine_call (c : EngineCall Num)
    (st : SonEngine Num * Audio Num) : Rand (SonEngine Num * Audio Num) :=
  match c with
  | CallStart => mret (start (fst st) (snd st))
  | CallUpdate now d =>
      '(cs, e') ← update host now d (fst st);
      mret (e', mkAudio (allocated (snd st)) (calls (snd st) ++ cs))
  | CallStop => mret (stop (fst st) (snd st))
  end.

Fixpoint engine_calls (cs : list (EngineCall Num))
    (st : SonEngine Num * Audio Num) : Rand (SonEngine Num * Audio Num) :=
  match cs with
  | [] => mret st
  | c :: rest => st' ← engine_call c st; engine_calls rest st'
  end.

(** The nodes a log creates and the nodes it disposes of, in order. *)
Definition created (cs : list (ToneCall Num)) : list nat :=
  omap (fun c => match c with New _ node => Some node | _ => None end) cs.

Definition disposed (cs : list (ToneCall Num)) : list nat :=
  omap (fun c => match c with Dispose node => Some node | _ => None end) cs.

(** The nodes the fields of an engine hold, in the order of [stop()]. *)
Definition engine_nodes (e : SonEngine Num) : list nat :=
  omap id [wind e; bzPad e; pluck e; noise e; bell e; sub e; shimmer e;
           noiseFilter e; chorus e; delay e; reverb e; breathLFO e;
           master e].

(** The five normalized readings of [update(d)]. *)
Definition speedN (d : Sample Num) : Num :=
  num_min (num_lit 1) ((l_speed (latest d) ||| num_lit 400) / num_lit 900).

Definition densityN (d : Sample Num) : Num :=
  num_min (num_lit 1) ((l_density (latest d) ||| num_lit 5) / num_lit 20).

Definition fieldN (d : Sample Num) : Num :=
  num_max (num_lit (-1))
    (num_min (num_lit 1) ((l_bz (latest d) ||| num_lit 0) / num_lit 15)).

Definition strengthN (d : Sample Num) : Num :=
  num_min (num_lit 1) ((l_bt (latest d) ||| num_lit 5) / num_lit 25).

Definition indexN (d : Sample Num) : Num :=
  num_min (num_lit 1) ((l_kp (latest d) ||| num_lit 2) / num_lit 9).

(** The test of the pluck mapping of [update(d)] at time [now]. *)
Definition pluck_gap (d : Sample Num) : Num :=
  num_lit 0.3 / (num_lit 0.2 + densityN d).

Definition pluck_fires (now : Num) (d : Sample Num) (e : SonEngine Num)
  : bool :=
  elapsed now (_lastPluck e) (pluck_gap d).

(** [update(d)] on a running engine, voice by voice: the calls of each
    mapping, in the order of the code, with the draws it makes.  The
    proofs go through this reading of [update]. *)
Definition wind_calls (d : Sample Num) : list (ToneCall Num) :=
  [WindSetNote (num_lit 35 + speedN d * num_lit 65)].

Definition pad_calls (d : Sample Num) : list (ToneCall Num) :=
  let root := num_lit 175 + fieldN d * num_lit 40 in
  [PadReleaseAll;
   if fieldN d <? num_lit (-0.3) then
     PadAttack [root; root * num_lit 1.189; root * num_lit 1.414;
                root * num_lit 1.682]
   else if fieldN d <? num_lit 0.1 then
     PadAttack [root; root * num_lit 1.189; root * num_lit 1.498]
   else
     PadAttack [root; root * num_lit 1.26; root * num_lit 1.5;
                root * num_lit 2]].

Definition pluck_calls (now : Num) (d : Sample Num) (e : SonEngine Num)
    (draws : nat) : list (ToneCall Num) * nat :=
  if pluck_fires now d e
  then ([PluckAttack (pick notes (random host draws))], S draws)
  else ([], draws).

Definition noise_calls (d : Sample Num) : list (ToneCall Num) :=
  [NoiseBaseFrequency (num_lit 80 + strengthN d * num_lit 2500);
   NoiseRampTo (num_lit (-38) + strengthN d * num_lit 18)].

Definition bell_calls (now : Num) (d : Sample Num) (e : SonEngine Num)
    (draws : nat) : list (ToneCall Num) * nat :=
  if bell_fires now d e
  then ([BellAttackRelease (pick bellNotes (random host draws))], S draws)
  else ([], draws).

Definition sub_calls (d : Sample Num) (draws : nat)
  : list (ToneCall Num) * nat :=
  if indexN d >? num_lit 0.35
  then (if random host draws <? indexN d * num_lit 0.25
        then [SubAttackRelease (num_lit 25 + indexN d * num_lit 25)]
        else [], S draws)
  else ([], draws).

Definition shimmer_calls (d : Sample Num) (draws : nat)
  : list (ToneCall Num) * nat :=
  if speedN d + strengthN d + indexN d >? num_lit 1.8
  then (if random host draws <? num_lit 0.15
        then ([ShimmerAttackRelease
                 (num_lit 800 + random host (S draws) * num_lit 1200)],
              S (S draws))
        else ([], S draws))
  else ([], draws).

Definition breath_calls (d : Sample Num) : list (ToneCall Num) :=
  [BreathRange (num_lit 0.1 + (speedN d + indexN d) * num_lit 0.05)
               (num_lit 0.2 + (speedN d + indexN d) * num_lit 0.1)].

Definition update_by_voice (now : Num) (d : Sample Num) (e : SonEngine Num)
    (draws : nat) : list (ToneCall Num) * SonEngine Num * nat :=
  let '(pluckCalls, draws1) := pluck_calls now d e draws in
  let '(bellCalls, draws2) := bell_calls now d e draws1 in
  let '(subCalls, draws3) := sub_calls d draws2 in
  let '(shimmerCalls, draws4) := shimmer_calls d draws3 in
  (wind_calls d ++ pad_calls d ++ pluckCalls ++ noise_calls d ++ bellCalls
     ++ subCalls ++ shimmerCalls ++ breath_calls d,
   mkEngine (on e) (master e) (reverb e) (delay e) (chorus e)
            (breathLFO e) (wind e) (bzPad e) (pluck e)
            (noiseFilter e) (noise e) (bell e) (sub e) (shimmer e)
            (if pluck_fires now d e then Some now else _lastPluck e)
            (if bell_fires now d e then Some now else _lastBell e),
   draws4).

Definition is_pluck (c : ToneCall Num) : bool :=
  match c with PluckAttack _ => true | _ => false end.

Definition pluck_triggers (cs : list (ToneCall Num)) : nat :=
  length (List.filter is_pluck cs).

(** The times of the updates of a run at which a voice was triggered,
    [voice] counting its triggers among the calls of one update. *)
Definition trigger_times (voice : list (ToneCall Num) -> nat)
    (ticks : list (Num * option (Sample Num)))
    (css : list (list (ToneCall Num))) : list Num :=
  omap (fun tc => if (0 <? voice (snd tc))%nat then Some (fst (fst tc))
                  else None)
       (zip ticks css).

(** Each time of [ts] passes the test [t - last > gap] against the time
    before it, the first against [last]. *)
Fixpoint spaced (gap : Num) (last : option Num) (ts : list Num) : Prop :=
  match ts with
  | [] => True
  | t :: rest => elapsed t last gap = true /\ spaced gap (Some t) rest
  end.
(** A voice creates no node and disposes of none. *)
Definition node_free (cs : list (ToneCall Num)) : Prop :=
  created cs = [] /\ disposed cs = [].

(** What holds of an engine and its audio context after any calls: the
    nodes were created under the numbers 0, 1, 2, ... in turn; the nodes
    disposed of are those below the thirteen of a running engine. *)
Definition balanced (e : SonEngine Num) (a : Audio Num) : Prop :=
  created (calls a) = seq 0 (allocated a)
  /\ if on e
     then exists n, allocated a = (n + 13)%nat
                    /\ disposed (calls a) ≡ₚ seq 0 n
                    /\ engine_nodes e ≡ₚ seq n 13
     else disposed (calls a) ≡ₚ seq 0 (allocated a).
End EngineRuns.

(** The ranges of what [update] hands to Tone.js. *)
Definition call_in_range (c : ToneCall Q) : Prop :=
  match c with
  | WindSetNote freq => (35 <= freq <= 100)%Q
  | PadAttack freqs =>
      (3 <= length freqs <= 4)%nat
      /\ Forall (fun freq => (135 <= freq <= 430)%Q) freqs
  | PluckAttack note | BellAttackRelease note => is_Some note
  | NoiseBaseFrequency freq => (80 <= freq <= 2580)%Q
  | NoiseRampTo volume => (-38 <= volume <= -20)%Q
  | SubAttackRelease freq => (25 <= freq <= 50)%Q
  | ShimmerAttackRelease freq => (800 <= freq < 2000)%Q
  | BreathRange min max =>
      (0.1 <= min <= 0.2 /\ 0.2 <= max <= 0.4 /\ min <= max)%Q
  | _ => True
  end.

(** The densities of a run of updates are not negative. *)
Definition dense_ticks (ticks : list (Q * option (Sample Q))) : Prop :=
  Forall (fun tick => match snd tick with
                      | Some d => (0 <= l_density (latest d))%Q
                      | None => True
                      end) ticks.

(** Plucks more than a quarter of a second apart. *)
Fixpoint apart (last : Q) (ts : list Q) : Prop :=
  match ts with
  | [] => True
  | t :: rest => (1 # 4 < t - last)%Q /\ apart t rest
  end.

(** An engine over the rationals as [start()] leaves a new one, a sample
    of quiet wind, and three updates of it. *)
Definition started_engine : SonEngine Q :=
  fst (start newEngine (mkAudio 0 [])).

Definition quiet_sample : Sample Q :=
  mkSample (mkLatest 420 5 100000 6 (-2) 3)%Q [1e-7; 1e-7]%Q "" 0%Q false
           5000 0.

Definition three_updates : list (Q * option (Sample Q)) :=
  [(1, Some quiet_sample); (1.2, Some quiet_sample);
   (3, Some quiet_sample)]%Q.

(* ================================================================== *)
(** * Playback: the interval callback of [AuroraApp] *)
(* ================================================================== *)

(** What the callback of [setInterval] closes over: the player, the
    counter [tickCount] and [dataRef.current]. *)
Record Playback (Num : Type) : Type := mkPlayback {
  player : TimelinePlayer Num;
  tickCount : Z;
  dataRef : option (Sample Num);
}.
Arguments mkPlayback {Num}.
Arguments player {Num}. Arguments tickCount {Num}. Arguments dataRef {Num}.

(** [const TICKS_PER_POINT = 15] *)
Definition TICKS_PER_POINT : Z := 15.

Section Playback.
Context {Num : Type} `{JsNumber Num}.
Local Open Scope js_scope.

(** The part of [player.fetchLive()] that runs inside the callback: the
    call is not awaited, so that only the statements before the first
    [await] run there. *)
Definition begin_fetch (p : TimelinePlayer Num) : TimelinePlayer Num :=
  mkPlayer (timeline p) (index p) (isLive p) true None
           (currentTime p) (progress p) (paused p).

(** One run of the callback, up to the hand-over of [dataRef.current] to
    the sonification: the state it leaves, and whether it called
    [fetchLive()]. *)
Definition tick (pb : Playback Num) : Result (bool * Playback Num) :=
  if loading (player pb) || (timeline_length (player pb) =? 0)%Z
  then Ok (false, pb)
  else
    let tickCount1 := (tickCount pb + 1)%Z in
    let fraction := num_of_Z tickCount1 / num_of_Z TICKS_PER_POINT in
    let '(fetching, tickCount2, player1) :=
      (if (TICKS_PER_POINT <=? tickCount1)%Z
       then
         let (looped, player1) := advance (player pb) in
         if looped then (true, 0%Z, begin_fetch player1)
         else (false, 0%Z, player1)
       else (false, tickCount1, player pb))
      : bool * Z * TimelinePlayer Num in
    '(d, player2) ← getCurrent (num_min fraction (num_lit 1)) player1;
    Ok (fetching, mkPlayback player2 tickCount2 d).

(** [n] runs of the callback in a row, nothing else happening between
    them, with what each returned. *)
Fixpoint ticks (n : nat) (pb : Playback Num)
  : Result (list bool * Playback Num) :=
  match n with
  | O => Ok ([], pb)
  | S n' =>
      '(fetching, pb1) ← tick pb;
      '(rest, pb2) ← ticks n' pb1;
      Ok (fetching :: rest, pb2)
  end.
(** [getCurrent] writes [currentTime] and [progress] only: what it leaves
    of the player. *)
Definition same_cursor (p p' : TimelinePlayer Num) : Prop :=
  timeline p' = timeline p /\ index p' = index p /\ isLive p' = isLive p
  /\ loading p' = loading p /\ error p' = error p /\ paused p' = paused p.

(** What a run of ticks leaves of the player when it moves nothing. *)
Definition rests (pb pb' : Playback Num) : Prop :=
  same_cursor (player pb) (player pb').
End Playback.

(** ** The player in the event loop *)



Section EventLoop.
Variable host : Host float.



End EventLoop.

(** ** Vocabulary of the statements on the playback *)


(** The record of a sample of rationals is that of the point [a]. *)
Definition shows (d : option (Sample Q)) (l : Latest Q) : Prop :=
  match d with
  | Some smp => Latest_eq (latest smp) l
  | None => False
  end.

(** A player over the rationals on five equal points, and a timeline that
    climbs by one unit of every field per point. *)
Definition short_playback (i : Z) (isPaused : bool) : Playback Q :=
  mkPlayback (mkPlayer (flat_timeline 5 1%Q) i true false None "" 0%Q
                       isPaused) 0 None.

Definition step_point (x : Q) : TelemetryPoint Q :=
  mkPoint "" x x x x x x x x x.

Definition climbing_playback : Playback Q :=
  mkPlayback (mkPlayer [step_point 0; step_point 1; step_point 2;
                        step_point 3]%Q 0 true false None "" 0%Q false)
             13 None.

(** [z] lies between [x] and [y], whichever is the larger. *)
Definition between (x y z : Q) : Prop :=
  (x <= z <= y \/ y <= z <= x)%Q.

(** Every value of the sample lies between those of the points [a] and
    [b]. *)
Definition sample_between (a b : TelemetryPoint Q) (smp : Sample Q) : Prop :=
  between (tp_speed a) (tp_speed b) (l_speed (latest smp))
  /\ between (tp_density a) (tp_density b) (l_density (latest smp))
  /\ between (tp_temp a) (tp_temp b) (l_temp (latest smp))
  /\ between (tp_bt a) (tp_bt b) (l_bt (latest smp))
  /\ between (tp_bz a) (tp_bz b) (l_bz (latest smp))
  /\ between (tp_kp a) (tp_kp b) (l_kp (latest smp))
  /\ Forall (between (tp_xray a) (tp_xray b)) (xray_values smp).

(** The sample is within the bounds of the random walk. *)
Definition sample_in_ranges (smp : Sample Q) : Prop :=
  (280 <= l_speed (latest smp) <= 900
   /\ 0.5 <= l_density (latest smp) <= 40
   /\ 20000 <= l_temp (latest smp) <= 500000
   /\ 1 <= l_bt (latest smp) <= 35
   /\ -25 <= l_bz (latest smp) <= 15
   /\ 0 <= l_kp (latest smp) <= 9)%Q
  /\ Forall (fun x => (1e-8 <= x <= 1e-4)%Q) (xray_values smp).

(** A player over the rationals on the timeline [tl]. *)
Definition player_on (tl : list (TelemetryPoint Q)) (i : Z)
  : TimelinePlayer Q :=
  mkPlayer tl i false false None "" 0%Q false.

(* ================================================================== *)
(** * Scene: what [animate] derives from the smoothed state *)
(* ================================================================== *)

(** The numbers a frame hands to the scene, the materials and the two
    post-processing passes. *)
Record FrameParams (Num : Type) : Type := mkFrame {
  streamGain : Num;        (* factor of [stVel[i]] *)
  streamRed : Num;         (* [sc[i*3]] *)
  streamBlue : Num;        (* [sc[i*3+2]] *)
  streamOpacity : Num;     (* [stMat.opacity] *)
  fieldStretch : Num;      (* factor of [bp.y] *)
  tubeRadius : Num;        (* radius of the [TubeGeometry] *)
  fieldOpacity : Num;      (* [fl.mesh.material.opacity] *)
  fieldHue : Num;          (* hue of [setHSL] *)
  starRate : Num;          (* bound of the draw for a shooting star *)
  bgR : Num;
  bgB : Num;
  uBloomStrength : Num;
}.
Arguments mkFrame {Num}.
Arguments streamGain {Num}. Arguments streamRed {Num}.
Arguments streamBlue {Num}. Arguments streamOpacity {Num}.
Arguments fieldStretch {Num}. Arguments tubeRadius {Num}.
Arguments fieldOpacity {Num}. Arguments fieldHue {Num}.
Arguments starRate {Num}. Arguments bgR {Num}. Arguments bgB {Num}.
Arguments uBloomStrength {Num}.

Section Frame.
Context {Num : Type} `{JsNumber Num}.
Local Open Scope js_scope.

Definition frame_params (sm : Smooth Num) : FrameParams Num :=
  let intensity := scene_intensity sm in
  {| streamGain := num_lit 0.5 + sm_speed sm * num_lit 5;
     streamRed := num_lit 0.2 + sm_speed sm * num_lit 0.35;
     streamBlue := num_lit 0.35 + sm_density sm * num_lit 0.35;
     streamOpacity := num_lit 0.15 + sm_speed sm * num_lit 0.3;
     fieldStretch := num_lit 0.8 + intensity * num_lit 0.5;
     tubeRadius := num_lit 0.4 + intensity * num_lit 1.8;
     fieldOpacity := num_lit 0.06 + intensity * num_lit 0.18;
     fieldHue := num_lit 0.35 + sm_bz sm * num_lit 0.12;
     starRate := num_lit 0.01 + sm_kp sm * num_lit 0.03;
     bgR := num_lit 0.004 + num_max (num_lit 0) (- sm_bz sm) * num_lit 0.02;
     bgB := num_lit 0.016 + sm_speed sm * num_lit 0.015;
     uBloomStrength := num_lit 0.3 + intensity * num_lit 0.4 |}.

(** ** The fragment shader of [bloomMat] *)

Definition vec4_add (a b : vec4 Num) : vec4 Num :=
  mkVec4 (v_r a + v_r b) (v_g a + v_g b) (v_b a + v_b b) (v_a a + v_a b).

(** [v * s] and [v / s] for a float [s]. *)
Definition vec4_scale (a : vec4 Num) (s : Num) : vec4 Num :=
  mkVec4 (v_r a * s) (v_g a * s) (v_b a * s) (v_a a * s).

Definition vec4_div (a : vec4 Num) (s : Num) : vec4 Num :=
  mkVec4 (v_r a / s) (v_g a / s) (v_b a / s) (v_a a / s).

(** [max(v - 0.35, 0.0)] *)
Definition bright_part (a : vec4 Num) : vec4 Num :=
  mkVec4 (glsl_max (v_r a - num_lit 0.35) (num_lit 0))
         (glsl_max (v_g a - num_lit 0.35) (num_lit 0))
         (glsl_max (v_b a - num_lit 0.35) (num_lit 0))
         (glsl_max (v_a a - num_lit 0.35) (num_lit 0)).

(** The two loops [for (int x = -4; x <= 4; x++)] and the same for [y]:
    the offsets in the order they are visited. *)
Definition taps : list (Z * Z) :=
  x ← seqZ (-4) 9; y ← seqZ (-4) 9; [(x, y)].

(** [float w = 1.0 / (1.0 + float(x*x + y*y) * 0.5)] *)
Definition tap_weight (tap : Z * Z) : Num :=
  num_lit 1
  / (num_lit 1 + num_of_Z (fst tap * fst tap + snd tap * snd tap)
                 * num_lit 0.5).

(** The body of the loops over the taps [l], on [bloom] and [total]. *)
Definition bloom_taps (tDiffuse : Num * Num -> vec4 Num)
    (uResolution vUv : Num * Num) (l : list (Z * Z))
    (acc : vec4 Num * Num) : vec4 Num * Num :=
  fold_left
    (fun acc tap =>
       let w := tap_weight tap in
       let offset := (num_of_Z (fst tap) / fst uResolution * num_lit 4,
                      num_of_Z (snd tap) / snd uResolution * num_lit 4) in
       (vec4_add (fst acc)
          (vec4_scale (tDiffuse (fst vUv + fst offset, snd vUv + snd offset))
                      w),
        snd acc + w))
    l acc.

(** [main()] of the fragment shader at the pixel [vUv]. *)
Definition bloom_fragment (tDiffuse : Num * Num -> vec4 Num)
    (uBloomStrength : Num) (uResolution vUv : Num * Num) : vec4 Num :=
  let col := tDiffuse vUv in
  let '(bloom, total) :=
    bloom_taps tDiffuse uResolution vUv taps
               (mkVec4 (num_lit 0) (num_lit 0) (num_lit 0) (num_lit 0),
                num_lit 0) in
  let bloom := vec4_div bloom total in
  let brightPass := vec4_scale (bright_part bloom) (num_lit 1.2) in
  vec4_add col (vec4_scale brightPass uBloomStrength).
End Frame.

(** The ranges of the numbers of a frame. *)
Definition valid_frame (f : FrameParams Q) : Prop :=
  (0.5 <= streamGain f <= 5.5
   /\ 0.2 <= streamRed f <= 0.55
   /\ 0.35 <= streamBlue f <= 0.7
   /\ 0.15 <= streamOpacity f <= 0.45
   /\ 0.875 <= fieldStretch f <= 1.4
   /\ 0.67 <= tubeRadius f <= 2.56
   /\ 0.087 <= fieldOpacity f <= 0.276
   /\ 0.23 <= fieldHue f <= 0.47
   /\ 0.01 <= starRate f <= 0.04
   /\ 0.004 <= bgR f <= 0.024
   /\ 0.016 <= bgB f <= 0.031
   /\ 0.36 <= uBloomStrength f <= 0.78)%Q.

(** The texel the bloom pass reads at a tap around [vUv]. *)
Definition texel (tDiffuse : Q * Q -> vec4 Q) (uResolution vUv : Q * Q)
    (tap : Z * Z) : vec4 Q :=
  tDiffuse (fst vUv + inject_Z (fst tap) / fst uResolution * 4,
            snd vUv + inject_Z (snd tap) / snd uResolution * 4)%Q.

(** Every texel the pass reads around [vUv] has its channel [ch] at or
    below [bound]. *)
Definition taps_below (tDiffuse : Q * Q -> vec4 Q) (uResolution vUv : Q * Q)
    (ch : Channel) (bound : Q) : Prop :=
  Forall (fun tap => (channel ch (texel tDiffuse uResolution vUv tap)
                      <= bound)%Q)
         taps.

(** A texture that is [level] everywhere. *)
Definition flat_texture (level : Q) : Q * Q -> vec4 Q :=
  fun _ => mkVec4 level level level 1%Q.

(* ================================================================== *)
(** * Properties of the timeline player's cursor *)
(* ================================================================== *)

Section PlayerFacts.
Context {Num : Type} `{JsNumber Num}.
Implicit Types p : TimelinePlayer Num.

Lemma set_index_same p : set_index p (index p) = p.
Proof. by destruct p. Qed.

Lemma advance_paused p : paused p = true -> advance p = (false, p).
Proof. unfold advance. by intros ->. Qed.

(** Below the last point [advance] moves the cursor by one. *)
Lemma advance_inside p :
  paused p = false ->
  (index p + 1 < timeline_length p - 1)%Z ->
  advance p = (false, set_index p (index p + 1)).
Proof.
  intros Hp Hlt. unfold advance. rewrite Hp.
  destruct (Z.leb_spec (timeline_length (set_index p (index p + 1)) - 1)
              (index (set_index p (index p + 1)))) as [Hle|_]; [|done].
  unfold timeline_length in *. simpl in Hle. lia.
Qed.

(** Reaching the last point wraps to the first and signals. *)
Lemma advance_wraps p :
  paused p = false ->
  (timeline_length p - 1 <= index p + 1)%Z ->
  advance p = (true, set_index p 0).
Proof.
  intros Hp Hge. unfold advance. rewrite Hp.
  destruct (Z.leb_spec (timeline_length (set_index p (index p + 1)) - 1)
              (index (set_index p (index p + 1)))) as [_|Hlt].
  - by destruct p.
  - unfold timeline_length in *. simpl in Hlt. lia.
Qed.

Lemma advances_paused k p :
  paused p = true -> advances k p = (replicate k false, p).
Proof.
  intros Hp. induction k as [|k IH]; [done|].
  simpl. rewrite (advance_paused p Hp), IH. done.
Qed.

Lemma advances_inside k p :
  paused p = false ->
  (index p + Z.of_nat k < timeline_length p - 1)%Z ->
  advances k p = (replicate k false, set_index p (index p + Z.of_nat k)).
Proof.
  revert p. induction k as [|k IH]; intros p Hp Hlt.
  - simpl. by rewrite Z.add_0_r, set_index_same.
  - cbn [advances]. rewrite advance_inside by (done || lia).
    rewrite IH by (done || (unfold timeline_length in *; simpl; lia)).
    simpl. do 2 f_equal. lia.
Qed.

Lemma advances_S k p :
  advances (S k) p =
  let '(r, p1) := advance p in
  let '(rs, p2) := advances k p1 in (r :: rs, p2).
Proof. reflexivity. Qed.

Lemma advances_snoc k p :
  advances (S k) p =
  let '(rs, p1) := advances k p in
  let '(r, p2) := advance p1 in (rs ++ [r], p2).
Proof.
  revert p. induction k as [|k IH]; intros p.
  - simpl. by destruct (advance p).
  - rewrite (advances_S (S k)), (advances_S k p).
    destruct (advance p) as [r p1]. rewrite IH.
    destruct (advances k p1) as [rs p2]. by destruct (advance p2).
Qed.

(** C5: on a timeline of [n >= 2] points, [n - 1] calls of [advance()]
    from index 0, unpaused, return the re-fetch signal exactly once, on
    the last call, and leave the index at 0. *)
Theorem advance_exhausts_window_once p (n : nat) :
  length (timeline p) = n ->
  (2 <= n)%nat ->
  index p = 0%Z ->
  paused p = false ->
  let '(signals, p') := advances (n - 1) p in
  signals = replicate (n - 2) false ++ [true]
  /\ length (filter (fun r => r = true) signals) = 1%nat
  /\ index p' = 0%Z
  /\ timeline p' = timeline p.
Proof.
  intros Hn Hge Hi Hp.
  replace (n - 1)%nat with (S (n - 2)) by lia.
  rewrite advances_snoc.
  rewrite advances_inside
    by (done || (unfold timeline_length; rewrite Hi, Hn; lia)).
  rewrite advance_wraps;
    [|done|unfold timeline_length; simpl; rewrite Hi, Hn; lia].
  repeat split; try done.
  rewrite filter_app. simpl.
  assert (Hnil : forall k, filter (fun r : bool => r = true)
                             (replicate k false) = []).
  { induction k as [|k IH]; [done|]. simpl.
    rewrite filter_cons_False by done. exact IH. }
  by rewrite Hnil.
Qed.

(** C6: on 5000 points with the cursor at [i], [i + 50] short of the
    last index, [togglePause()] and 50 calls of [advance()] leave the
    cursor at [i]; a second [togglePause()] and 50 more calls move it to
    [i + 50], and none of the calls signals a wrap. *)
Theorem pause_then_resume_scenario p (i : Z) :
  length (timeline p) = 5000%nat ->
  index p = i ->
  (i + 50 < 5000 - 1)%Z ->
  paused p = false ->
  let '(paused1, p1) := togglePause p in
  let '(signals1, p2) := advances 50 p1 in
  let '(paused2, p3) := togglePause p2 in
  let '(signals2, p4) := advances 50 p3 in
  paused1 = true /\ index p2 = i /\ signals1 = replicate 50 false
  /\ paused2 = false /\ index p4 = (i + 50)%Z
  /\ signals2 = replicate 50 false.
Proof.
  intros Hn Hi Hlt Hp.
  unfold togglePause at 1. rewrite Hp. cbn [negb paused].
  rewrite advances_paused by done.
  unfold togglePause. cbn [negb paused timeline index isLive loading
                             error currentTime progress].
  rewrite advances_inside
    by (done || (unfold timeline_length; simpl; rewrite Hn, Hi; lia)).
  simpl. by rewrite Hi.
Qed.
End PlayerFacts.

(** A run of C5 on a timeline of three points. *)
Lemma advance_exhausts_window_once_witness :
  let p := mkPlayer (flat_timeline 3 1%Q) 0 true false None "" 0%Q false in
  let '(signals, p') := advances 2 p in
  signals = replicate 1 false ++ [true]
  /\ length (filter (fun r => r = true) signals) = 1%nat
  /\ index p' = 0%Z
  /\ timeline p' = timeline p.
Proof.
  exact (advance_exhausts_window_once
           (mkPlayer (flat_timeline 3 1%Q) 0 true false None "" 0%Q false) 3
           eq_refl (le_S _ _ (le_n 2)) eq_refl eq_refl).
Defined.

(** A run of C6 from index 10. *)
Lemma pause_then_resume_scenario_witness :
  let p := mkPlayer (flat_timeline 5000 1%Q) 10 true false None "" 0%Q false in
  let '(paused1, p1) := togglePause p in
  let '(signals1, p2) := advances 50 p1 in
  let '(paused2, p3) := togglePause p2 in
  let '(signals2, p4) := advances 50 p3 in
  paused1 = true /\ index p2 = 10%Z /\ signals1 = replicate 50 false
  /\ paused2 = false /\ index p4 = (10 + 50)%Z
  /\ signals2 = replicate 50 false.
Proof.
  exact (pause_then_resume_scenario
           (mkPlayer (flat_timeline 5000 1%Q) 10 true false None "" 0%Q false)
           10 (length_replicate _ _) eq_refl eq_refl eq_refl).
Defined.

(* ================================================================== *)
(** * Properties of the synthetic generator and of [fetchLive] *)
(* ================================================================== *)

Section GeneratorFacts.
Context {Num : Type} `{JsNumber Num} (host : Host Num).

(** The main loop pushes one point per round. *)
Lemma walk_loop_length ss weekAgo n i w c :
  length (fst (walk_loop host ss weekAgo n i w c)) = n.
Proof.
  revert i w c. induction n as [|n IH]; intros i w c; [done|].
  cbn [walk_loop]. unfold mbind, Rand_bind.
  destruct (walk_step host (storm_factor i ss) w c) as [w' c1].
  specialize (IH (S i) w' c1).
  destruct (walk_loop host ss weekAgo n (S i) w' c1) as [rest c2].
  simpl in *. by rewrite IH.
Qed.

(** The generator always returns [points] points. *)
Lemma generateSimulatedTimeline_length c :
  length (fst (generateSimulatedTimeline host c)) = points.
Proof.
  unfold generateSimulatedTimeline, mbind, Rand_bind.
  destruct (storms host c) as [ss c1]. apply walk_loop_length.
Qed.
End GeneratorFacts.

Section FetchLiveFacts.
Variable host : Host float.

Lemma Promise_all_Ok {A B C D : Type} first (a : Result A) (b : Result B)
    (c : Result C) (d : Result D) x y z w :
  Promise_all first a b c d = Ok (x, y, z, w) <->
  a = Ok x /\ b = Ok y /\ c = Ok z /\ d = Ok w.
Proof.
  unfold Promise_all. split.
  - destruct a, b, c, d; try done. by intros [= -> -> -> ->].
  - by intros (-> & -> & -> & ->).
Qed.

(** The failures the code names all end in a throw of the [try] block: a
    rejected fetch, a plasma or mag response that is not ok, a timeline
    of fewer than 100 points. *)
Lemma acquire_rejected message :
  acquire (FetchRejected message) = Throw message.
Proof. reflexivity. Qed.

Lemma acquire_not_ok plasmaRes magRes kpRes xrayRes first :
  ok plasmaRes = false \/ ok magRes = false ->
  acquire (FetchResolved plasmaRes magRes kpRes xrayRes first)
  = Throw "NOAA API unavailable".
Proof.
  intros [Hk|Hk]; unfold acquire; rewrite Hk; [done|].
  by rewrite orb_true_r.
Qed.

Lemma acquire_insufficient plasma mag kp xray kpOk xrayOk first tl :
  parseNOAAData plasma mag kp xray = Ok tl ->
  (length tl < 100)%nat ->
  acquire (FetchResolved (mkResponse true (Ok plasma))
                         (mkResponse true (Ok mag))
                         (mkResponse kpOk (Ok kp))
                         (mkResponse xrayOk (Ok xray)) first)
  = Throw "Insufficient data".
Proof.
  intros Hparse Hlen. unfold acquire. simpl.
  unfold mbind, Result_bind. rewrite Hparse.
  by destruct (Nat.ltb_spec (length tl) 100); [|lia].
Qed.

(** What the [try] block makes of bodies that are all JSON. *)
Lemma acquire_parsed plasma mag kp xray kpOk xrayOk first :
  acquire (FetchResolved (mkResponse true (Ok plasma))
                         (mkResponse true (Ok mag))
                         (mkResponse kpOk (Ok kp))
                         (mkResponse xrayOk (Ok xray)) first)
  = tl ← parseNOAAData plasma mag kp xray;
    if (length tl <? 100)%nat then Throw "Insufficient data" else Ok tl.
Proof. reflexivity. Qed.





End FetchLiveFacts.



(* ================================================================== *)
(** * Properties of the sonification engine *)
(* ================================================================== *)

Section EngineFacts.
Context {Num : Type} `{JsNumber Num} (host : Host Num).
Implicit Types (e : SonEngine Num) (a : Audio Num).

(** C10: every operation of the engine tests [this.on] first.  [start()]
    on a running engine, and [update(d)] and [stop()] on a stopped one,
    return at once: no field of the engine changes, no node is allocated,
    no call reaches Tone.js, no random number is drawn.  [update(null)]
    returns at once whatever the flag. *)
Theorem engine_operations_gated_by_on
    e a (now : Num) (d : option (Sample Num)) (draws : nat) :
  (if on e
   then start e a = (e, a)
   else update host now d e draws = ([], e, draws) /\ stop e a = (e, a))
  /\ update host now None e draws = ([], e, draws).
Proof.
  unfold start, update, stop.
  destruct (on e); simpl; repeat split; by destruct d.
Qed.

(** A started engine is on, a stopped one off. *)
Lemma start_turns_on e a : on (fst (start e a)) = true.
Proof. unfold start. by destruct (on e) eqn:Hon. Qed.

Lemma stop_turns_off e a : on (fst (stop e a)) = false.
Proof. unfold stop. by destruct (on e) eqn:Hon. Qed.

(** [start()] on a stopped engine allocates the thirteen nodes. *)
Lemma start_allocates e a :
  on e = false -> allocated (snd (start e a)) = (allocated a + 13)%nat.
Proof. unfold start. by intros ->. Qed.
End EngineFacts.

Section BellFacts.
Context {Num : Type} `{JsNumber Num} (host : Host Num).
Local Open Scope js_scope.

Lemma bell_triggers_app (cs1 cs2 : list (ToneCall Num)) :
  bell_triggers (cs1 ++ cs2) = (bell_triggers cs1 + bell_triggers cs2)%nat.
Proof. unfold bell_triggers. by rewrite List.filter_app, length_app. Qed.

(** The bell mapping of [update], on its own: it triggers once or not at
    all, and moves [_lastBell] only when it triggers. *)
Lemma update_bell now d e draws :
  on e = true ->
  exists cs e' draws',
    update host now (Some d) e draws = (cs, e', draws')
    /\ bell_triggers cs = (if bell_fires now d e then 1 else 0)%nat
    /\ _lastBell e' = (if bell_fires now d e then Some now else _lastBell e)
    /\ on e' = true.
Proof.
  intros Hon. unfold update. rewrite Hon.
  unfold bell_fires, bell_reading, mbind, Rand_bind, mret, Rand_ret, Math_random.
  repeat match goal with
         | |- context [if ?b then _ else _] =>
             lazymatch b with
             | num_truthy _ => fail
             | _ => destruct b eqn:?
             end
         end;
    do 3 eexists; (split; [reflexivity|]);
    rewrite ?bell_triggers_app; simpl; try rewrite Hon; done.
Qed.

Lemma updates_cons now d rest e draws cs e1 draws1 :
  update host now d e draws = (cs, e1, draws1) ->
  updates host ((now, d) :: rest) e draws =
  let '(css, e2, draws2) := updates host rest e1 draws1 in
  (cs :: css, e2, draws2).
Proof.
  intros Hu. cbn [updates]. unfold mbind, Rand_bind. rewrite Hu. cbn iota.
  by destruct (updates host rest e1 draws1) as [[css e2] draws2].
Qed.
End BellFacts.

Section BellScenario.
Variable host : Host float.
Local Open Scope float_scope.

(** The test [xv > 4e-7] at the four readings of the scenario. *)
Lemma bell_fires_quiet now d e :
  last (xray_values d) = Some 1e-8 -> bell_fires now d e = false.
Proof.
  unfold bell_fires, bell_reading. intros ->.
  by replace (num_truthy 1e-8) with true by (by vm_compute);
     replace (num_ltb (num_lit 4e-7) 1e-8) with false by (by vm_compute).
Qed.

Lemma bell_fires_flare now d e lastBell :
  last (xray_values d) = Some 9e-7 ->
  _lastBell e = Some lastBell ->
  bell_fires now d e = (1.5 <? now - lastBell).
Proof.
  unfold bell_fires, bell_reading, elapsed. intros -> ->.
  replace (num_truthy 9e-7) with true by (by vm_compute).
  replace (num_ltb (num_lit 4e-7) 9e-7) with true by (by vm_compute).
  by replace (num_lit 1.5%Q) with 1.5 by (by vm_compute).
Qed.

(** C9: an engine that is on, with its last bell at [lastBell], is
    updated four times, at times [t1] to [t4], with the flux readings
    1e-8, 1e-8, 9e-7 and 1e-8.  If the cooldown of 1.5 has elapsed when the
    third reading comes ([t3 - lastBell > 1.5]) the bell is triggered
    once, by the third update, and [_lastBell] becomes [t3]; if it has
    not, the bell is not triggered at all. *)
Theorem bell_scenario
    (e : SonEngine float) (lastBell : float) (d1 d2 d3 d4 : Sample float)
    (t1 t2 t3 t4 : float) (draws : nat) :
  on e = true ->
  _lastBell e = Some lastBell ->
  last (xray_values d1) = Some 1e-8 ->
  last (xray_values d2) = Some 1e-8 ->
  last (xray_values d3) = Some 9e-7 ->
  last (xray_values d4) = Some 1e-8 ->
  let '(css, e', draws') :=
    updates host [(t1, Some d1); (t2, Some d2); (t3, Some d3); (t4, Some d4)]
            e draws in
  if 1.5 <? t3 - lastBell
  then map bell_triggers css = [0; 0; 1; 0]%nat /\ _lastBell e' = Some t3
  else map bell_triggers css = [0; 0; 0; 0]%nat
       /\ _lastBell e' = Some lastBell.
Proof.
  intros Hon Hlast H1 H2 H3 H4.
  destruct (update_bell host t1 d1 e draws Hon)
    as (cs1 & e1 & c1 & Hu1 & Hb1 & Hl1 & Hon1).
  destruct (update_bell host t2 d2 e1 c1 Hon1)
    as (cs2 & e2 & c2 & Hu2 & Hb2 & Hl2 & Hon2).
  destruct (update_bell host t3 d3 e2 c2 Hon2)
    as (cs3 & e3 & c3 & Hu3 & Hb3 & Hl3 & Hon3).
  destruct (update_bell host t4 d4 e3 c3 Hon3)
    as (cs4 & e4 & c4 & Hu4 & Hb4 & Hl4 & Hon4).
  rewrite (updates_cons _ _ _ _ _ _ _ _ _ Hu1), (updates_cons _ _ _ _ _ _ _ _ _ Hu2),
    (updates_cons _ _ _ _ _ _ _ _ _ Hu3), (updates_cons _ _ _ _ _ _ _ _ _ Hu4).
  cbn [updates mret Rand_ret map].
  rewrite bell_fires_quiet in Hb1, Hl1, Hb2, Hl2, Hb4, Hl4 by done.
  rewrite (bell_fires_flare t3 d3 e2 lastBell) in Hb3, Hl3 by congruence.
  rewrite Hb1, Hb2, Hb3, Hb4, Hl4, Hl3.
  destruct (1.5 <? t3 - lastBell); split; congruence.
Qed.
End BellScenario.

(** C9 with the cooldown long elapsed: the last bell at time 0, the four
    updates at times 10 to 13. *)
Lemma bell_scenario_witness :
  let '(css, e', draws') :=
    updates still_host
            [(10, Some (flux_sample 1e-8)); (11, Some (flux_sample 1e-8));
             (12, Some (flux_sample 9e-7)); (13, Some (flux_sample 1e-8))]%float
            (running_engine 0) 0 in
  if (1.5 <? 12 - 0)%float
  then map bell_triggers css = [0; 0; 1; 0]%nat /\ _lastBell e' = Some 12%float
  else map bell_triggers css = [0; 0; 0; 0]%nat
       /\ _lastBell e' = Some 0%float.
Proof.
  pose proof (bell_scenario still_host (running_engine 0) 0
                (flux_sample 1e-8) (flux_sample 1e-8) (flux_sample 9e-7)
                (flux_sample 1e-8) 10 11 12 13 0
                eq_refl eq_refl eq_refl eq_refl eq_refl eq_refl) as Hrun.
  exact Hrun.
Defined.

(* ================================================================== *)
(** * Properties of the smoothed state, in exact arithmetic *)
(* ================================================================== *)

Section SmoothFacts.
Local Open Scope Q_scope.

Lemma Q_min_le_l x y : Q_min x y <= x.
Proof.
  unfold Q_min. destruct (Qle_bool x y) eqn:Hle; [lra|].
  destruct (Qlt_le_dec y x) as [Hlt|Hge]; [lra|].
  apply Qle_bool_iff in Hge. congruence.
Qed.

Lemma Q_min_glb x y z : z <= x -> z <= y -> z <= Q_min x y.
Proof. unfold Q_min. by destruct (Qle_bool x y). Qed.

Lemma Q_max_le_r x y : y <= Q_max x y.
Proof.
  unfold Q_max. destruct (Qle_bool x y) eqn:Hle; [lra|].
  destruct (Qlt_le_dec y x) as [Hlt|Hge]; [lra|].
  apply Qle_bool_iff in Hge. congruence.
Qed.

Lemma Q_max_le_l x y : x <= Q_max x y.
Proof.
  unfold Q_max. destruct (Qle_bool x y) eqn:Hle; [|lra].
  by apply Qle_bool_iff in Hle.
Qed.

Lemma Q_max_lub x y z : x <= z -> y <= z -> Q_max x y <= z.
Proof. unfold Q_max. by destruct (Qle_bool x y). Qed.

(** One step of the low-pass filter stays between its state and its
    target. *)
Lemma approach_between (lo hi s t : Q) :
  lo <= s <= hi -> lo <= t <= hi ->
  lo <= s + (t - s) * 0.015 <= hi.
Proof. intros Hs Ht. lra. Qed.

Lemma approach_below (hi s t : Q) :
  s <= hi -> t <= hi -> s + (t - s) * 0.015 <= hi.
Proof. intros Hs Ht. lra. Qed.

(** [x || d] is [x] or [d]. *)
Lemma or_default_nonneg (x d : Q) :
  0 <= x -> 0 <= d -> 0 <= (if Q_truthy x then x else d).
Proof. by destruct (Q_truthy x). Qed.

Lemma div_nonneg (x c : Q) : 0 <= x -> 0 < c -> 0 <= x / c.
Proof.
  intros Hx Hc. unfold Qdiv. apply Qmult_le_0_compat; [done|].
  apply Qlt_le_weak, Qinv_lt_0_compat, Hc.
Qed.
End SmoothFacts.

Section SmoothInvariant.
Local Open Scope Q_scope.

(** The ceilings hold after a tick whatever the record read. *)
Lemma smooth_below_ceilings sm l :
  below_ceilings sm -> below_ceilings (smooth sm l).
Proof.
  unfold below_ceilings, smooth.
  cbn [sm_speed sm_density sm_bz sm_bt sm_kp num_add num_sub num_mul num_div
       num_min num_max num_lit num_truthy Q_number].
  intros (Hs & Hd & Hbt & Hk & Hbz).
  refine (conj _ (conj _ (conj _ (conj _ _))));
    try (apply approach_below; [done|apply Q_min_le_l]).
  apply approach_between; [done|]. split; [apply Q_max_le_l|].
  apply Q_max_lub; [lra|apply Q_min_le_l].
Qed.

(** The floors hold after a tick that read a nonnegative record. *)
Lemma smooth_above_floors sm l :
  below_ceilings sm -> above_floors sm -> nonnegative l ->
  above_floors (smooth sm l).
Proof.
  unfold below_ceilings, above_floors, nonnegative, smooth.
  cbn [sm_speed sm_density sm_bz sm_bt sm_kp num_add num_sub num_mul num_div
       num_min num_max num_lit num_truthy Q_number].
  intros (Hs & Hd & Hbt & Hk & Hbz) (Hs0 & Hd0 & Hbt0 & Hk0)
         (Hls & Hld & Hlbt & Hlk).
  refine (conj _ (conj _ (conj _ _)));
    (eapply (approach_between 0 1); [done|]; split;
     [apply Q_min_glb; [lra|]; apply div_nonneg; [|lra];
      apply or_default_nonneg; [done|lra]
     |apply Q_min_le_l]).
Qed.

(** The intensity is never below its floor. *)
Lemma scene_intensity_floor (sm : Smooth Q) : 0.15 <= scene_intensity sm.
Proof. unfold scene_intensity. apply Q_max_le_l. Qed.

(** Under the ceilings the intensity is at most 3 / 2.5. *)
Lemma scene_intensity_ceiling (sm : Smooth Q) :
  below_ceilings sm -> scene_intensity sm <= 1.2.
Proof.
  unfold below_ceilings, scene_intensity.
  cbn [num_add num_div num_max num_lit num_neg Q_number].
  intros (Hs & Hd & Hbt & Hk & Hbz).
  apply Q_max_lub; [lra|].
  assert (Hm : Q_max 0 (- sm_bz sm) <= 1) by (apply Q_max_lub; lra).
  unfold Qdiv. change (/ 2.5) with (10 # 25). lra.
Qed.


End SmoothInvariant.



(* ================================================================== *)
(** * Properties of the trail pass, in exact arithmetic *)
(* ================================================================== *)

Section TrailFacts.
Local Open Scope Q_scope.

Lemma glsl_max_Q (x y : Q) :
  x <= glsl_max x y /\ y <= glsl_max x y
  /\ (glsl_max x y = x \/ glsl_max x y = y).
Proof.
  unfold glsl_max. cbn [num_ltb Q_number]. unfold Q_ltb.
  destruct (Qle_bool y x) eqn:Hle; simpl.
  - apply Qle_bool_iff in Hle. split; [lra|]. split; [lra|by left].
  - assert (~ y <= x) by (rewrite <- Qle_bool_iff; congruence).
    split; [lra|]. split; [lra|by right].
Qed.

(** The shader works channel by channel. *)
Lemma trail_fragment_channel ch (fade : Q) (newCol prev : vec4 Q) :
  channel ch (trail_fragment fade newCol prev)
  = glsl_max (channel ch newCol) (channel ch prev * fade).
Proof. by destruct ch. Qed.

Lemma trail_run_snoc (prev : vec4 Q) ticks tick :
  trail_run prev (ticks ++ [tick])
  = trail_fragment (uFade (scene_intensity (snd tick))) (fst tick)
                   (trail_run prev ticks).
Proof. unfold trail_run. by rewrite fold_left_app. Qed.

(** The fade factor of an attainable state is between 0.762 and 0.846. *)
Lemma uFade_range (sm : Smooth Q) :
  below_ceilings sm ->
  0.762 <= uFade (scene_intensity sm) <= 0.846.
Proof.
  intros Hc. pose proof (scene_intensity_floor sm).
  pose proof (scene_intensity_ceiling sm Hc).
  unfold uFade. cbn [num_add num_mul num_lit Q_number]. lra.
Qed.

(** One tick on a black scene: a channel that was not negative is
    multiplied by the fade factor. *)
Lemma black_tick_channel ch (sm : Smooth Q) (prev : vec4 Q) :
  below_ceilings sm ->
  0 <= channel ch prev ->
  0 <= channel ch (trail_fragment (uFade (scene_intensity sm)) black prev)
    <= channel ch prev * 0.846.
Proof.
  intros Hc Hp. rewrite trail_fragment_channel.
  pose proof (uFade_range sm Hc) as Hf.
  set (f := uFade (scene_intensity sm)) in *.
  destruct (glsl_max_Q (channel ch black) (channel ch prev * f))
    as (H1 & H2 & [-> | ->]).
  - replace (channel ch black) with 0 by (by destruct ch). nra.
  - nra.
Qed.

Lemma decay_pos n : 0 < decay n.
Proof. induction n as [|n IH]; simpl; lra. Qed.

(** [decay n] is at most [1 / (1 + 0.18 n)]. *)
Lemma decay_harmonic n : decay n * (1 + 0.18 * inject_Z (Z.of_nat n)) <= 1.
Proof.
  induction n as [|n IH].
  - cbn [decay]. change (inject_Z (Z.of_nat 0)) with 0. lra.
  - rewrite Nat2Z.inj_succ. unfold Z.succ. rewrite inject_Z_plus.
    cbn [decay]. pose proof (decay_pos n).
    assert (0 <= inject_Z (Z.of_nat n))
      by (rewrite <- (Zle_Qle 0); lia).
    change (inject_Z 1) with 1. nra.
Qed.

(** After [n] black ticks a channel is within [decay n] of where it
    started. *)
Lemma black_run_channel ch (prev : vec4 Q) (sms : list (Smooth Q)) :
  Forall below_ceilings sms ->
  0 <= channel ch prev ->
  0 <= channel ch (trail_run prev (black_ticks sms))
    <= channel ch prev * decay (length sms).
Proof.
  intros Hsms Hp. induction sms as [|sm sms IH] using rev_ind.
  - simpl. lra.
  - apply Forall_app in Hsms as [Hsms Hsm]. apply Forall_inv in Hsm.
    specialize (IH Hsms). unfold black_ticks in *.
    rewrite map_app. cbn [map]. rewrite trail_run_snoc. cbn [fst snd].
    pose proof (black_tick_channel ch sm _ Hsm (proj1 IH)) as Hstep.
    rewrite length_app, Nat.add_comm. cbn [length Nat.add decay]. nra.
Qed.

(** Any bound is passed after enough black ticks. *)
Lemma decay_vanishes (p eps : Q) :
  0 <= p -> 0 < eps ->
  exists N : nat, forall n : nat, (N <= n)%nat -> p * decay n < eps.
Proof.
  intros Hp He.
  set (x := p / (0.18 * eps)).
  exists (S (Z.to_nat (Qceiling x))). intros n Hn.
  pose proof (decay_pos n) as Hd. pose proof (decay_harmonic n) as Hh.
  set (k := inject_Z (Z.of_nat n)) in *.
  assert (Hx : x < k).
  { apply Qle_lt_trans with (inject_Z (Qceiling x)); [apply Qle_ceiling|].
    unfold k. rewrite <- Zlt_Qlt. lia. }
  assert (Hpx : 0.18 * eps * x == p).
  { unfold x. apply Qmult_div_r. lra. }
  assert (Hk : p < 0.18 * eps * k) by nra.
  assert (Hpd : p * decay n * (1 + 0.18 * k) <= p) by nra.
  assert (H0k : 0 <= k) by (unfold k; rewrite <- (Zle_Qle 0); lia).
  nra.
Qed.

(** C8: the trail pass writes, in each channel of each pixel, the larger
    of the new colour and the previous colour times
    [uFade = 0.75 + intensity * 0.08], never their sum.  For every
    attainable smoothed state the fade factor is below 1 (at most 0.846),
    so over ticks that render a black scene a channel never brightens,
    shrinks by 0.846 or more per tick, and ends below any positive bound. *)
Theorem trail_pass_fades_to_black
    (prev newCol : vec4 Q) (sm : Smooth Q) (sms : list (Smooth Q))
    (ch : Channel) :
  below_ceilings sm ->
  Forall below_ceilings sms ->
  0 <= channel ch prev ->
  let fade := uFade (scene_intensity sm) in
  let out := channel ch (trail_fragment fade newCol prev) in
  let faded := channel ch (trail_run prev (black_ticks sms)) in
  (fade = 0.75 + scene_intensity sm * 0.08 /\ fade < 1)
  /\ (channel ch newCol <= out /\ channel ch prev * fade <= out
      /\ (out = channel ch newCol \/ out = channel ch prev * fade))
  /\ (0 <= faded <= channel ch prev * decay (length sms)
      /\ faded <= channel ch prev)
  /\ channel ch (trail_run prev (black_ticks (sms ++ [sm]))) <= faded
  /\ (forall eps, 0 < eps ->
      exists N : nat, forall sms' : list (Smooth Q),
        (N <= length sms')%nat -> Forall below_ceilings sms' ->
        channel ch (trail_run prev (black_ticks sms')) < eps).
Proof.
  intros Hsm Hsms Hp fade out faded.
  pose proof (uFade_range sm Hsm) as Hfade.
  pose proof (black_run_channel ch prev sms Hsms Hp) as Hrun.
  split; [|split; [|split; [|split]]].
  - split; [reflexivity|]. fold fade in Hfade. lra.
  - unfold out. rewrite trail_fragment_channel. apply glsl_max_Q.
  - fold faded in Hrun. split; [done|].
    pose proof (decay_pos (length sms)) as Hd.
    pose proof (decay_harmonic (length sms)) as Hh.
    assert (0 <= inject_Z (Z.of_nat (length sms)))
      by (rewrite <- (Zle_Qle 0); lia).
    assert (decay (length sms) <= 1) by nra.
    nra.
  - unfold black_ticks. rewrite map_app. cbn [map]. rewrite trail_run_snoc.
    cbn [fst snd]. fold (black_ticks sms). fold faded.
    pose proof (black_tick_channel ch sm (trail_run prev (black_ticks sms))
                  Hsm (proj1 Hrun)) as Hstep.
    fold faded in Hstep. lra.
  - intros eps He.
    destruct (decay_vanishes (channel ch prev) eps Hp He) as [N HN].
    exists N. intros sms' Hlen Hsms'.
    pose proof (black_run_channel ch prev sms' Hsms' Hp) as Hrun'.
    specialize (HN (length sms') Hlen). lra.
Qed.
End TrailFacts.

(** C8 on a white pixel, over three black ticks at the initial state. *)
Lemma trail_pass_fades_to_black_witness :
  let fade := uFade (scene_intensity (sm0 : Smooth Q)) in
  let out := channel Red (trail_fragment fade black white) in
  let faded := channel Red (trail_run white (black_ticks three_ticks)) in
  ((fade = 0.75 + scene_intensity (sm0 : Smooth Q) * 0.08 /\ fade < 1)
  /\ (channel Red black <= out /\ channel Red white * fade <= out
      /\ (out = channel Red black \/ out = channel Red white * fade))
  /\ (0 <= faded <= channel Red white * decay (length three_ticks)
      /\ faded <= channel Red white)
  /\ channel Red (trail_run white (black_ticks (three_ticks ++ [sm0])))
     <= faded
  /\ (forall eps, 0 < eps ->
      exists N : nat, forall sms' : list (Smooth Q),
        (N <= length sms')%nat -> Forall below_ceilings sms' ->
        channel Red (trail_run white (black_ticks sms')) < eps))%Q.
Proof.
  assert (Hc : below_ceilings sm0)
    by (unfold below_ceilings; simpl; lra).
  assert (Hw : (0 <= channel Red white)%Q) by (simpl; lra).
  assert (Hcs : Forall below_ceilings three_ticks)
    by (unfold three_ticks;
        repeat (apply List.Forall_cons; [exact Hc|]); apply List.Forall_nil).
  pose proof (trail_pass_fades_to_black white black sm0 three_ticks Red
                Hc Hcs Hw) as Hrun.
  exact Hrun.
Defined.

(* ================================================================== *)
(** * Properties of [getCurrent] *)
(* ================================================================== *)

Section FloatFacts.
Local Open Scope float_scope.

Lemma Prim2SF_zero : Prim2SF 0 = S754_zero false.
Proof. reflexivity. Qed.

(** In doubles, [x + (y - x) * 0] is [x] when [y - x] did not overflow
    and [x] is not -0. *)
Lemma lerp_zero_float (x y : float) :
  steady_field x y = true -> lerp 0 x y = x.
Proof.
  unfold steady_field, float_is_finite, float_is_neg_zero, lerp.
  cbn [num_add num_sub num_mul float_number].
  intros [Hfin Hnz]%andb_prop. apply negb_true_iff in Hnz.
  apply Prim2SF_inj. rewrite add_spec, mul_spec, Prim2SF_zero.
  destruct (Prim2SF (y - x)) as [sd| | |sd md ed]; try done;
    destruct (Prim2SF x) as [[|]| | |sx mx ex]; try done;
    by destruct sd.
Qed.

(** In doubles, [x - x] is +0 for a finite [x]. *)
Lemma sub_diag_float (x : float) :
  float_is_finite x = true -> Prim2SF (x - x) = S754_zero false.
Proof.
  unfold float_is_finite. rewrite sub_spec.
  destruct (Prim2SF x) as [[|]| | |s m e]; try done.
  intros _. unfold SF64sub, SFsub. by rewrite Z.sub_diag.
Qed.

(** In doubles, [x + (x - x) * t] is [x] for finite [x] and [t], [x] not
    being -0. *)
Lemma lerp_same_float (t x : float) :
  float_is_finite t = true -> steady_field x x = true -> lerp t x x = x.
Proof.
  unfold steady_field. intros Ht [Hfin Hnz]%andb_prop.
  apply negb_true_iff in Hnz.
  assert (Hx : float_is_finite x = true).
  { revert Hfin. unfold float_is_finite. rewrite sub_spec.
    by destruct (Prim2SF x) as [[|]|[|]| |s m e]. }
  unfold lerp. cbn [num_add num_sub num_mul float_number].
  apply Prim2SF_inj. rewrite add_spec, mul_spec, (sub_diag_float x Hx).
  unfold float_is_finite, float_is_neg_zero in *.
  destruct (Prim2SF t) as [st| | |st mt et]; try done;
    destruct (Prim2SF x) as [[|]| | |sx mx ex]; try done;
    by destruct st.
Qed.
End FloatFacts.

Section GetCurrentFacts.
Context {Num : Type} `{JsNumber Num}.

Lemma point_at_lookup (tl : list (TelemetryPoint Num)) (i : Z) a :
  (0 <= i)%Z -> tl !! Z.to_nat i = Some a -> point_at tl i = Ok a.
Proof.
  intros Hi Ha. unfold point_at, at_index.
  destruct (Z.ltb_spec i 0) as [Hneg|_]; [lia|]. by rewrite Ha.
Qed.

(** With the cursor on a point, [getCurrent] reads that point and the
    next, or that point twice at the end of the timeline: it never reads
    past the end, and returns a sample. *)
Lemma getCurrent_on_cursor (p : TimelinePlayer Num) (a : TelemetryPoint Num)
    (t : Num) :
  cursor_on p a ->
  exists (smp : Sample Num) (p' : TimelinePlayer Num),
    getCurrent t p = Ok (Some smp, p')
    /\ latest smp = interp t a (next_point p a)
    /\ xray_values smp
       = [tp_xray a; lerp t (tp_xray a) (tp_xray (next_point p a))]
    /\ s_currentTime smp = tp_time a
    /\ timeline p' = timeline p /\ index p' = index p.
Proof.
  intros [Hi Ha]. pose proof (lookup_lt_Some _ _ _ Ha) as Hlt.
  assert (Hlen : (index p < timeline_length p)%Z)
    by (unfold timeline_length; lia).
  unfold getCurrent.
  destruct (Z.eqb_spec (timeline_length p) 0) as [Hz|_]; [lia|].
  cbv zeta. rewrite (Z.min_l (index p)) by lia.
  rewrite (point_at_lookup _ _ a Hi Ha). cbn [mbind Result_bind].
  assert (Hb : point_at (timeline p)
                 (Z.min (index p + 1) (timeline_length p - 1))
               = Ok (next_point p a)).
  { unfold next_point.
    destruct (Z.le_gt_cases (index p + 1) (timeline_length p - 1))
      as [Hin|Hend].
    - rewrite Z.min_l by lia.
      destruct (lookup_lt_is_Some_2 (timeline p) (S (Z.to_nat (index p))))
        as [b Hb]; [unfold timeline_length in *; lia|].
      rewrite Hb. apply point_at_lookup; [lia|].
      by replace (Z.to_nat (index p + 1)) with (S (Z.to_nat (index p)))
        by lia.
    - rewrite Z.min_r by lia.
      rewrite lookup_ge_None_2 by (unfold timeline_length in *; lia).
      apply point_at_lookup; [lia|].
      by replace (Z.to_nat (timeline_length p - 1))
        with (Z.to_nat (index p)) by lia. }
  rewrite Hb. do 2 eexists. split; [reflexivity|]. done.
Qed.

(** At the last index the next point is the last point. *)
Lemma next_point_at_end (p : TimelinePlayer Num) (a : TelemetryPoint Num) :
  index p = (timeline_length p - 1)%Z -> next_point p a = a.
Proof.
  intros Hend. unfold next_point. rewrite lookup_ge_None_2; [done|].
  unfold timeline_length in *. lia.
Qed.
End GetCurrentFacts.

Section InterpFacts.

(** In doubles the record at fraction 0 is the raw point, bit for bit. *)
Lemma interp_zero_float (a b : TelemetryPoint float) :
  steady a b = true ->
  interp 0%float a b = raw a
  /\ lerp 0%float (tp_xray a) (tp_xray b) = tp_xray a.
Proof.
  unfold steady. rewrite !andb_true_iff.
  intros [[[[[[H1 H2] H3] H4] H5] H6] H7].
  unfold interp, raw. by rewrite !lerp_zero_float.
Qed.

(** In doubles the record between a point and itself is that point. *)
Lemma interp_same_float (t : float) (a : TelemetryPoint float) :
  float_is_finite t = true -> steady a a = true ->
  interp t a a = raw a /\ lerp t (tp_xray a) (tp_xray a) = tp_xray a.
Proof.
  unfold steady. rewrite !andb_true_iff.
  intros Ht [[[[[[H1 H2] H3] H4] H5] H6] H7].
  unfold interp, raw. by rewrite !lerp_same_float.
Qed.

(** In exact arithmetic fraction 1 gives the next point and fraction 1/2
    the midpoint. *)
Lemma interp_exact (a b : TelemetryPoint Q) :
  Latest_eq (interp 1%Q a b) (raw b)
  /\ Latest_eq (interp (1 # 2) a b) (midpoint a b).
Proof.
  unfold Latest_eq, interp, raw, midpoint, lerp.
  cbn [l_speed l_density l_temp l_bt l_bz l_kp num_add num_sub num_mul
       Q_number].
  split; repeat (split; [field || ring|]); field || ring.
Qed.
End InterpFacts.

(** C4, as the code has it.  With the cursor on a point [a] of the
    timeline, the last one included, [getCurrent] reads [a] and the point
    after it, which at the last index is [a] again: it never reads out of
    range.  In doubles: at fraction 0 the sample repeats [a] bit for bit
    (no difference overflowing, no field -0), and at the last index it does
    so at every finite fraction.  At fractions 1 and 1/2 the sample is
    [a + (b - a) * t], which is the next point and the midpoint in exact
    arithmetic. *)
Theorem getCurrent_interpolates
    (p : TimelinePlayer float) (a : TelemetryPoint float) (t : float)
    (q : TimelinePlayer Q) (a' : TelemetryPoint Q) :
  cursor_on p a ->
  float_is_finite t = true ->
  cursor_on q a' ->
  (exists smp p',
      getCurrent t p = Ok (Some smp, p')
      /\ latest smp = interp t a (next_point p a)
      /\ xray_values smp
         = [tp_xray a; lerp t (tp_xray a) (tp_xray (next_point p a))])
  /\ (steady a (next_point p a) = true ->
      exists smp p',
        getCurrent 0%float p = Ok (Some smp, p')
        /\ latest smp = raw a
        /\ xray_values smp = [tp_xray a; tp_xray a])
  /\ (index p = (timeline_length p - 1)%Z ->
      steady a a = true ->
      exists smp p',
        getCurrent t p = Ok (Some smp, p')
        /\ latest smp = raw a
        /\ xray_values smp = [tp_xray a; tp_xray a])
  /\ (exists smp q',
        getCurrent 1%Q q = Ok (Some smp, q')
        /\ Latest_eq (latest smp) (raw (next_point q a')))
  /\ (exists smp q',
        getCurrent (1 # 2)%Q q = Ok (Some smp, q')
        /\ Latest_eq (latest smp) (midpoint a' (next_point q a'))).
Proof.
  intros Hp Ht Hq. split; [|split; [|split; [|split]]].
  - destruct (getCurrent_on_cursor p a t Hp)
      as (smp & p' & Hg & Hl & Hx & _).
    by exists smp, p'.
  - intros Hsteady.
    destruct (getCurrent_on_cursor p a 0%float Hp)
      as (smp & p' & Hg & Hl & Hx & _).
    destruct (interp_zero_float a _ Hsteady) as [Hi Hxi].
    exists smp, p'. by rewrite Hl, Hx, Hi, Hxi.
  - intros Hend Hsteady.
    destruct (getCurrent_on_cursor p a t Hp)
      as (smp & p' & Hg & Hl & Hx & _).
    rewrite (next_point_at_end p a Hend) in Hl, Hx.
    destruct (interp_same_float t a Ht Hsteady) as [Hi Hxi].
    exists smp, p'. by rewrite Hl, Hx, Hi, Hxi.
  - destruct (getCurrent_on_cursor q a' 1%Q Hq)
      as (smp & q' & Hg & Hl & _).
    exists smp, q'. split; [done|]. rewrite Hl. apply interp_exact.
  - destruct (getCurrent_on_cursor q a' (1 # 2)%Q Hq)
      as (smp & q' & Hg & Hl & _).
    exists smp, q'. split; [done|]. rewrite Hl. apply interp_exact.
Qed.

(** C4 with the cursor on the last of two points, at fraction 1, and in
    exact arithmetic with the cursor on the first. *)
Lemma getCurrent_interpolates_witness :
  (exists smp p',
      getCurrent 1%float ending_player = Ok (Some smp, p')
      /\ latest smp
         = interp 1%float south_point (next_point ending_player south_point)
      /\ xray_values smp
         = [tp_xray south_point;
            lerp 1%float (tp_xray south_point)
                 (tp_xray (next_point ending_player south_point))])
  /\ (exists smp p',
        getCurrent 0%float ending_player = Ok (Some smp, p')
        /\ latest smp = raw south_point
        /\ xray_values smp = [tp_xray south_point; tp_xray south_point])
  /\ (exists smp p',
        getCurrent 1%float ending_player = Ok (Some smp, p')
        /\ latest smp = raw south_point
        /\ xray_values smp = [tp_xray south_point; tp_xray south_point])
  /\ (exists smp q',
        getCurrent 1%Q turning_player_Q = Ok (Some smp, q')
        /\ Latest_eq (latest smp)
                     (raw (next_point turning_player_Q north_point_Q)))
  /\ (exists smp q',
        getCurrent (1 # 2)%Q turning_player_Q = Ok (Some smp, q')
        /\ Latest_eq (latest smp)
             (midpoint north_point_Q
                       (next_point turning_player_Q north_point_Q))).
Proof.
  assert (Hp : cursor_on ending_player south_point)
    by (split; [by vm_compute|reflexivity]).
  assert (Hq : cursor_on turning_player_Q north_point_Q)
    by (split; [by vm_compute|reflexivity]).
  assert (Ht : float_is_finite 1 = true) by (by vm_compute).
  assert (Hs : steady south_point south_point = true) by (by vm_compute).
  destruct (getCurrent_interpolates ending_player south_point 1%float
              turning_player_Q north_point_Q Hp Ht Hq)
    as (H1 & H2 & H3 & H4 & H5).
  exact (conj H1 (conj (H2 Hs) (conj (H3 eq_refl Hs) (conj H4 H5)))).
Defined.

(** C4 does not hold at fractions 1 and 0.5, as the specification has
    it, in the doubles the program computes with.  From a point with
    [bz] = 6.1 to one with [bz] = -3.4,
    fraction 1 gives -3.4000000000000004, not the next point's value, and
    fraction 0.5 gives 1.3499999999999996, not the midpoint, which is a
    double too. *)
Lemma lerp_misses_next_point_and_midpoint :
  exists s1 p1 s2 p2,
    getCurrent 1%float turning_player = Ok (Some s1, p1)
    /\ getCurrent 0.5%float turning_player = Ok (Some s2, p2)
    /\ PrimFloat.eqb (l_bz (latest s1)) (tp_bz south_point) = false
    /\ Qeq_bool (float_to_Q (l_bz (latest s2)))
                ((float_to_Q (tp_bz north_point)
                  + float_to_Q (tp_bz south_point)) / 2) = false
    /\ Qeq_bool (float_to_Q ((tp_bz north_point + tp_bz south_point) / 2)%float)
                ((float_to_Q (tp_bz north_point)
                  + float_to_Q (tp_bz south_point)) / 2) = true.
Proof.
  do 4 eexists.
  split; [by vm_compute|]. split; [by vm_compute|].
  split; [by vm_compute|]. split; by vm_compute.
Qed.

(* ================================================================== *)
(** * Properties of the normalizer *)
(* ================================================================== *)

Section NormalizerFacts.
Implicit Types (magMap : gmap jstring MagReading)
               (kpMap xrayMap : gmap jstring float).

Lemma js_substring16_Ok (v : JsVal) (key : jstring) :
  js_substring16 v = Ok key ->
  exists s, v = VStr s /\ key = take 16 s.
Proof. destruct v; try done. intros [= <-]. by eexists. Qed.

(** Where [parseFloat] returns, it returns what it reads in the string
    of the cell. *)
Lemma parseFloat_Ok (cell : JsVal) (x : float) :
  parseFloat cell = Ok x ->
  ToString_throws cell = false /\ x = parseFloat_value cell.
Proof.
  unfold parseFloat. destruct (ToString_throws cell); [done|].
  by intros [= <-].
Qed.

Lemma parseFloat_Throw (cell : JsVal) (message : string) :
  parseFloat cell = Throw message -> ToString_throws cell = true.
Proof. unfold parseFloat. by destruct (ToString_throws cell). Qed.

Lemma reading_or_Ok (cell : JsVal) (x d : float) :
  parseFloat cell = Ok x ->
  (if float_truthy x then x else d) = reading_or cell d.
Proof. by intros [_ ->]%parseFloat_Ok. Qed.




Lemma rows_after_header_Ok (body : Body) (rows : list JsVal) :
  rows_after_header body = Ok rows -> rows = data_rows body.
Proof. unfold data_rows. by intros ->. Qed.

(** What [plasma_loop] returns is what it pushes for the rows it does not
    pass over. *)
Lemma plasma_loop_emit magMap kpMap xrayMap lastKp lastXray rows pts :
  plasma_loop magMap kpMap xrayMap lastKp lastXray rows = Ok pts ->
  pts = emit magMap kpMap xrayMap lastKp lastXray (emitting rows).
Proof.
  revert lastKp lastXray pts.
  induction rows as [|r rows IH]; intros lastKp lastXray pts.
  - by intros [= <-].
  - cbn [plasma_loop emitting List.filter].
    destruct (row_skipped r); cbn [negb]; [apply IH|].
    destruct (js_substring16 (js_index r 0)) as [key|] eqn:Hkey; [|done].
    cbn [mbind Result_bind].
    apply js_substring16_Ok in Hkey as (s & Hs & ->).
    destruct (parseFloat (js_index r 2)) as [speed|] eqn:Hspeed; [|done].
    destruct (parseFloat (js_index r 1)) as [density|] eqn:Hdensity;
      [|done].
    destruct (parseFloat (js_index r 3)) as [temp|] eqn:Htemp; [|done].
    cbn [mbind Result_bind].
    destruct (plasma_loop _ _ _ _ _ rows) as [pts'|] eqn:Hloop; [|done].
    intros [= <-]. apply IH in Hloop as ->.
    cbn [emit num_truthy float_number]. unfold row_key. rewrite Hs.
    by rewrite (reading_or_Ok _ _ _ Hspeed), (reading_or_Ok _ _ _ Hdensity),
               (reading_or_Ok _ _ _ Htemp).
Qed.


Lemma emit_length magMap kpMap xrayMap lastKp lastXray rows :
  length (emit magMap kpMap xrayMap lastKp lastXray rows) = length rows.
Proof.
  revert lastKp lastXray. induction rows as [|r rows IH]; [done|].
  intros. cbn [emit length]. by rewrite IH.
Qed.

(** The index is carried forward. *)
Lemma emit_carries_kp magMap kpMap xrayMap lastKp lastXray rows :
  carried kpMap lastKp (map row_key rows)
          (map tp_kp (emit magMap kpMap xrayMap lastKp lastXray rows)).
Proof.
  split; [by rewrite !length_map, emit_length|].
  revert lastKp lastXray. induction rows as [|r rows IH]; [done|].
  intros lastKp lastXray [|j] key v; cbn [emit map tp_kp].
  - by intros [= <-] [= <-].
  - intros Hkey Hv. rewrite (IH _ _ j key v Hkey Hv).
    destruct j as [|j]; [reflexivity|].
    change ((?x :: ?l) !! S (S j)) with (l !! S j) in Hv.
    change ((?x :: ?l) !! S j) with (l !! j).
    destruct (_ !! j) eqn:Hj; [reflexivity|].
    apply lookup_ge_None in Hj. apply lookup_lt_Some in Hv. lia.
Qed.

(** The flux is carried forward. *)
Lemma emit_carries_xray magMap kpMap xrayMap lastKp lastXray rows :
  carried xrayMap lastXray (map row_key rows)
          (map tp_xray (emit magMap kpMap xrayMap lastKp lastXray rows)).
Proof.
  split; [by rewrite !length_map, emit_length|].
  revert lastKp lastXray. induction rows as [|r rows IH]; [done|].
  intros lastKp lastXray [|j] key v; cbn [emit map tp_xray].
  - by intros [= <-] [= <-].
  - intros Hkey Hv. rewrite (IH _ _ j key v Hkey Hv).
    destruct j as [|j]; [reflexivity|].
    change ((?x :: ?l) !! S (S j)) with (l !! S j) in Hv.
    change ((?x :: ?l) !! S j) with (l !! j).
    destruct (_ !! j) eqn:Hj; [reflexivity|].
    apply lookup_ge_None in Hj. apply lookup_lt_Some in Hv. lia.
Qed.

(** The magnetic field is looked up, not carried. *)
Lemma emit_looks_up_mag magMap kpMap xrayMap lastKp lastXray rows :
  Forall2 (mag_of_key magMap) (map row_key rows)
          (emit magMap kpMap xrayMap lastKp lastXray rows).
Proof.
  revert lastKp lastXray. induction rows as [|r rows IH]; intros.
  - constructor.
  - cbn [emit map]. constructor; [|apply IH].
    unfold mag_of_key, mag_lookup. cbn.
    by destruct (default _ _).
Qed.

(** A series that is carried forward never goes back to its default. *)
Lemma carried_settled (m : gmap jstring float) dflt keys vals :
  carried m dflt keys vals -> settled m keys vals.
Proof.
  intros [Hlen Hc] j0 j. induction j as [|j IH]; intros key0 v Hle Hk0 Hm Hv.
  - assert (j0 = 0)%nat as -> by lia.
    exists 0%nat, key0. split; [lia|]. split; [done|].
    rewrite (Hc 0%nat key0 v Hk0 Hv).
    destruct Hm as [x ->]. done.
  - destruct (keys !! S j) as [key|] eqn:Hk.
    2:{ apply lookup_ge_None in Hk. apply lookup_lt_Some in Hv. lia. }
    pose proof (Hc (S j) key v Hk Hv) as Hvj.
    destruct (m !! key) as [x|] eqn:Hx.
    + exists (S j), key. split; [lia|]. split; [done|]. by rewrite Hvj.
    + assert (j0 <= j)%nat as Hle'.
      { destruct (decide (j0 = S j)) as [->|]; [|lia].
        rewrite Hk in Hk0. injection Hk0 as ->. rewrite Hx in Hm.
        by destruct Hm. }
      destruct (vals !! j) as [v'|] eqn:Hv'.
      2:{ apply lookup_ge_None in Hv'. apply lookup_lt_Some in Hv. lia. }
      cbn [default] in Hvj. subst v.
      destruct (IH key0 v' Hle' Hk0 Hm eq_refl) as (j1 & key1 & Hj1 & Hk1 & Hm1).
      exists j1, key1. split; [lia|]. done.
Qed.

Lemma build_magMap_Ok mag magMap :
  build_magMap mag = Ok magMap ->
  foldM mag_step ∅ (data_rows mag) = Ok magMap.
Proof.
  unfold build_magMap, data_rows.
  by destruct (rows_after_header mag).
Qed.

Lemma build_kpMap_Ok kp kpMap :
  build_kpMap kp = Ok kpMap ->
  foldM kp_step ∅ (data_rows kp) = Ok kpMap.
Proof.
  unfold build_kpMap, data_rows.
  by destruct (rows_after_header kp).
Qed.

Lemma parseNOAAData_Ok plasma mag kp xray pts :
  parseNOAAData plasma mag kp xray = Ok pts ->
  exists magMap kpMap xrayMap,
    build_magMap mag = Ok magMap
    /\ build_kpMap kp = Ok kpMap
    /\ build_xrayMap xray = Ok xrayMap
    /\ plasma_loop magMap kpMap xrayMap 2 1e-7 (data_rows plasma) = Ok pts
    /\ pts = emit magMap kpMap xrayMap 2 1e-7 (emitting (data_rows plasma)).
Proof.
  unfold parseNOAAData.
  destruct (build_magMap mag) as [magMap|]; [|done].
  destruct (build_kpMap kp) as [kpMap|]; [|done].
  destruct (build_xrayMap xray) as [xrayMap|]; [|done].
  cbn [mbind Result_bind].
  destruct (rows_after_header plasma) as [rows|] eqn:Hrows; [|done].
  apply rows_after_header_Ok in Hrows as ->.
  cbn [mbind Result_bind]. intros Hloop.
  exists magMap, kpMap, xrayMap. repeat (split; [done|]).
  by apply plasma_loop_emit.
Qed.

(** The index and the flux are carried forward, as C2 has it.  The [kp]
    (and [xray]) of a point is the reading filed under the point's minute
    if there is one, otherwise the value of the point before, and the
    default 2 (and 1e-7) at the first point; so once a minute with a
    reading has been met every later value is a reading, whatever the
    gap.  The magnetic fields of a point are those filed under its
    minute, or the fixed object [{ bx: 0, by: 0, bz: 0, bt: 5 }]. *)
Theorem index_and_flux_carried_forward
    (plasma mag kp : Body) (xray : JsVal)
    (pts : list (TelemetryPoint float)) :
  parseNOAAData plasma mag kp xray = Ok pts ->
  exists magMap kpMap xrayMap,
    build_magMap mag = Ok magMap
    /\ build_kpMap kp = Ok kpMap
    /\ build_xrayMap xray = Ok xrayMap
    /\ carried kpMap 2 (map row_key (emitting (data_rows plasma)))
               (map tp_kp pts)
    /\ settled kpMap (map row_key (emitting (data_rows plasma)))
               (map tp_kp pts)
    /\ carried xrayMap 1e-7 (map row_key (emitting (data_rows plasma)))
               (map tp_xray pts)
    /\ settled xrayMap (map row_key (emitting (data_rows plasma)))
               (map tp_xray pts)
    /\ Forall2 (mag_of_key magMap)
               (map row_key (emitting (data_rows plasma))) pts.
Proof.
  intros (magMap & kpMap & xrayMap & Hm & Hk & Hx & _ & ->)%parseNOAAData_Ok.
  exists magMap, kpMap, xrayMap.
  pose proof (emit_carries_kp magMap kpMap xrayMap 2 1e-7
                (emitting (data_rows plasma))) as Hckp.
  pose proof (emit_carries_xray magMap kpMap xrayMap 2 1e-7
                (emitting (data_rows plasma))) as Hcx.
  repeat (split; [done|]).
  split; [by apply carried_settled in Hckp|].
  split; [done|].
  split; [by apply carried_settled in Hcx|].
  apply emit_looks_up_mag.
Qed.
End NormalizerFacts.

(** The carry-forward on two minutes of plasma with readings for the
    first only. *)
Lemma index_and_flux_carried_forward_witness :
  exists magMap kpMap xrayMap,
    build_magMap mag_first_minute = Ok magMap
    /\ build_kpMap kp_first_minute = Ok kpMap
    /\ build_xrayMap xray_first_minute = Ok xrayMap
    /\ carried kpMap 2
               (map row_key (emitting (data_rows plasma_two_minutes)))
               (map tp_kp points_two_minutes)
    /\ settled kpMap
               (map row_key (emitting (data_rows plasma_two_minutes)))
               (map tp_kp points_two_minutes)
    /\ carried xrayMap 1e-7
               (map row_key (emitting (data_rows plasma_two_minutes)))
               (map tp_xray points_two_minutes)
    /\ settled xrayMap
               (map row_key (emitting (data_rows plasma_two_minutes)))
               (map tp_xray points_two_minutes)
    /\ Forall2 (mag_of_key magMap)
               (map row_key (emitting (data_rows plasma_two_minutes)))
               points_two_minutes.
Proof.
  assert (Hparse : parseNOAAData plasma_two_minutes mag_first_minute
                     kp_first_minute xray_first_minute
                   = Ok points_two_minutes) by (by vm_compute).
  pose proof (index_and_flux_carried_forward _ _ _ _ _ Hparse) as Hrun.
  exact Hrun.
Defined.

(** C2: the code at the input where it parts from the claim.  The
    source announces the lookup of the magnetic reading as "Find closest
    mag reading", and the index and the flux next to it are carried
    forward; but the second minute, which has no magnetic reading of its
    own, gets [bt] = 5 and [bx] = [by] = [bz] = 0, the fixed object, not
    the reading of the minute before (4.5, 1.2, -3.4, 2.1), while its
    [kp] and [xray] are those of the minute before. *)
Lemma magnetic_field_not_carried_forward :
  exists p1 p2,
    parseNOAAData plasma_two_minutes mag_first_minute kp_first_minute
                  xray_first_minute = Ok [p1; p2]
    /\ mkMag (tp_bx p1) (tp_by p1) (tp_bz p1) (tp_bt p1)
       = mkMag 1.2 (-3.4) 2.1 4.5
    /\ mkMag (tp_bx p2) (tp_by p2) (tp_bz p2) (tp_bt p2) = mkMag 0 0 0 5
    /\ PrimFloat.eqb (tp_bt p2) (tp_bt p1) = false
    /\ (tp_kp p1, tp_xray p1) = (3, 1.23e-7)%float
    /\ (tp_kp p2, tp_xray p2) = (3, 1.23e-7)%float.
Proof. do 2 eexists. repeat split; by vm_compute. Qed.

Section DefaultFacts.
Local Open Scope float_scope.
Implicit Types (magMap : gmap jstring MagReading)
               (kpMap xrayMap : gmap jstring float).











(** What the loops that fill the maps do at a row: nothing at a row
    they pass over; at another, where they do not throw, the time tag is
    a string, the cells convert to strings, and the reading is filed
    under the key of the row. *)
Lemma mag_step_Ok magMap (r : JsVal) m' :
  mag_step magMap r = Ok m' ->
  if row_skipped r then m' = magMap
  else existsb ToString_throws (mag_cells r) = false
       /\ m' = <[row_key r := mag_reading r]> magMap.
Proof.
  unfold mag_step. destruct (row_skipped r); [by intros [= <-]|].
  destruct (js_substring16 _) as [key|] eqn:Hkey; [|done].
  apply js_substring16_Ok in Hkey as (s & Hs & ->).
  cbn [mbind Result_bind].
  destruct (parseFloat (js_index r 1)) as [bx|] eqn:Hbx; [|done].
  destruct (parseFloat (js_index r 2)) as [by_|] eqn:Hby; [|done].
  destruct (parseFloat (js_index r 3)) as [bz|] eqn:Hbz; [|done].
  destruct (parseFloat (js_index r 4)) as [bt|] eqn:Hbt; [|done].
  cbn [mbind Result_bind num_truthy float_number]. intros [= <-].
  rewrite (reading_or_Ok _ _ _ Hbx), (reading_or_Ok _ _ _ Hby),
          (reading_or_Ok _ _ _ Hbz), (reading_or_Ok _ _ _ Hbt).
  apply parseFloat_Ok in Hbx as [Hbx _], Hby as [Hby _], Hbz as [Hbz _],
                         Hbt as [Hbt _].
  unfold row_key, mag_cells. cbn [existsb]. rewrite Hs, Hbx, Hby, Hbz, Hbt.
  done.
Qed.

Lemma kp_step_Ok kpMap (r : JsVal) m' :
  kp_step kpMap r = Ok m' ->
  if row_skipped r then m' = kpMap
  else existsb ToString_throws (kp_cells r) = false
       /\ m' = <[row_key r := kp_reading r]> kpMap.
Proof.
  unfold kp_step. destruct (row_skipped r); [by intros [= <-]|].
  destruct (js_substring16 _) as [key|] eqn:Hkey; [|done].
  apply js_substring16_Ok in Hkey as (s & Hs & ->).
  cbn [mbind Result_bind].
  destruct (parseFloat (js_index r 1)) as [v|] eqn:Hv; [|done].
  cbn [mbind Result_bind num_truthy float_number]. intros [= <-].
  rewrite (reading_or_Ok _ _ _ Hv). apply parseFloat_Ok in Hv as [Hv _].
  unfold row_key, kp_cells. cbn [existsb]. rewrite Hs, Hv. done.
Qed.

Lemma xray_step_Ok xrayMap (r : JsVal) m' :
  xray_step xrayMap r = Ok m' ->
  if item_skipped r then m' = xrayMap
  else ToString_throws (js_prop r "flux") = false
       /\ m' = <[item_key r := xray_reading r]> xrayMap.
Proof.
  unfold xray_step. destruct (item_skipped r); [by intros [= <-]|].
  destruct (js_substring16 _) as [key|] eqn:Hkey; [|done].
  apply js_substring16_Ok in Hkey as (s & Hs & ->).
  cbn [mbind Result_bind].
  destruct (parseFloat (js_prop r "flux")) as [v|] eqn:Hv; [|done].
  cbn [mbind Result_bind num_truthy float_number]. intros [= <-].
  rewrite (reading_or_Ok _ _ _ Hv). apply parseFloat_Ok in Hv as [Hv _].
  unfold item_key. rewrite Hs. done.
Qed.












End DefaultFacts.



(** An index cell that is no number is stored as 0, and 0 is what the
    point of its minute gets: neither the value carried from the minute
    before nor the default. *)
Lemma malformed_index_cell_reads_zero :
  exists p1 p2,
    parseNOAAData plasma_two_minutes mag_first_minute kp_malformed
                  xray_first_minute = Ok [p1; p2]
    /\ tp_kp p1 = 3%float /\ tp_kp p2 = 0%float.
Proof. do 2 eexists. repeat split; by vm_compute. Qed.

(** A cell that is an object with a member named [toString], as the JSON
    text [{"toString": 1}] gives, makes the normalizer throw, in the
    plasma payload and in the others. *)
Lemma unconvertible_cell_throws :
  let cell := VObj [(jstr "toString", VNum 1)] in
  let cells := BodyArray [VNull; VArr [VStr "2025-02-01 00:00:00"; cell]] in
  parseFloat cell
  = Throw "TypeError: Cannot convert object to primitive value"
  /\ parseNOAAData cells (BodyArray []) (BodyArray []) VNull
     = Throw "TypeError: Cannot convert object to primitive value"
  /\ parseNOAAData plasma_two_minutes cells (BodyArray []) VNull
     = Throw "TypeError: Cannot convert object to primitive value"
  /\ parseNOAAData plasma_two_minutes BodyNull (BodyArray []) VNull
     = Throw "TypeError: Cannot read properties of null (reading 'length')".
Proof. repeat split; by vm_compute. Qed.

(* ================================================================== *)
(** * More on the cursor: [advance], [getCurrent], [seekTo] *)
(* ================================================================== *)

Section CursorFacts.
Context {Num : Type} `{JsNumber Num}.
Implicit Types p : TimelinePlayer Num.

Lemma advances_add k1 k2 p :
  advances (k1 + k2) p =
  let '(rs1, p1) := advances k1 p in
  let '(rs2, p2) := advances k2 p1 in (rs1 ++ rs2, p2).
Proof.
  revert p. induction k1 as [|k1 IH]; intros p.
  - simpl. by destruct (advances k2 p).
  - change (S k1 + k2)%nat with (S (k1 + k2)). rewrite !advances_S.
    destruct (advance p) as [r p1]. rewrite IH.
    destruct (advances k1 p1) as [rs1 p2].
    by destruct (advances k2 p2).
Qed.

Lemma count_true_replicate_false k : count_true (replicate k false) = 0%nat.
Proof. induction k as [|k IH]; [done|exact IH]. Qed.

Lemma count_true_app bs1 bs2 :
  count_true (bs1 ++ bs2) = (count_true bs1 + count_true bs2)%nat.
Proof. unfold count_true. by rewrite List.filter_app, length_app. Qed.

(** X1: [advance()] is periodic.  On a timeline of [n >= 2] points, from
    any index [i] before the last point, unpaused, [n - 1] calls bring the
    cursor back to [i]; the call that leaves index [n - 2] is the only one
    that signals. *)
Theorem advance_is_periodic p (n : nat) (i : Z) :
  length (timeline p) = n ->
  (2 <= n)%nat ->
  index p = i ->
  (0 <= i <= Z.of_nat n - 2)%Z ->
  paused p = false ->
  let '(signals, p') := advances (n - 1) p in
  signals = replicate (n - 2 - Z.to_nat i) false ++ [true]
            ++ replicate (Z.to_nat i) false
  /\ count_true signals = 1%nat
  /\ index p' = i
  /\ timeline p' = timeline p
  /\ paused p' = false.
Proof.
  intros Hn Hge Hi Hrange Hp.
  replace (n - 1)%nat with (S (n - 2 - Z.to_nat i) + Z.to_nat i)%nat by lia.
  rewrite advances_add, advances_snoc.
  rewrite advances_inside
    by (done || (unfold timeline_length; rewrite Hi, Hn; lia)).
  rewrite advance_wraps;
    [|done|unfold timeline_length; simpl; rewrite Hi, Hn; lia].
  rewrite advances_inside
    by (done || (unfold timeline_length; simpl; rewrite Hn; lia)).
  cbn [index set_index timeline paused].
  split; [by rewrite <- app_assoc|].
  split.
  { rewrite !count_true_app, !count_true_replicate_false. done. }
  split; [lia|]. done.
Qed.

(** X2: an unpaused [advance()] never leaves the cursor on the last point:
    the index after it is 0 or lies before the last index, and on a
    timeline of two points or fewer every call wraps and signals. *)
Theorem advance_stays_before_last_point p :
  paused p = false ->
  (0 <= index p)%Z ->
  let '(signal, p') := advance p in
  (0 <= index p')%Z
  /\ (index p' = 0 \/ index p' < timeline_length p - 1)%Z
  /\ (signal = true <-> (timeline_length p - 1 <= index p + 1)%Z)
  /\ (signal = true -> index p' = 0%Z)
  /\ ((length (timeline p) <= 2)%nat -> signal = true)
  /\ timeline p' = timeline p.
Proof.
  intros Hp Hi.
  destruct (Z.le_gt_cases (timeline_length p - 1) (index p + 1)) as [Hw|Hin].
  - rewrite advance_wraps by done. cbn [index set_index timeline].
    split; [lia|]. split; [by left|]. split; [done|]. done.
  - rewrite advance_inside by (done || lia). cbn [index set_index timeline].
    split; [lia|]. split; [right; lia|]. split; [split; [done|lia]|].
    split; [done|]. split; [|done].
    unfold timeline_length in Hin. lia.
Qed.
End CursorFacts.

(** X1 on four points from index 1. *)
Lemma advance_is_periodic_witness :
  let '(signals, p') :=
    advances 3 (mkPlayer (flat_timeline 4 1%Q) 1 true false None "" 0%Q false) in
  signals = replicate (4 - 2 - Z.to_nat 1) false ++ [true]
            ++ replicate (Z.to_nat 1) false
  /\ count_true signals = 1%nat
  /\ index p' = 1%Z
  /\ timeline p' = flat_timeline 4 1%Q
  /\ paused p' = false.
Proof.
  pose proof (advance_is_periodic
                (mkPlayer (flat_timeline 4 1%Q) 1 true false None "" 0%Q false)
                4 1 eq_refl ltac:(lia) eq_refl ltac:(lia) eq_refl) as Hrun.
  exact Hrun.
Defined.

(** X2 on the last step of a timeline of three points. *)
Lemma advance_stays_before_last_point_witness :
  let p := mkPlayer (flat_timeline 3 1%Q) 1 true false None "" 0%Q false in
  let '(signal, p') := advance p in
  (0 <= index p')%Z
  /\ (index p' = 0 \/ index p' < timeline_length p - 1)%Z
  /\ (signal = true <-> (timeline_length p - 1 <= index p + 1)%Z)
  /\ (signal = true -> index p' = 0%Z)
  /\ ((length (timeline p) <= 2)%nat -> signal = true)
  /\ timeline p' = timeline p.
Proof.
  intros p.
  pose proof (advance_stays_before_last_point p eq_refl ltac:(by vm_compute))
    as Hrun.
  exact Hrun.
Defined.

Section GetCurrentEdges.
Context {Num : Type} `{JsNumber Num}.
Implicit Types p : TimelinePlayer Num.

(** With points and an index from 0 up, [getCurrent] reads the point at
    the cursor, clamped to the last point, and the point after it. *)
Lemma getCurrent_reads_clamped p (t : Num) :
  timeline p <> [] -> (0 <= index p)%Z ->
  exists a b,
    point_read p = Some a
    /\ timeline p
       !! Z.to_nat (Z.min (Z.min (index p) (timeline_length p - 1) + 1)
                          (timeline_length p - 1)) = Some b
    /\ ((timeline_length p - 1 <= index p)%Z -> b = a)
    /\ getCurrent t p
       = Ok (Some {| latest := interp t a b;
                     xray_values :=
                       [tp_xray a; lerp t (tp_xray a) (tp_xray b)];
                     s_currentTime := tp_time a;
                     s_progress :=
                       num_div (num_of_Z (index p))
                         (num_of_Z (Z.max 1 (timeline_length p - 1)));
                     s_isLive := isLive p;
                     totalPoints := length (timeline p);
                     s_index := index p |},
             mkPlayer (timeline p) (index p) (isLive p) (loading p)
                      (error p) (tp_time a)
                      (num_div (num_of_Z (index p))
                         (num_of_Z (Z.max 1 (timeline_length p - 1))))
                      (paused p)).
Proof.
  intros Hne Hi.
  assert (Hlen : (0 < timeline_length p)%Z).
  { unfold timeline_length. destruct (timeline p); [done|]. simpl. lia. }
  set (i := Z.min (index p) (timeline_length p - 1)).
  set (j := Z.min (i + 1) (timeline_length p - 1)).
  destruct (lookup_lt_is_Some_2 (timeline p) (Z.to_nat i)) as [a Ha];
    [unfold timeline_length in *; lia|].
  destruct (lookup_lt_is_Some_2 (timeline p) (Z.to_nat j)) as [b Hb];
    [unfold timeline_length in *; lia|].
  exists a, b. split; [exact Ha|]. split; [exact Hb|]. split.
  { intros Hend. assert (j = i) as Hji by lia.
    rewrite Hji, Ha in Hb. by injection Hb. }
  unfold getCurrent.
  destruct (Z.eqb_spec (timeline_length p) 0) as [Hz|_]; [lia|].
  cbv zeta. fold i. fold j.
  rewrite (point_at_lookup _ i a) by (done || lia).
  cbn [mbind Result_bind].
  rewrite (point_at_lookup _ j b) by (done || lia).
  reflexivity.
Qed.

(** X3: [getCurrent] at the edges.  On an empty timeline it returns null
    and stores nothing.  On a timeline with points, for every index from 0
    up, past the end included, it returns a sample and reads no point past
    the last: it interpolates from the point at the cursor, or from the
    last point when the cursor is past it, to the point after, or to the
    same point again at the end.  It stores the time of the point read and
    the progress, and nothing else.  Only at a negative index does it
    throw. *)
Theorem getCurrent_at_the_edges p (t : Num) :
  (timeline p = [] -> getCurrent t p = Ok (None, p))
  /\ (timeline p <> [] -> (0 <= index p)%Z ->
      exists a b,
        point_read p = Some a
        /\ timeline p
           !! Z.to_nat (Z.min (Z.min (index p) (timeline_length p - 1) + 1)
                              (timeline_length p - 1)) = Some b
        /\ ((timeline_length p - 1 <= index p)%Z -> b = a)
        /\ getCurrent t p
           = Ok (Some {| latest := interp t a b;
                         xray_values :=
                           [tp_xray a; lerp t (tp_xray a) (tp_xray b)];
                         s_currentTime := tp_time a;
                         s_progress :=
                           num_div (num_of_Z (index p))
                             (num_of_Z (Z.max 1 (timeline_length p - 1)));
                         s_isLive := isLive p;
                         totalPoints := length (timeline p);
                         s_index := index p |},
                 mkPlayer (timeline p) (index p) (isLive p) (loading p)
                          (error p) (tp_time a)
                          (num_div (num_of_Z (index p))
                             (num_of_Z (Z.max 1 (timeline_length p - 1))))
                          (paused p)))
  /\ (timeline p <> [] -> (index p < 0)%Z ->
      exists message, getCurrent t p = Throw message).
Proof.
  split; [|split].
  - intros Hnil. unfold getCurrent, timeline_length. by rewrite Hnil.
  - apply getCurrent_reads_clamped.
  - intros Hne Hneg.
    assert (Hlen : (0 < timeline_length p)%Z).
    { unfold timeline_length. destruct (timeline p); [done|]. simpl. lia. }
    unfold getCurrent.
    destruct (Z.eqb_spec (timeline_length p) 0) as [Hz|_]; [lia|].
    cbv zeta. rewrite (Z.min_l (index p)) by lia.
    unfold point_at at 2, at_index.
    destruct (Z.ltb_spec (index p) 0) as [_|Hge]; [|lia].
    by eexists.
Qed.
End GetCurrentEdges.

(** X3 with the cursor far past the end of two points. *)
Lemma getCurrent_at_the_edges_witness :
  let p := mkPlayer [north_point; south_point] 7 true false None "" 0%float
                    false in
  exists a b,
    point_read p = Some a
    /\ timeline p !! Z.to_nat (Z.min (Z.min (index p) (timeline_length p - 1) + 1)
                                     (timeline_length p - 1)) = Some b
    /\ b = a
    /\ getCurrent 1%float p
       = Ok (Some {| latest := interp 1%float a b;
                     xray_values :=
                       [tp_xray a; lerp 1%float (tp_xray a) (tp_xray b)];
                     s_currentTime := tp_time a;
                     s_progress :=
                       num_div (num_of_Z (index p))
                         (num_of_Z (Z.max 1 (timeline_length p - 1)));
                     s_isLive := isLive p;
                     totalPoints := length (timeline p);
                     s_index := index p |},
             mkPlayer (timeline p) (index p) (isLive p) (loading p)
                      (error p) (tp_time a)
                      (num_div (num_of_Z (index p))
                         (num_of_Z (Z.max 1 (timeline_length p - 1))))
                      (paused p)).
Proof.
  intros p.
  destruct (getCurrent_at_the_edges p 1%float) as (_ & Hin & _).
  destruct (Hin ltac:(done) ltac:(by vm_compute)) as (a & b & Ha & Hb & Hend & Hg).
  exists a, b. split; [exact Ha|]. split; [exact Hb|].
  split; [apply Hend; by vm_compute|exact Hg].
Defined.

Section SeekFacts.
Local Open Scope Q_scope.
Implicit Types p : TimelinePlayer Q.

Lemma Q_ltb_lt (x y : Q) : x < y -> Q_ltb x y = true.
Proof.
  intros Hlt. unfold Q_ltb. destruct (Qle_bool y x) eqn:Hle; [|done].
  apply Qle_bool_iff in Hle. lra.
Qed.

(** The fraction after the two clamps. *)
Lemma clamp_unit (q : Q) :
  0 <= Q_max 0 (Q_min 1 q) <= 1
  /\ (q <= 0 -> Q_max 0 (Q_min 1 q) == 0)
  /\ (1 <= q -> Q_max 0 (Q_min 1 q) == 1)
  /\ (0 <= q <= 1 -> Q_max 0 (Q_min 1 q) == q).
Proof.
  unfold Q_max, Q_min.
  destruct (Qle_bool 1 q) eqn:H1.
  - apply Qle_bool_iff in H1.
    destruct (Qle_bool 0 1) eqn:H0; [|by vm_compute in H0].
    repeat split; intros; lra.
  - assert (q < 1).
    { destruct (Qlt_le_dec q 1) as [Hlt|Hge]; [done|].
      apply Qle_bool_iff in Hge. congruence. }
    destruct (Qle_bool 0 q) eqn:H0.
    + apply Qle_bool_iff in H0. repeat split; intros; lra.
    + assert (q < 0).
      { destruct (Qlt_le_dec q 0) as [Hlt|Hge]; [done|].
        apply Qle_bool_iff in Hge. congruence. }
      repeat split; intros; lra.
Qed.

Lemma seekTo_exact (q : Q) p :
  seekTo q p = Some (set_index p (seek_index q (length (timeline p)))).
Proof.
  unfold seekTo.
  cbn [num_max num_min num_lit num_ltb num_mul num_floor Q_number].
  rewrite Q_ltb_lt; [done|].
  pose proof (clamp_unit q) as [Hc _]. lra.
Qed.

Lemma seek_index_range (q : Q) (n : nat) :
  (1 <= n)%nat -> (0 <= seek_index q n <= Z.of_nat n - 1)%Z.
Proof.
  intros Hn. unfold seek_index.
  pose proof (clamp_unit q) as [[Hc0 Hc1] _].
  set (c := Q_max 0 (Q_min 1 q)) in *.
  assert (Hm : 0 <= inject_Z (Z.of_nat n - 1))
    by (rewrite <- (Zle_Qle 0); lia).
  split.
  - rewrite <- (Qfloor_Z 0). apply Qfloor_resp_le. change (inject_Z 0) with 0.
    nra.
  - rewrite <- (Qfloor_Z (Z.of_nat n - 1)) at 2. apply Qfloor_resp_le. nra.
Qed.

Lemma seek_index_monotone (q1 q2 : Q) (n : nat) :
  (1 <= n)%nat -> q1 <= q2 -> (seek_index q1 n <= seek_index q2 n)%Z.
Proof.
  intros Hn Hq. unfold seek_index. apply Qfloor_resp_le.
  assert (Hm : 0 <= inject_Z (Z.of_nat n - 1))
    by (rewrite <- (Zle_Qle 0); lia).
  assert (Hc : Q_max 0 (Q_min 1 q1) <= Q_max 0 (Q_min 1 q2)).
  { apply Q_max_lub; [apply Q_max_le_l|].
    eapply Qle_trans; [|apply Q_max_le_r].
    apply Q_min_glb; [apply Q_min_le_l|].
    eapply Qle_trans; [|exact Hq].
    unfold Q_min. destruct (Qle_bool 1 q1) eqn:H1; [|lra].
    by apply Qle_bool_iff in H1. }
  nra.
Qed.

(** X4: [seekTo] in exact arithmetic.  On a timeline with points it puts
    the cursor on a point, whatever the fraction: fractions of 0 or less
    give the first point, fractions of 1 or more the last, and the index
    grows with the fraction.  The timeline and the pause are untouched. *)
Theorem seekTo_lands_on_a_point p (q q' : Q) :
  timeline p <> [] ->
  q <= q' ->
  exists p1 p2,
    seekTo q p = Some p1 /\ seekTo q' p = Some p2
    /\ (exists a, cursor_on p1 a)
    /\ (0 <= index p1 <= index p2)%Z
    /\ (index p2 <= timeline_length p - 1)%Z
    /\ (q <= 0 -> index p1 = 0%Z)
    /\ (1 <= q -> index p1 = (timeline_length p - 1)%Z)
    /\ timeline p1 = timeline p /\ paused p1 = paused p.
Proof.
  intros Hne Hq. rewrite !seekTo_exact. do 2 eexists.
  split; [reflexivity|]. split; [reflexivity|].
  cbn [index set_index timeline paused].
  assert (Hn : (1 <= length (timeline p))%nat).
  { destruct (timeline p); [done|]. simpl. lia. }
  pose proof (seek_index_range q _ Hn) as Hr1.
  pose proof (seek_index_range q' _ Hn) as Hr2.
  pose proof (seek_index_monotone q q' _ Hn Hq) as Hmono.
  split.
  { destruct (lookup_lt_is_Some_2 (timeline p)
                (Z.to_nat (seek_index q (length (timeline p))))) as [a Ha];
      [lia|].
    exists a. split; [cbn [index set_index]; lia|exact Ha]. }
  split; [lia|]. split; [unfold timeline_length; lia|].
  pose proof (clamp_unit q) as (_ & H0 & H1 & _).
  split; [|split; [|done]].
  - intros Hle. unfold seek_index.
    rewrite (Qfloor_comp _ 0); [done|]. rewrite (H0 Hle). ring.
  - intros Hge. unfold seek_index, timeline_length.
    rewrite (Qfloor_comp _ (inject_Z (Z.of_nat (length (timeline p)) - 1))).
    + apply Qfloor_Z.
    + rewrite (H1 Hge). ring.
Qed.

(** X5: the progress [getCurrent] reports, in exact arithmetic, with the
    cursor on a point: it lies in [0, 1], is 0 at the first point, and on a
    timeline of two points or more it is [index / (length - 1)], hence 1 at
    the last point. *)
Theorem progress_is_a_fraction p (a : TelemetryPoint Q) (t : Q) :
  cursor_on p a ->
  exists smp p',
    getCurrent t p = Ok (Some smp, p')
    /\ progress p' = s_progress smp
    /\ 0 <= s_progress smp <= 1
    /\ (index p = 0%Z -> s_progress smp == 0)
    /\ ((2 <= length (timeline p))%nat ->
        s_progress smp
        == inject_Z (index p) / inject_Z (timeline_length p - 1)
        /\ (index p = (timeline_length p - 1)%Z -> s_progress smp == 1)).
Proof.
  intros [Hi Ha]. pose proof (lookup_lt_Some _ _ _ Ha) as Hlt.
  destruct (getCurrent_reads_clamped p t) as (a' & b & _ & _ & _ & Hg);
    [by intros Hnil; rewrite Hnil in Ha|done|].
  rewrite Hg. do 2 eexists. split; [reflexivity|].
  cbn [progress s_progress num_div Q_number]. unfold num_of_Z.
  cbn [num_lit Q_number].
  set (m := Z.max 1 (timeline_length p - 1)).
  assert (Hm : (1 <= m)%Z) by lia.
  assert (Him : (index p <= m)%Z) by (unfold m, timeline_length; lia).
  assert (HmQ : 0 < inject_Z m) by (rewrite <- (Zlt_Qlt 0); lia).
  assert (HiQ : 0 <= inject_Z (index p)) by (rewrite <- (Zle_Qle 0); lia).
  assert (HimQ : inject_Z (index p) <= inject_Z m) by (by rewrite <- Zle_Qle).
  split; [reflexivity|]. split.
  { split.
    - apply Qle_shift_div_l; [done|]. lra.
    - apply Qle_shift_div_r; [done|]. lra. }
  split.
  { intros ->. unfold Qdiv. change (inject_Z 0) with 0. ring. }
  intros Hn. assert (m = timeline_length p - 1)%Z as ->
      by (unfold m, timeline_length; lia).
  split; [reflexivity|].
  intros ->. field. lra.
Qed.
End SeekFacts.

(** X4 on the two sample points, for the fractions 0.3 and 2. *)
Lemma seekTo_lands_on_a_point_witness :
  exists p1 p2,
    seekTo 0.3%Q turning_player_Q = Some p1
    /\ seekTo 2%Q turning_player_Q = Some p2
    /\ (exists a, cursor_on p1 a)
    /\ (0 <= index p1 <= index p2)%Z
    /\ (index p2 <= timeline_length turning_player_Q - 1)%Z
    /\ (0.3 <= 0 -> index p1 = 0%Z)%Q
    /\ (1 <= 0.3 -> index p1 = (timeline_length turning_player_Q - 1)%Z)%Q
    /\ timeline p1 = timeline turning_player_Q
    /\ paused p1 = paused turning_player_Q.
Proof.
  pose proof (seekTo_lands_on_a_point turning_player_Q 0.3%Q 2%Q
                ltac:(done) ltac:(lra)) as Hrun.
  exact Hrun.
Defined.

(** X5 on the two sample points. *)
Lemma progress_is_a_fraction_witness :
  exists smp p',
    getCurrent 0.5%Q turning_player_Q = Ok (Some smp, p')
    /\ progress p' = s_progress smp
    /\ (0 <= s_progress smp <= 1)%Q
    /\ (index turning_player_Q = 0%Z -> s_progress smp == 0)%Q
    /\ ((2 <= length (timeline turning_player_Q))%nat ->
        (s_progress smp
         == inject_Z (index turning_player_Q)
            / inject_Z (timeline_length turning_player_Q - 1))%Q
        /\ (index turning_player_Q = (timeline_length turning_player_Q - 1)%Z
            -> s_progress smp == 1)%Q).
Proof.
  assert (Hc : cursor_on turning_player_Q north_point_Q)
    by (split; [by vm_compute|reflexivity]).
  pose proof (progress_is_a_fraction turning_player_Q north_point_Q 0.5%Q Hc)
    as Hrun.
  exact Hrun.
Defined.

(* ================================================================== *)
(** * More on [fetchLive] *)
(* ================================================================== *)

Section FetchLiveMore.
Variable host : Host float.

(** X6: the live path of [fetchLive].  When the plasma and mag responses
    are ok, the four bodies are JSON and the normalizer makes 100 points or
    more of them, the call returns [true] with these points installed,
    [isLive] set, [error] null, the index at 0 and [loading] cleared, and
    draws no random number; the [ok] flags of the kp and xray responses are
    never read. *)
Theorem fetchLive_installs_the_live_timeline
    (plasma mag kp : Body) (xray : JsVal) (kpOk xrayOk : bool) (first : nat)
    (tl : list (TelemetryPoint float)) (p : TimelinePlayer float)
    (draws : nat) :
  parseNOAAData plasma mag kp xray = Ok tl ->
  (100 <= length tl)%nat ->
  fetchLive host
    (FetchResolved (mkResponse true (Ok plasma)) (mkResponse true (Ok mag))
                   (mkResponse kpOk (Ok kp)) (mkResponse xrayOk (Ok xray))
                   first)
    p draws
  = (true,
     mkPlayer tl 0 true false None (currentTime p) (progress p) (paused p),
     draws).
Proof.
  intros Hparse Hlen. unfold fetchLive, fetchLive_settle.
  rewrite acquire_parsed, Hparse. cbn [mbind Result_bind].
  destruct (Nat.ltb_spec (length tl) 100) as [Hlt|_]; [lia|]. reflexivity.
Qed.

End FetchLiveMore.

(** X6 on a hundred minutes of plasma. *)
Lemma fetchLive_installs_the_live_timeline_witness :
  fetchLive still_host
    (FetchResolved (mkResponse true (Ok plasma_hundred))
                   (mkResponse true (Ok mag_first_minute))
                   (mkResponse false (Ok kp_first_minute))
                   (mkResponse false (Ok xray_first_minute)) 0)
    newPlayer 0
  = (true,
     mkPlayer points_hundred 0 true false None
              (currentTime (newPlayer (Num := float)))
              (progress (newPlayer (Num := float)))
              (paused (newPlayer (Num := float))),
     0%nat).
Proof.
  assert (Hparse : parseNOAAData plasma_hundred mag_first_minute
                     kp_first_minute xray_first_minute = Ok points_hundred)
    by (by vm_compute).
  assert (Hlen : (100 <= length points_hundred)%nat)
    by (vm_compute; lia).
  pose proof (fetchLive_installs_the_live_timeline still_host _ _ _ _
                false false 0 _ newPlayer 0 Hparse Hlen) as Hrun.
  exact Hrun.
Defined.

(* ================================================================== *)
(** * More on the normalizer *)
(* ================================================================== *)

Section NormalizerMore.
Local Open Scope float_scope.
Implicit Types (magMap : gmap jstring MagReading)
               (kpMap xrayMap : gmap jstring float).

Lemma foldM_app {A B : Type} (f : B -> A -> Result B) (acc : B)
    (l1 l2 : list A) :
  foldM f acc (l1 ++ l2) = foldM f acc l1 ≫= fun acc' => foldM f acc' l2.
Proof.
  revert acc. induction l1 as [|x l1 IH]; intros acc; [done|].
  cbn [app foldM]. destruct (f acc x) as [acc'|]; [|done].
  cbn [mbind Result_bind]. apply IH.
Qed.

(** A loop whose steps throw at the items [P] marks, whatever the
    accumulator, throws exactly when [P] marks an item. *)
Lemma foldM_throws {A B : Type} (P : A -> bool) (f : B -> A -> Result B)
    (l : list A) (acc : B) :
  (forall b x, if P x then exists message, f b x = Throw message
               else exists b', f b x = Ok b') ->
  if existsb P l then exists message, foldM f acc l = Throw message
  else exists acc', foldM f acc l = Ok acc'.
Proof.
  intros Hstep. revert acc. induction l as [|x l IH]; intros acc.
  - by exists acc.
  - cbn [existsb foldM]. specialize (Hstep acc x).
    destruct (P x).
    + destruct Hstep as [message ->]. by exists message.
    + destruct Hstep as [b' ->]. cbn [orb mbind Result_bind]. apply IH.
Qed.

Lemma js_substring16_cases (v : JsVal) :
  if is_string v then exists key, js_substring16 v = Ok key
  else exists message, js_substring16 v = Throw message.
Proof. destruct v; cbn; by eexists. Qed.

Lemma parseFloat_cases (cell : JsVal) :
  if ToString_throws cell then exists message, parseFloat cell = Throw message
  else exists x, parseFloat cell = Ok x.
Proof. unfold parseFloat. destruct (ToString_throws cell); by eexists. Qed.

Lemma mag_step_throws magMap r :
  if bad_row mag_cells r then exists message, mag_step magMap r = Throw message
  else exists m', mag_step magMap r = Ok m'.
Proof.
  unfold bad_row, mag_step, mag_cells.
  destruct (row_skipped r); [by eexists|].
  pose proof (js_substring16_cases (js_index r 0)) as Hs.
  destruct (is_string _); cbn [negb andb orb existsb];
    [destruct Hs as [key ->]|destruct Hs as [message ->]; by eexists].
  cbn [mbind Result_bind].
  pose proof (parseFloat_cases (js_index r 1)) as H1.
  destruct (ToString_throws (js_index r 1)); cbn [orb];
    [destruct H1 as [message ->]; by eexists|destruct H1 as [bx ->]].
  cbn [mbind Result_bind].
  pose proof (parseFloat_cases (js_index r 2)) as H2.
  destruct (ToString_throws (js_index r 2)); cbn [orb];
    [destruct H2 as [message ->]; by eexists|destruct H2 as [by_ ->]].
  cbn [mbind Result_bind].
  pose proof (parseFloat_cases (js_index r 3)) as H3.
  destruct (ToString_throws (js_index r 3)); cbn [orb];
    [destruct H3 as [message ->]; by eexists|destruct H3 as [bz ->]].
  cbn [mbind Result_bind].
  pose proof (parseFloat_cases (js_index r 4)) as H4.
  destruct (ToString_throws (js_index r 4)); cbn [orb];
    [destruct H4 as [message ->]; by eexists|destruct H4 as [bt ->]].
  by eexists.
Qed.

Lemma kp_step_throws kpMap r :
  if bad_row kp_cells r then exists message, kp_step kpMap r = Throw message
  else exists m', kp_step kpMap r = Ok m'.
Proof.
  unfold bad_row, kp_step, kp_cells.
  destruct (row_skipped r); [by eexists|].
  pose proof (js_substring16_cases (js_index r 0)) as Hs.
  destruct (is_string _); cbn [negb andb orb existsb];
    [destruct Hs as [key ->]|destruct Hs as [message ->]; by eexists].
  cbn [mbind Result_bind].
  pose proof (parseFloat_cases (js_index r 1)) as H1.
  destruct (ToString_throws (js_index r 1)); cbn [orb];
    [destruct H1 as [message ->]; by eexists|destruct H1 as [v ->]].
  by eexists.
Qed.

Lemma xray_step_throws xrayMap r :
  if bad_item r then exists message, xray_step xrayMap r = Throw message
  else exists m', xray_step xrayMap r = Ok m'.
Proof.
  unfold bad_item, xray_step.
  destruct (item_skipped r); [by eexists|].
  pose proof (js_substring16_cases (js_prop r "time_tag")) as Hs.
  destruct (is_string _); cbn [negb andb orb];
    [destruct Hs as [key ->]|destruct Hs as [message ->]; by eexists].
  cbn [mbind Result_bind].
  pose proof (parseFloat_cases (js_prop r "flux")) as H1.
  destruct (ToString_throws (js_prop r "flux"));
    [destruct H1 as [message ->]; by eexists|destruct H1 as [v ->]].
  by eexists.
Qed.

Lemma plasma_loop_throws magMap kpMap xrayMap lastKp lastXray rows :
  if existsb (bad_row plasma_cells) rows
  then exists message,
         plasma_loop magMap kpMap xrayMap lastKp lastXray rows = Throw message
  else exists pts,
         plasma_loop magMap kpMap xrayMap lastKp lastXray rows = Ok pts.
Proof.
  revert lastKp lastXray. induction rows as [|r rows IH]; intros.
  - by exists [].
  - cbn [existsb plasma_loop]. unfold bad_row at 1, plasma_cells at 1.
    destruct (row_skipped r); cbn [negb andb orb]; [apply IH|].
    pose proof (js_substring16_cases (js_index r 0)) as Hs.
    destruct (is_string _); cbn [negb orb existsb];
      [destruct Hs as [key ->]|destruct Hs as [message ->]; by eexists].
    cbn [mbind Result_bind].
    pose proof (parseFloat_cases (js_index r 2)) as H2.
    destruct (ToString_throws (js_index r 2)); cbn [orb];
      [destruct H2 as [message ->]; by eexists|destruct H2 as [speed ->]].
    cbn [mbind Result_bind].
    pose proof (parseFloat_cases (js_index r 1)) as H1.
    destruct (ToString_throws (js_index r 1)); cbn [orb];
      [destruct H1 as [message ->]; by eexists|destruct H1 as [density ->]].
    cbn [mbind Result_bind].
    pose proof (parseFloat_cases (js_index r 3)) as H3.
    destruct (ToString_throws (js_index r 3)); cbn [orb];
      [destruct H3 as [message ->]; by eexists|destruct H3 as [temp ->]].
    cbn [mbind Result_bind].
    specialize (IH (default lastKp (kpMap !! key))
                   (default lastXray (xrayMap !! key))).
    destruct (existsb (bad_row plasma_cells) rows).
    + destruct IH as [message ->]. by exists message.
    + destruct IH as [pts ->]. by eexists.
Qed.

(** A loop over the rows of a body throws where the [length] of the body
    cannot be read or at a bad row, and nowhere else. *)
Lemma body_loop_throws {B : Type} (cells : JsVal -> list JsVal)
    (step : B -> JsVal -> Result B) (acc : B) (body : Body) :
  (forall b r, if bad_row cells r then exists message, step b r = Throw message
               else exists b', step b r = Ok b') ->
  if null_body body || existsb (bad_row cells) (data_rows body)
  then exists message,
         (rows ← rows_after_header body; foldM step acc rows) = Throw message
  else exists acc',
         (rows ← rows_after_header body; foldM step acc rows) = Ok acc'.
Proof.
  intros Hstep. unfold data_rows.
  destruct body as [|rows|s|]; cbn [null_body orb rows_after_header];
    cbn [mbind Result_bind]; [by eexists|..|by eexists];
    by apply foldM_throws.
Qed.

(** X8: [parseNOAAData] throws exactly when the [plasma], [mag] or [kp]
    payload is null, or, in one of the four payloads, a row that is not
    passed over has a time tag that is not a string (a number, [true], an
    array or an object, which have no [substring]) or a cell, among those
    the loop reads, that does not convert to a string (an object with a
    member named [toString], or an array that holds one).  Cells that are
    no numbers, rows that are null or too short, a flux payload that is no
    array never make it throw. *)
Theorem parseNOAAData_throws_exactly_on_unreadable_input
    (plasma mag kp : Body) (xray : JsVal) :
  if null_body mag || existsb (bad_row mag_cells) (data_rows mag)
     || (null_body kp || existsb (bad_row kp_cells) (data_rows kp))
     || existsb bad_item (xray_items xray)
     || (null_body plasma
         || existsb (bad_row plasma_cells) (data_rows plasma))
  then exists message, parseNOAAData plasma mag kp xray = Throw message
  else exists pts, parseNOAAData plasma mag kp xray = Ok pts.
Proof.
  unfold parseNOAAData, build_magMap, build_kpMap.
  pose proof (body_loop_throws mag_cells mag_step ∅ mag mag_step_throws)
    as Hmag.
  destruct (null_body mag || existsb _ (data_rows mag)).
  { destruct Hmag as [message ->]. by exists message. }
  destruct Hmag as [magMap ->]. cbn [orb mbind Result_bind].
  pose proof (body_loop_throws kp_cells kp_step ∅ kp kp_step_throws)
    as Hkp.
  destruct (null_body kp || existsb _ (data_rows kp)).
  { destruct Hkp as [message ->]. by exists message. }
  destruct Hkp as [kpMap ->]. cbn [orb mbind Result_bind].
  assert (Hx : if existsb bad_item (xray_items xray)
               then exists message, build_xrayMap xray = Throw message
               else exists m, build_xrayMap xray = Ok m).
  { unfold build_xrayMap, xray_items.
    destruct xray; try (by exists ∅).
    apply foldM_throws, xray_step_throws. }
  destruct (existsb bad_item (xray_items xray)).
  { destruct Hx as [message ->]. by exists message. }
  destruct Hx as [xrayMap ->]. cbn [orb mbind Result_bind].
  unfold data_rows.
  destruct plasma as [|rows|s|]; cbn [null_body orb rows_after_header];
    cbn [mbind Result_bind]; [by eexists|..|by eexists];
    apply plasma_loop_throws.
Qed.
End NormalizerMore.

Section NormalizerJoin.
Local Open Scope float_scope.
Implicit Types (magMap : gmap jstring MagReading)
               (kpMap xrayMap : gmap jstring float).

(** The loops that fill the maps: a later row replaces an earlier one of
    the same key. *)
Lemma foldM_last_wins {A : Type}
    (step : gmap jstring A -> JsVal -> Result (gmap jstring A))
    (skip : JsVal -> bool) (key_of : JsVal -> jstring)
    (reading : JsVal -> A)
    (rows : list JsVal) (m0 m : gmap jstring A) (key : jstring) :
  (forall b r b', step b r = Ok b' ->
                  if skip r then b' = b
                  else b' = <[key_of r := reading r]> b) ->
  foldM step m0 rows = Ok m ->
  m !! key
  = match last_under key_of reading key
                     (List.filter (fun r => negb (skip r)) rows) with
    | Some v => Some v
    | None => m0 !! key
    end.
Proof.
  intros Hstep. revert m0. induction rows as [|r rows IH]; intros m0.
  - by intros [= <-].
  - cbn [foldM List.filter].
    destruct (step m0 r) as [m1|] eqn:Hm1; [|done].
    cbn [mbind Result_bind]. apply Hstep in Hm1.
    destruct (skip r); cbn [negb]; [subst m1; apply IH|].
    subst m1. intros Hm%IH. rewrite Hm.
    unfold last_under. rewrite filter_cons.
    destruct (decide (key_of r = key)) as [<-|Hne].
    + rewrite last_cons. destruct (last _); cbn; [done|].
      by rewrite lookup_insert_eq.
    + destruct (last _); cbn; [done|]. by rewrite lookup_insert_ne.
Qed.

Lemma build_magMap_last_wins mag magMap key :
  build_magMap mag = Ok magMap ->
  magMap !! key
  = last_under row_key mag_reading key (emitting (data_rows mag)).
Proof.
  intros Hm%build_magMap_Ok.
  pose proof (foldM_last_wins mag_step row_skipped row_key mag_reading
                (data_rows mag) ∅ magMap key) as Hl.
  rewrite Hl; [|..|done].
  - change (List.filter _ (data_rows mag)) with (emitting (data_rows mag)).
    by destruct (last_under _ _ _ _).
  - intros b r b' Hstep%mag_step_Ok.
    destruct (row_skipped r); [done|]. by destruct Hstep.
Qed.

Lemma build_kpMap_last_wins kp kpMap key :
  build_kpMap kp = Ok kpMap ->
  kpMap !! key = last_under row_key kp_reading key (emitting (data_rows kp)).
Proof.
  intros Hm%build_kpMap_Ok.
  pose proof (foldM_last_wins kp_step row_skipped row_key kp_reading
                (data_rows kp) ∅ kpMap key) as Hl.
  rewrite Hl; [|..|done].
  - change (List.filter _ (data_rows kp)) with (emitting (data_rows kp)).
    by destruct (last_under _ _ _ _).
  - intros b r b' Hstep%kp_step_Ok.
    destruct (row_skipped r); [done|]. by destruct Hstep.
Qed.

Lemma build_xrayMap_last_wins xray xrayMap key :
  build_xrayMap xray = Ok xrayMap ->
  xrayMap !! key
  = last_under item_key xray_reading key (kept_items (xray_items xray)).
Proof.
  unfold build_xrayMap, xray_items.
  destruct xray as [| | | | |items|]; try by intros [= <-].
  intros Hm.
  pose proof (foldM_last_wins xray_step item_skipped item_key xray_reading
                items ∅ xrayMap key) as Hl.
  rewrite Hl; [|..|done].
  - change (List.filter _ items) with (kept_items items).
    by destruct (last_under _ _ _ _).
  - intros b r b' Hstep%xray_step_Ok.
    destruct (item_skipped r); [done|]. by destruct Hstep.
Qed.

(** What the loop over [plasma] reads from the maps. *)
Lemma emit_reads_maps magMap kpMap xrayMap lastKp lastXray rows :
  Forall2 (fun r pt =>
             mkMag (tp_bx pt) (tp_by pt) (tp_bz pt) (tp_bt pt)
             = default (mkMag 0 0 0 5) (magMap !! row_key r)
             /\ (forall v, kpMap !! row_key r = Some v -> tp_kp pt = v)
             /\ (forall v, xrayMap !! row_key r = Some v -> tp_xray pt = v))
          rows (emit magMap kpMap xrayMap lastKp lastXray rows).
Proof.
  revert lastKp lastXray. induction rows as [|r rows IH]; intros.
  - constructor.
  - cbn [emit]. constructor; [|apply IH].
    cbn. unfold mag_lookup. split; [by destruct (default _ _)|].
    split; intros v ->; done.
Qed.

(** Without a reading under any of the keys, a series keeps the value it
    has on entry. *)
Lemma emit_keeps_defaults magMap kpMap xrayMap lastKp lastXray rows :
  Forall (fun r => kpMap !! row_key r = None) rows ->
  Forall (fun pt => tp_kp pt = lastKp)
         (emit magMap kpMap xrayMap lastKp lastXray rows).
Proof.
  revert lastKp lastXray. induction rows as [|r rows IH]; intros ?? Hrows.
  - constructor.
  - apply List.Forall_cons_iff in Hrows as [Hr Hrows].
    cbn [emit]. rewrite Hr. constructor; [done|]. by apply IH.
Qed.

Lemma emit_keeps_flux_default magMap kpMap xrayMap lastKp lastXray rows :
  Forall (fun r => xrayMap !! row_key r = None) rows ->
  Forall (fun pt => tp_xray pt = lastXray)
         (emit magMap kpMap xrayMap lastKp lastXray rows).
Proof.
  revert lastKp lastXray. induction rows as [|r rows IH]; intros ?? Hrows.
  - constructor.
  - apply List.Forall_cons_iff in Hrows as [Hr Hrows].
    cbn [emit]. rewrite Hr. constructor; [done|]. by apply IH.
Qed.

Lemma reading_passed_on (cell : JsVal) (d : float) :
  cell_passed_on cell (reading_or cell d).
Proof.
  intros x [_ ->]%parseFloat_Ok Htruthy. unfold reading_or.
  by rewrite Htruthy.
Qed.

Lemma emit_passes_on magMap kpMap xrayMap lastKp lastXray rows :
  Forall2 plasma_passed_on rows
          (emit magMap kpMap xrayMap lastKp lastXray rows).
Proof.
  revert lastKp lastXray. induction rows as [|r rows IH]; intros.
  - constructor.
  - cbn [emit]. constructor; [|apply IH].
    unfold plasma_passed_on, time_tag_of. cbn.
    split; [done|]. repeat split; apply reading_passed_on.
Qed.

(** X9: the join of [parseNOAAData].  The points answer, one for one and
    in order, to the rows of [plasma] that are not passed over; each
    point has the magnetic fields of the LAST row of [mag] filed under its
    minute (the first 16 code units of the time tag), or the fixed object
    when there is none, and its index and flux are the last readings filed
    under its minute when there is one: in the maps a later row replaces
    an earlier one of the same minute. *)
Theorem parseNOAAData_joins_last_reading_of_the_minute
    (plasma mag kp : Body) (xray : JsVal)
    (pts : list (TelemetryPoint float)) :
  parseNOAAData plasma mag kp xray = Ok pts ->
  Forall2 (joined mag kp xray) (emitting (data_rows plasma)) pts.
Proof.
  intros (magMap & kpMap & xrayMap & Hmag & Hkp & Hx & _ & ->)%parseNOAAData_Ok.
  eapply Forall2_impl; [apply emit_reads_maps|].
  intros r pt (Hm & Hk & Hf). unfold joined.
  rewrite <- (build_magMap_last_wins mag magMap _ Hmag).
  split; [done|]. split; intros v Hv.
  - apply Hk. by rewrite (build_kpMap_last_wins kp kpMap _ Hkp).
  - apply Hf. by rewrite (build_xrayMap_last_wins xray xrayMap _ Hx).
Qed.

(** X10: the plasma fields of [parseNOAAData].  There is one point for
    each row of [plasma] after the header that is not passed over, in the
    order of the rows, hence at most [plasma.length - 1] points; the point
    has the time tag of its row as it is, and each of speed, density and
    temperature is the number [parseFloat] reads in the cell whenever that
    number is neither 0 nor NaN. *)
Theorem parseNOAAData_one_point_per_row_in_order
    (plasma mag kp : Body) (xray : JsVal)
    (pts : list (TelemetryPoint float)) :
  parseNOAAData plasma mag kp xray = Ok pts ->
  Forall2 plasma_passed_on (emitting (data_rows plasma)) pts
  /\ map tp_time pts = map time_tag_of (emitting (data_rows plasma))
  /\ (length pts <= length (data_rows plasma))%nat
  /\ (forall rows, plasma = BodyArray rows ->
                   (length pts <= length rows - 1)%nat).
Proof.
  intros (magMap & kpMap & xrayMap & _ & _ & _ & _ & ->)%parseNOAAData_Ok.
  pose proof (emit_passes_on magMap kpMap xrayMap 2 1e-7
                (emitting (data_rows plasma))) as Hpass.
  assert (Hlen : (length (emit magMap kpMap xrayMap 2 1e-7
                            (emitting (data_rows plasma)))
                  <= length (data_rows plasma))%nat).
  { rewrite emit_length. unfold emitting. apply List.filter_length_le. }
  split; [done|]. split; [|split; [exact Hlen|]].
  - clear Hlen. induction Hpass as [|r pt rows pts [Ht _] _ IH]; [done|].
    cbn [map]. by rewrite Ht, IH.
  - intros rows ->. etrans; [exact Hlen|].
    unfold data_rows. cbn [rows_after_header].
    destruct rows; cbn [tail length]; lia.
Qed.

(** X11: a series without a reading for the minutes of the plasma rows.
    When no row of [kp] is filed under the minute of any plasma row (the
    series is empty, or stamped at other minutes), every point has the
    index 2; the same for the flux and 1e-7, in particular when [xray] is
    no array; and for the magnetic fields and [bx=0, by=0, bz=0, bt=5]. *)
Theorem parseNOAAData_defaults_without_readings
    (plasma mag kp : Body) (xray : JsVal)
    (pts : list (TelemetryPoint float)) :
  parseNOAAData plasma mag kp xray = Ok pts ->
  (no_reading_for row_key mag_reading (emitting (data_rows mag))
                  (emitting (data_rows plasma)) ->
   Forall (fun pt => mkMag (tp_bx pt) (tp_by pt) (tp_bz pt) (tp_bt pt)
                     = mkMag 0 0 0 5) pts)
  /\ (no_reading_for row_key kp_reading (emitting (data_rows kp))
                     (emitting (data_rows plasma)) ->
      Forall (fun pt => tp_kp pt = 2) pts)
  /\ (no_reading_for item_key xray_reading (kept_items (xray_items xray))
                     (emitting (data_rows plasma)) ->
      Forall (fun pt => tp_xray pt = 1e-7) pts).
Proof.
  intros (magMap & kpMap & xrayMap & Hmag & Hkp & Hx & _ & ->)%parseNOAAData_Ok.
  unfold no_reading_for. refine (conj _ (conj _ _)); intros Hnone.
  - pose proof (emit_reads_maps magMap kpMap xrayMap 2 1e-7
                  (emitting (data_rows plasma))) as Hread.
    eapply Forall2_Forall_r; [apply Hread|].
    eapply Forall_impl; [apply Hnone|].
    intros r Hr pt (Hm & _). rewrite Hm.
    by rewrite (build_magMap_last_wins mag magMap _ Hmag), Hr.
  - apply emit_keeps_defaults.
    eapply Forall_impl; [apply Hnone|]. intros r Hr.
    by rewrite (build_kpMap_last_wins kp kpMap _ Hkp).
  - apply emit_keeps_flux_default.
    eapply Forall_impl; [apply Hnone|]. intros r Hr.
    by rewrite (build_xrayMap_last_wins xray xrayMap _ Hx).
Qed.
End NormalizerJoin.

Lemma parseNOAAData_joins_last_reading_of_the_minute_witness :
  Forall2 (joined mag_first_minute kp_revised xray_first_minute)
          (emitting (data_rows plasma_two_minutes)) points_revised
  /\ map tp_kp points_revised = [4.33%float; 5%float].
Proof.
  split; [|by vm_compute].
  pose proof (parseNOAAData_joins_last_reading_of_the_minute
                plasma_two_minutes mag_first_minute kp_revised
                xray_first_minute points_revised) as Hjoin.
  apply Hjoin. by vm_compute.
Defined.

Lemma parseNOAAData_one_point_per_row_in_order_witness :
  map tp_time points_two_minutes
  = map jstr ["2025-02-01 00:00:00"; "2025-02-01 00:01:00"].
Proof.
  pose proof (parseNOAAData_one_point_per_row_in_order
                plasma_two_minutes mag_first_minute kp_first_minute
                xray_first_minute points_two_minutes) as Hrows.
  destruct Hrows as (_ & Htimes & _); [by vm_compute|].
  rewrite Htimes. by vm_compute.
Defined.

Lemma parseNOAAData_defaults_without_readings_witness :
  Forall (fun pt => tp_kp pt = 2%float) points_other_hours
  /\ Forall (fun pt => tp_xray pt = 1e-7%float) points_other_hours.
Proof.
  pose proof (parseNOAAData_defaults_without_readings
                plasma_two_minutes (BodyArray []) kp_other_hours VNull
                points_other_hours) as Hdef.
  destruct Hdef as (_ & Hkp & Hx); [by vm_compute|].
  split; [apply Hkp|apply Hx]; repeat constructor.
Defined.

(* ================================================================== *)
(** * More on the generator, in exact arithmetic *)
(* ================================================================== *)

Section GeneratorMore.
Variable host : Host Q.
Local Open Scope Q_scope.

Lemma clamp_range (lo hi x : Q) : lo <= hi -> lo <= clamp lo hi x <= hi.
Proof.
  intros Hle. unfold clamp. cbn [num_max num_min Q_number]. split.
  - apply Q_max_le_l.
  - apply Q_max_lub; [done|apply Q_min_le_l].
Qed.

Lemma walk_step_in_ranges (stormFactor : Q) (w : Walk Q) (c : nat) :
  let w' := fst (walk_step host stormFactor w c) in
  280 <= w_speed w' <= 900
  /\ 0.5 <= w_density w' <= 40
  /\ 20000 <= w_temp w' <= 500000
  /\ 1 <= w_bt w' <= 35
  /\ -25 <= w_bz w' <= 15
  /\ -12 <= w_bx w' <= 12
  /\ -12 <= w_by w' <= 12
  /\ 0 <= w_kp w' <= 9
  /\ 1e-8 <= w_xray w' <= 1e-4.
Proof.
  cbn -[clamp].
  repeat (refine (conj _ _)); try (apply clamp_range; by vm_compute).
  all: apply clamp_range; by vm_compute.
Qed.

Lemma walk_loop_in_ranges ss weekAgo n i w c :
  Forall in_ranges (fst (walk_loop host ss weekAgo n i w c)).
Proof.
  revert i w c. induction n as [|n IH]; intros i w c; [constructor|].
  cbn [walk_loop]. unfold mbind, Rand_bind.
  pose proof (walk_step_in_ranges (storm_factor i ss) w c) as Hstep.
  destruct (walk_step host (storm_factor i ss) w c) as [w' c1].
  specialize (IH (S i) w' c1).
  destruct (walk_loop host ss weekAgo n (S i) w' c1) as [rest c2].
  cbn [fst] in *. constructor; [exact Hstep|exact IH].
Qed.

(** Each round of the walk makes nine draws. *)
Lemma walk_loop_draws ss weekAgo n i w c :
  snd (walk_loop host ss weekAgo n i w c) = (c + 9 * n)%nat.
Proof.
  revert i w c. induction n as [|n IH]; intros i w c.
  - cbn. lia.
  - cbn [walk_loop]. unfold mbind, Rand_bind.
    assert (snd (walk_step host (storm_factor i ss) w c) = (c + 9)%nat)
      as Hc.
    { unfold walk_step, mbind, Rand_bind, Math_random, mret, Rand_ret.
      cbn [snd]. lia. }
    destruct (walk_step host (storm_factor i ss) w c) as [w' c1].
    specialize (IH (S i) w' c1).
    destruct (walk_loop host ss weekAgo n (S i) w' c1) as [rest c2].
    unfold mret, Rand_ret. cbn [snd] in *. lia.
Qed.

Lemma make_storms_spec (n c : nat) :
  unit_draws host ->
  let '(ss, c') := make_storms host n c in
  length ss = n /\ c' = (c + 3 * n)%nat /\ Forall storm_shaped ss.
Proof.
  intros Hdraws. revert c. induction n as [|n IH]; intros c.
  - cbn. split; [done|]. split; [lia|constructor].
  - cbn [make_storms]. unfold mbind, Rand_bind.
    unfold make_storm, mbind, Rand_bind, Math_random, mret, Rand_ret.
    specialize (IH (S (S (S c)))).
    destruct (make_storms host n (S (S (S c)))) as [rest c2].
    destruct IH as (Hlen & Hc & Hshaped). cbv beta iota.
    split; [by cbn; rewrite Hlen|]. split; [lia|].
    constructor; [|done].
    unfold storm_shaped. cbn [center width intensity].
    unfold num_of_nat, num_of_Z.
    cbn [num_lit num_add num_mul Q_number].
    change (inject_Z (Z.of_nat points)) with 5000.
    destruct (Hdraws c) as [H1 H1'].
    destruct (Hdraws (S c)) as [H2 H2'].
    destruct (Hdraws (S (S c))) as [H3 H3'].
    refine (conj _ (conj _ (conj _ (conj _ (conj _ _))))).
    all: lra.
Qed.

Lemma storms_count (r : Q) :
  0 <= r -> r < 1 -> (2 <= Z.to_nat (2 + Qfloor (r * 3)) <= 4)%nat.
Proof.
  intros H0 H1.
  assert (0 <= Qfloor (r * 3))%Z.
  { rewrite <- (Qfloor_Z 0). apply Qfloor_resp_le.
    change (inject_Z 0) with 0. lra. }
  assert (Qfloor (r * 3) < 3)%Z.
  { pose proof (Qfloor_le (r * 3)) as Hfl.
    rewrite Zlt_Qlt. change (inject_Z 3) with 3. lra. }
  lia.
Qed.

Lemma Q_ltb_true (x y : Q) : Q_ltb x y = true -> x < y.
Proof.
  unfold Q_ltb. destruct (Qle_bool y x) eqn:Hle; [done|]. intros _.
  destruct (Qlt_le_dec x y) as [Hlt|Hge]; [done|].
  apply Qle_bool_iff in Hge. congruence.
Qed.

Lemma Q_ltb_ge (x y : Q) : y <= x -> Q_ltb x y = false.
Proof.
  intros Hle. unfold Q_ltb. apply Qle_bool_iff in Hle. by rewrite Hle.
Qed.

(** One storm leaves the factor in [0, 1). *)
Lemma storm_factor_step (i : nat) (s : Storm Q) (acc : Q) :
  storm_shaped s -> 0 <= acc < 1 ->
  let dist := Qabs (inject_Z (Z.of_nat i) - center s) / width s in
  0 <= (if Q_ltb dist 1
        then Q_max acc ((1 - dist * dist) * intensity s) else acc) < 1.
Proof.
  intros (_ & _ & Hw & _ & Hi0 & Hi1) [Ha0 Ha1] dist.
  destruct (Q_ltb dist 1) eqn:Hlt; [|done].
  apply Q_ltb_true in Hlt.
  assert (0 <= dist) as Hd.
  { apply Qle_shift_div_l; [lra|].
    pose proof (Qabs_nonneg (inject_Z (Z.of_nat i) - center s)). lra. }
  clearbody dist.
  assert (0 <= dist * dist) as Hdd0 by nra.
  assert (dist * dist < 1) as Hdd1 by nra.
  set (dd := dist * dist) in *. clearbody dd.
  assert (0 <= (1 - dd) * intensity s < 1) as [Hc0 Hc1] by nra.
  unfold Q_max. destruct (Qle_bool _ _); split; assumption.
Qed.

Lemma storm_factor_fold (i : nat) (ss : list (Storm Q)) (acc : Q) :
  Forall storm_shaped ss -> 0 <= acc < 1 ->
  0 <= fold_left
         (fun stormFactor s =>
            let dist := Qabs (inject_Z (Z.of_nat i) - center s) / width s in
            if Q_ltb dist 1
            then Q_max stormFactor ((1 - dist * dist) * intensity s)
            else stormFactor) ss acc < 1.
Proof.
  intros Hss. revert acc. induction Hss as [|s ss Hs _ IH]; intros acc Hacc.
  - done.
  - cbn [fold_left]. apply IH. by apply storm_factor_step.
Qed.

Lemma storm_factor_outside (i : nat) (ss : list (Storm Q)) (acc : Q) :
  Forall storm_shaped ss -> Forall (outside i) ss ->
  fold_left
    (fun stormFactor s =>
       let dist := Qabs (inject_Z (Z.of_nat i) - center s) / width s in
       if Q_ltb dist 1
       then Q_max stormFactor ((1 - dist * dist) * intensity s)
       else stormFactor) ss acc = acc.
Proof.
  intros Hss Hout. induction Hss as [|s ss Hs _ IH]; [done|].
  apply List.Forall_cons_iff in Hout as [Hout Hrest].
  cbn [fold_left]. cbv zeta. rewrite Q_ltb_ge; [by apply IH|].
  destruct Hs as (_ & _ & Hw & _). unfold outside in Hout.
  apply Qle_shift_div_l; lra.
Qed.

(** X12: the random walk never leaves its ranges.  With draws in [0, 1)
    and the arithmetic taken exactly, every one of the 5000 points of
    [generateSimulatedTimeline] has speed in [280, 900], density in
    [0.5, 40], temperature in [20000, 500000], bt in [1, 35], bz in
    [-25, 15], bx and by in [-12, 12], kp in [0, 9] and flux in
    [1e-8, 1e-4], whatever the draws and the storms are. *)
Theorem generateSimulatedTimeline_stays_in_ranges (c : nat) :
  unit_draws host ->
  Forall in_ranges (fst (generateSimulatedTimeline host c))
  /\ length (fst (generateSimulatedTimeline host c)) = 5000%nat.
Proof.
  intros _. split; [|apply generateSimulatedTimeline_length].
  unfold generateSimulatedTimeline, mbind, Rand_bind.
  destruct (storms host c) as [ss c1]. apply walk_loop_in_ranges.
Qed.

(** X13: the storms and the draws of [generateSimulatedTimeline].  With
    draws in [0, 1) the generator makes 2, 3 or 4 storms and a call makes
    1 + 3 * storms + 9 * 5000 draws in all; with the arithmetic taken
    exactly each storm has its centre in [0, 5000), its width in
    [60, 260) and its intensity in [0.5, 1).  (In doubles the upper ends
    are reached: the draw 1 - 2^-53 rounds the width to 260 and the
    intensity to 1.) *)
Theorem generateSimulatedTimeline_storms_and_draws (c : nat) :
  unit_draws host ->
  let ss := fst (storms host c) in
  (2 <= length ss <= 4)%nat
  /\ Forall storm_shaped ss
  /\ snd (generateSimulatedTimeline host c)
     = (c + 1 + 3 * length ss + 9 * 5000)%nat.
Proof.
  intros Hdraws. cbv zeta.
  unfold generateSimulatedTimeline, storms, mbind, Rand_bind, Math_random.
  pose proof (make_storms_spec
                (Z.to_nat (2 + num_floor (random host c * num_lit 3)))
                (S c) Hdraws) as Hspec.
  destruct (make_storms host _ (S c)) as [ss c1].
  destruct Hspec as (Hlen & Hc1 & Hshaped). cbn [fst].
  rewrite <- Hlen in Hc1.
  destruct (Hdraws c) as [H0 H1].
  pose proof (storms_count (random host c) H0 H1) as Hcount.
  cbn [num_floor num_mul num_lit Q_number] in Hlen.
  refine (conj _ (conj Hshaped _)); [rewrite Hlen; exact Hcount|].
  rewrite walk_loop_draws. unfold points. lia.
Qed.

(** X14: the storm influence.  For storms of these shapes the factor the
    main loop computes at any point is in [0, 1), in exact arithmetic;
    and it is 0 at a point that is at least a width away from the centre
    of every storm. *)
Theorem storm_factor_is_a_fraction (i : nat) (ss : list (Storm Q)) :
  Forall storm_shaped ss ->
  0 <= storm_factor i ss < 1
  /\ (Forall (outside i) ss -> storm_factor i ss = 0).
Proof.
  intros Hss. split.
  - apply storm_factor_fold; [done|]. cbn. lra.
  - intros Hout. by apply storm_factor_outside.
Qed.
End GeneratorMore.

Lemma generateSimulatedTimeline_stays_in_ranges_witness :
  Forall in_ranges (fst (generateSimulatedTimeline swinging_host 0))
  /\ length (fst (generateSimulatedTimeline swinging_host 0)) = 5000%nat.
Proof.
  pose proof (generateSimulatedTimeline_stays_in_ranges swinging_host 0)
    as Hranges.
  apply Hranges. intros c. cbn. destruct (Nat.even c); split; lra.
Defined.

Lemma generateSimulatedTimeline_storms_and_draws_witness :
  snd (generateSimulatedTimeline swinging_host 0)
  = (0 + 1 + 3 * length (fst (storms swinging_host 0)) + 9 * 5000)%nat.
Proof.
  pose proof (generateSimulatedTimeline_storms_and_draws swinging_host 0)
    as Hdraws.
  apply Hdraws. intros c. cbn. destruct (Nat.even c); split; lra.
Defined.

Lemma storm_factor_is_a_fraction_witness :
  (0 <= storm_factor 100 lone_storm < 1)%Q
  /\ storm_factor 500 lone_storm = 0%Q.
Proof.
  assert (Forall storm_shaped lone_storm) as Hss.
  { constructor; [|constructor]. unfold storm_shaped. cbn.
    refine (conj _ (conj _ (conj _ (conj _ (conj _ _))))); lra. }
  split.
  - apply (storm_factor_is_a_fraction 100 _ Hss).
  - apply (storm_factor_is_a_fraction 500 _ Hss).
    constructor; [|constructor]. by vm_compute.
Defined.

(* ================================================================== *)
(** * More on the sonification engine *)
(* ================================================================== *)

Ltac voice_cases :=
  repeat match goal with
         | |- context [if ?b then _ else _] => destruct b
         end.

Section EngineMore.
Context {Num : Type} `{JsNumber Num} (host : Host Num).
Local Open Scope js_scope.

Lemma created_app (cs1 cs2 : list (ToneCall Num)) :
  created (cs1 ++ cs2) = created cs1 ++ created cs2.
Proof. apply omap_app. Qed.

Lemma disposed_app (cs1 cs2 : list (ToneCall Num)) :
  disposed (cs1 ++ cs2) = disposed cs1 ++ disposed cs2.
Proof. apply omap_app. Qed.

Lemma pluck_triggers_app (cs1 cs2 : list (ToneCall Num)) :
  pluck_triggers (cs1 ++ cs2) = (pluck_triggers cs1 + pluck_triggers cs2)%nat.
Proof. unfold pluck_triggers. by rewrite List.filter_app, length_app. Qed.

(** [update] on a running engine is its reading voice by voice. *)
Lemma update_by_voice_eq now d e draws :
  on e = true ->
  update host now (Some d) e draws = update_by_voice host now d e draws.
Proof.
  intros Hon. unfold update, update_by_voice. rewrite Hon.
  unfold pluck_calls, bell_calls, sub_calls, shimmer_calls, pluck_fires,
    pluck_gap, bell_fires, mbind, Rand_bind, mret, Rand_ret, Math_random.
  fold (densityN d) (speedN d) (strengthN d) (indexN d).
  destruct (elapsed now (_lastPluck e) _);
    destruct (_ && elapsed now (_lastBell e) _);
    destruct (num_ltb (num_lit 0.35) (indexN d));
    destruct (num_ltb (num_lit 1.8) _);
    try destruct (num_ltb (random host _) (num_lit 0.15));
    reflexivity.
Qed.

Lemma node_free_app (cs1 cs2 : list (ToneCall Num)) :
  node_free cs1 -> node_free cs2 -> node_free (cs1 ++ cs2).
Proof.
  intros [Hc1 Hd1] [Hc2 Hd2]. unfold node_free.
  by rewrite created_app, disposed_app, Hc1, Hc2, Hd1, Hd2.
Qed.

Lemma pad_calls_node_free d : node_free (pad_calls d).
Proof. unfold pad_calls. by voice_cases. Qed.

Lemma pluck_calls_frame now d e draws :
  node_free (fst (pluck_calls host now d e draws))
  /\ (draws <= snd (pluck_calls host now d e draws) <= draws + 1)%nat.
Proof. unfold pluck_calls. voice_cases; cbn; (split; [done|lia]). Qed.

Lemma bell_calls_frame now d e draws :
  node_free (fst (bell_calls host now d e draws))
  /\ (draws <= snd (bell_calls host now d e draws) <= draws + 1)%nat.
Proof. unfold bell_calls. voice_cases; cbn; (split; [done|lia]). Qed.

Lemma sub_calls_frame d draws :
  node_free (fst (sub_calls host d draws))
  /\ (draws <= snd (sub_calls host d draws) <= draws + 1)%nat.
Proof. unfold sub_calls. voice_cases; cbn; (split; [done|lia]). Qed.

Lemma shimmer_calls_frame d draws :
  node_free (fst (shimmer_calls host d draws))
  /\ (draws <= snd (shimmer_calls host d draws) <= draws + 2)%nat.
Proof. unfold shimmer_calls. voice_cases; cbn; (split; [done|lia]). Qed.

(** [update] creates no node and disposes of none, leaves the switch and
    the nodes of the engine as they are, and makes at most five draws. *)
Lemma update_frame now d e draws :
  exists cs e' draws',
    update host now d e draws = (cs, e', draws')
    /\ on e' = on e
    /\ engine_nodes e' = engine_nodes e
    /\ node_free cs
    /\ (draws <= draws' <= draws + 5)%nat.
Proof.
  destruct (on e) eqn:Hon, d as [d|];
    try (exists [], e, draws; unfold update; rewrite Hon;
         repeat split; (done || lia)).
  rewrite (update_by_voice_eq now d e draws Hon).
  unfold update_by_voice.
  pose proof (pluck_calls_frame now d e draws) as [Hp Hpd].
  destruct (pluck_calls host now d e draws) as [pluckCalls draws1].
  pose proof (bell_calls_frame now d e draws1) as [Hb Hbd].
  destruct (bell_calls host now d e draws1) as [bellCalls draws2].
  pose proof (sub_calls_frame d draws2) as [Hs Hsd].
  destruct (sub_calls host d draws2) as [subCalls draws3].
  pose proof (shimmer_calls_frame d draws3) as [Hh Hhd].
  destruct (shimmer_calls host d draws3) as [shimmerCalls draws4].
  cbn [fst snd] in *.
  do 3 eexists. split; [reflexivity|]. cbn [on].
  split; [done|]. split; [done|]. split; [|lia].
  repeat (apply node_free_app; [done || apply pad_calls_node_free|]).
  done.
Qed.

(** The two timed voices of one [update] of a running engine. *)
Lemma update_voices now d e draws :
  on e = true ->
  exists cs e' draws',
    update host now (Some d) e draws = (cs, e', draws')
    /\ pluck_triggers cs = (if pluck_fires now d e then 1 else 0)%nat
    /\ _lastPluck e' = (if pluck_fires now d e then Some now else _lastPluck e)
    /\ _lastBell e' = (if bell_fires now d e then Some now else _lastBell e)
    /\ on e' = true.
Proof.
  intros Hon. rewrite (update_by_voice_eq now d e draws Hon).
  unfold update_by_voice, pluck_calls, bell_calls, sub_calls, shimmer_calls.
  unfold pad_calls. voice_cases;
    do 3 eexists; (split; [reflexivity|]);
    cbn [on _lastPluck _lastBell]; done.
Qed.

(** The nodes [start()] creates, as offsets from the first. *)
Lemma start_creates (e : SonEngine Num) (a : Audio Num) :
  on e = false ->
  let '(e', a') := start e a in
  on e' = true
  /\ allocated a' = (allocated a + 13)%nat
  /\ created (calls a') = created (calls a) ++ seq (allocated a) 13
  /\ disposed (calls a') = disposed (calls a)
  /\ engine_nodes e'
     = (fun k => allocated a + k)%nat
       <$> [5; 6; 7; 9; 10; 11; 12; 8; 3; 2; 1; 4; 0]%nat.
Proof.
  intros Hoff. unfold start. rewrite Hoff. cbn [on allocated calls].
  split; [done|]. split; [done|].
  rewrite created_app, disposed_app. cbn.
  rewrite app_nil_r, Nat.add_0_r.
  split; [|done]. f_equal. repeat (f_equal; try lia).
Qed.

Lemma stop_disposes (e : SonEngine Num) (a : Audio Num) :
  on e = true ->
  let '(e', a') := stop e a in
  on e' = false
  /\ allocated a' = allocated a
  /\ created (calls a') = created (calls a)
  /\ disposed (calls a') = disposed (calls a) ++ engine_nodes e.
Proof.
  intros Hon. unfold stop. rewrite Hon. cbn [negb on allocated calls].
  split; [done|]. split; [done|].
  rewrite created_app, disposed_app. unfold engine_nodes.
  generalize (omap id [wind e; bzPad e; pluck e; noise e; bell e; sub e;
                       shimmer e; noiseFilter e; chorus e; delay e;
                       reverb e; breathLFO e; master e]).
  intros nodes. split.
  - rewrite <- (app_nil_r (created (calls a))) at 2. f_equal.
    induction nodes; [done|]. done.
  - f_equal. induction nodes as [|n nodes IH]; [done|].
    cbn. by rewrite <- IH at 2.
Qed.

Lemma offsets_permutation (n : nat) :
  (fun k => n + k)%nat <$> [5; 6; 7; 9; 10; 11; 12; 8; 3; 2; 1; 4; 0]%nat
  ≡ₚ seq n 13.
Proof.
  replace (seq n 13) with (seq (n + 0) 13) by (f_equal; lia).
  rewrite <- fmap_add_seq.
  apply fmap_Permutation.
  apply NoDup_Permutation.
  - apply (bool_decide_unpack _). by vm_compute.
  - apply NoDup_seq.
  - intros k. rewrite elem_of_seq. split.
    + intros Hk. repeat (apply elem_of_cons in Hk as [->|Hk]; [lia|]).
      by apply elem_of_nil in Hk.
    + intros [_ Hk]. do 13 (destruct k as [|k]; [set_solver|]). lia.
Qed.

Lemma engine_call_balanced c e a draws :
  balanced e a ->
  balanced (fst (fst (engine_call host c (e, a) draws)))
           (snd (fst (engine_call host c (e, a) draws))).
Proof.
  intros [Hcreated Hdisposed]. destruct c as [|now d|]; cbn [engine_call].
  - unfold mret, Rand_ret. cbn [fst snd].
    destruct (on e) eqn:Hon.
    { unfold start. rewrite Hon. cbn [fst snd]. split; [done|].
      by rewrite Hon. }
    pose proof (start_creates e a Hon) as Hstart.
    destruct (start e a) as [e' a']. cbn [fst snd].
    destruct Hstart as (Hon' & Halloc & Hc & Hd & Hnodes).
    split.
    + rewrite Hc, Hcreated, Halloc. by rewrite seq_app.
    + rewrite Hon'. exists (allocated a).
      split; [done|]. split; [by rewrite Hd|].
      rewrite Hnodes. apply offsets_permutation.
  - unfold mbind, Rand_bind, mret, Rand_ret. cbn [fst snd].
    destruct (update_frame now d e draws)
      as (cs & e' & draws' & -> & Hon & Hnodes & [Hc Hd] & _).
    unfold balanced. cbn [fst snd calls allocated]. split.
    + by rewrite created_app, Hc, app_nil_r.
    + rewrite Hon, disposed_app, Hd, app_nil_r.
      destruct (on e); [|done].
      destruct Hdisposed as (n & Hn & Hdn & Hen).
      exists n. by rewrite Hnodes.
  - unfold mret, Rand_ret. cbn [fst snd].
    destruct (on e) eqn:Hon.
    2:{ unfold stop. rewrite Hon. cbn [negb fst snd]. split; [done|].
        by rewrite Hon. }
    pose proof (stop_disposes e a Hon) as Hstop.
    destruct (stop e a) as [e' a']. cbn [fst snd].
    destruct Hstop as (Hoff & Halloc & Hc & Hd).
    split; [by rewrite Hc, Halloc|].
    rewrite Hoff, Hd, Halloc.
    destruct Hdisposed as (n & -> & Hdn & Hen).
    by rewrite Hdn, Hen, seq_app.
Qed.

Lemma engine_calls_balanced cs e a draws :
  balanced e a ->
  balanced (fst (fst (engine_calls host cs (e, a) draws)))
           (snd (fst (engine_calls host cs (e, a) draws))).
Proof.
  revert e a draws. induction cs as [|c cs IH]; intros e a draws Hb; [done|].
  cbn [engine_calls]. unfold mbind, Rand_bind.
  pose proof (engine_call_balanced c e a draws Hb) as Hstep.
  destruct (engine_call host c (e, a) draws) as [[e1 a1] draws1].
  by apply IH.
Qed.

(** X15: the nodes of the engine are balanced.  After any sequence of
    [start()], [update(d)] and [stop()] on a new engine, in any order and
    with any arguments, no node number was given out twice and no node was
    disposed of twice; while the engine is off every node ever created has
    been disposed of, and while it is on the nodes not yet disposed of are
    exactly the thirteen the fields of the engine hold. *)
Theorem engine_nodes_are_balanced (cs : list (EngineCall Num)) (draws : nat) :
  let '(e, a, _) := engine_calls host cs (newEngine, mkAudio 0 []) draws in
  NoDup (created (calls a))
  /\ NoDup (disposed (calls a))
  /\ (if on e
      then created (calls a) ≡ₚ disposed (calls a) ++ engine_nodes e
           /\ length (engine_nodes e) = 13%nat
      else created (calls a) ≡ₚ disposed (calls a)).
Proof.
  assert (balanced (newEngine : SonEngine Num) (mkAudio 0 [])) as Hb.
  { split; [done|]. cbn. reflexivity. }
  apply (engine_calls_balanced cs _ _ draws) in Hb.
  destruct (engine_calls host cs (newEngine, mkAudio 0 []) draws)
    as [[e a] draws'].
  cbn [fst snd] in Hb. destruct Hb as [Hc Hd].
  split; [rewrite Hc; apply NoDup_seq|].
  destruct (on e).
  - destruct Hd as (n & Hn & Hdn & Hen).
    split; [rewrite Hdn; apply NoDup_seq|].
    split; [by rewrite Hc, Hn, Hdn, Hen, seq_app|].
    by rewrite Hen, length_seq.
  - split; [rewrite Hd; apply NoDup_seq|]. by rewrite Hc, Hd.
Qed.

(** A run of updates, from its first. *)
Lemma updates_step now d rest e draws :
  exists cs e1 draws1,
    update host now d e draws = (cs, e1, draws1)
    /\ updates host ((now, d) :: rest) e draws
       = (let '(css, e2, draws2) := updates host rest e1 draws1 in
          (cs :: css, e2, draws2)).
Proof.
  destruct (update host now d e draws) as [[cs e1] draws1] eqn:Hu.
  exists cs, e1, draws1. split; [done|]. by apply updates_cons.
Qed.

Lemma trigger_times_cons (voice : list (ToneCall Num) -> nat) now d rest
    cs css :
  trigger_times voice ((now, d) :: rest) (cs :: css)
  = if (0 <? voice cs)%nat then now :: trigger_times voice rest css
    else trigger_times voice rest css.
Proof. unfold trigger_times. simpl. by destruct (voice cs). Qed.

(** What one [update] does to the bell voice, whatever the engine and
    the sample. *)
Lemma update_bell_any now d e draws :
  exists cs e' draws',
    update host now d e draws = (cs, e', draws')
    /\ ((bell_triggers cs = 0%nat /\ _lastBell e' = _lastBell e)
        \/ (bell_triggers cs = 1%nat /\ _lastBell e' = Some now
            /\ elapsed now (_lastBell e) (num_lit 1.5) = true)).
Proof.
  destruct (on e) eqn:Hon, d as [d|];
    try (exists [], e, draws; unfold update; rewrite Hon;
         split; [done|by left]).
  destruct (update_bell host now d e draws Hon)
    as (cs & e' & draws' & Hu & Hn & Hlast & _).
  exists cs, e', draws'. split; [done|].
  destruct (bell_fires now d e) eqn:Hfires; [right|by left].
  split; [done|]. split; [done|].
  unfold bell_fires in Hfires. by apply andb_true_iff in Hfires as [_ ?].
Qed.

(** X16: the bell voice keeps its cooldown over any run.  In any run of
    [update] calls, with any samples and any times, an update triggers the
    bell at most once, and each update that triggers it passes the test
    [now - last > 1.5] against the time of the update that triggered it
    before (against [_lastBell] as it was, for the first); at the end
    [_lastBell] is the time of the last update that triggered it. *)
Theorem bell_keeps_its_cooldown
    (ticks : list (Num * option (Sample Num))) (e : SonEngine Num)
    (draws : nat) :
  let '(css, e', _) := updates host ticks e draws in
  Forall (fun cs => (bell_triggers cs <= 1)%nat) css
  /\ spaced (num_lit 1.5) (_lastBell e)
            (trigger_times bell_triggers ticks css)
  /\ _lastBell e'
     = from_option Some (_lastBell e)
         (last (trigger_times bell_triggers ticks css)).
Proof.
  revert e draws. induction ticks as [|[now d] rest IH]; intros e draws.
  - cbn. done.
  - destruct (updates_step now d rest e draws)
      as (cs & e1 & draws1 & Hu & ->).
    specialize (IH e1 draws1).
    destruct (updates host rest e1 draws1) as [[css e2] draws2].
    destruct IH as (Hone & Hspaced & Hlast).
    destruct (update_bell_any now d e draws)
      as (cs' & e1' & draws1' & Hu' & Hbell).
    rewrite Hu in Hu'. injection Hu' as <- <- <-.
    rewrite trigger_times_cons.
    destruct Hbell as [[Hn Hl]|(Hn & Hl & Hgap)]; rewrite Hn;
      rewrite Hl in Hspaced, Hlast; cbn [Nat.ltb Nat.leb].
    + split; [constructor; [lia|done]|]. split; done.
    + split; [constructor; [lia|done]|].
      split; [by split|].
      rewrite Hlast, last_cons.
      by destruct (last _).
Qed.
End EngineMore.

Section EngineTimed.
Context {Num : Type} `{JsNumber Num} (host : Host Num).
Local Open Scope js_scope.

(** What one [update] does to the pluck voice, whatever the engine and
    the sample. *)
Lemma update_pluck_any now d e draws :
  exists cs e' draws',
    update host now d e draws = (cs, e', draws')
    /\ ((pluck_triggers cs = 0%nat /\ _lastPluck e' = _lastPluck e)
        \/ (pluck_triggers cs = 1%nat /\ _lastPluck e' = Some now
            /\ exists d', d = Some d' /\ pluck_fires now d' e = true)).
Proof.
  destruct (on e) eqn:Hon, d as [d|];
    try (exists [], e, draws; unfold update; rewrite Hon;
         split; [done|by left]).
  destruct (update_voices host now d e draws Hon)
    as (cs & e' & draws' & Hu & Hn & Hlast & _).
  exists cs, e', draws'. split; [done|].
  destruct (pluck_fires now d e) eqn:Hfires; [right|by left].
  split; [done|]. split; [done|]. by exists d.
Qed.
End EngineTimed.

Section EngineExact.
Variable host : Host Q.
Local Open Scope Q_scope.

(** [Math.min(1, (x || dflt) / c)] of a reading that is not negative. *)
Lemma normalized_range (x dflt c : Q) :
  0 <= x -> 0 < dflt -> 0 < c ->
  0 <= Q_min 1 ((if Q_truthy x then x else dflt) / c) <= 1.
Proof.
  intros Hx Hd Hc. split; [|apply Q_min_le_l].
  apply Q_min_glb; [lra|].
  apply Qle_shift_div_l; [done|]. destruct (Q_truthy x); lra.
Qed.

Lemma fieldN_range (d : Sample Q) : -1 <= fieldN d <= 1.
Proof.
  unfold fieldN. cbn [num_max num_min num_lit Q_number]. split.
  - apply Q_max_le_l.
  - apply Q_max_lub; [lra|apply Q_min_le_l].
Qed.

(** The gap of the pluck voice is a quarter of a second or more. *)
Lemma pluck_gap_quarter (d : Sample Q) :
  0 <= l_density (latest d) -> 1 # 4 <= pluck_gap d.
Proof.
  intros Hd. unfold pluck_gap, densityN.
  cbn [num_min num_lit num_div num_add num_truthy Q_number].
  pose proof (normalized_range (l_density (latest d)) 5 20 Hd) as [H0 H1];
    [lra|lra|].
  set (dN := Q_min 1 _) in *. clearbody dN.
  apply Qle_shift_div_l; lra.
Qed.

(** [arr[Math.floor(r * arr.length)]] is an item of [arr] for a draw in
    [0, 1). *)
Lemma pick_is_Some (arr : list string) (r : Q) :
  0 <= r -> r < 1 -> arr <> [] -> is_Some (pick arr r).
Proof.
  intros H0 H1 Harr. unfold pick, num_of_nat, num_of_Z.
  cbn [num_floor num_mul num_lit Q_number].
  assert (0 < length arr)%nat as Hlen by (destruct arr; [done|cbn; lia]).
  assert (0 < inject_Z (Z.of_nat (length arr))) as Hpos.
  { change 0 with (inject_Z 0). rewrite <- Zlt_Qlt. lia. }
  set (n := inject_Z (Z.of_nat (length arr))) in *.
  assert (0 <= Qfloor (r * n))%Z as Hfloor.
  { rewrite <- (Qfloor_Z 0). apply Qfloor_resp_le.
    change (inject_Z 0) with 0. nra. }
  assert (Qfloor (r * n) < Z.of_nat (length arr))%Z as Hbelow.
  { pose proof (Qfloor_le (r * n)) as Hle. rewrite Zlt_Qlt. fold n. nra. }
  destruct (Qfloor (r * n) <? 0)%Z eqn:Hneg; [lia|].
  apply lookup_lt_is_Some. lia.
Qed.

Lemma pluck_spacing_step now (d : Sample Q) e t0 :
  0 <= l_density (latest d) -> _lastPluck e = Some t0 ->
  pluck_fires now d e = true -> 1 # 4 < now - t0.
Proof.
  intros Hd Hlast. unfold pluck_fires, elapsed. rewrite Hlast.
  cbn [num_ltb num_sub Q_number]. intros Hlt%Q_ltb_true.
  pose proof (pluck_gap_quarter d Hd). lra.
Qed.

(** X17: the plucks of the density voice are more than a quarter of a
    second apart.  In any run of [update] calls on a started engine, with
    samples whose density is not negative and the arithmetic taken
    exactly, an update plucks at most once, and the time of each update
    that plucks is more than 0.25 after the time of the update that
    plucked before (after [_lastPluck] as it was, for the first). *)
Theorem plucks_are_a_quarter_second_apart
    (ticks : list (Q * option (Sample Q))) (e : SonEngine Q) (t0 : Q)
    (draws : nat) :
  dense_ticks ticks ->
  _lastPluck e = Some t0 ->
  let '(css, _, _) := updates host ticks e draws in
  Forall (fun cs => (pluck_triggers cs <= 1)%nat) css
  /\ apart t0 (trigger_times pluck_triggers ticks css).
Proof.
  revert e t0 draws. induction ticks as [|[now d] rest IH];
    intros e t0 draws Hdense Hlast.
  - cbn. done.
  - apply List.Forall_cons_iff in Hdense as [Hd Hdense].
    destruct (updates_step host now d rest e draws)
      as (cs & e1 & draws1 & Hu & ->).
    destruct (update_pluck_any host now d e draws)
      as (cs' & e1' & draws1' & Hu' & Hpluck).
    rewrite Hu in Hu'. injection Hu' as <- <- <-.
    destruct Hpluck as [[Hn Hl]|(Hn & Hl & d' & -> & Hfires)].
    + specialize (IH e1 t0 draws1 Hdense). rewrite Hl in IH.
      specialize (IH Hlast).
      destruct (updates host rest e1 draws1) as [[css e2] draws2].
      destruct IH as [Hone Hapart].
      rewrite trigger_times_cons, Hn. cbn [Nat.ltb Nat.leb].
      split; [constructor; [lia|done]|done].
    + specialize (IH e1 now draws1 Hdense Hl).
      destruct (updates host rest e1 draws1) as [[css e2] draws2].
      destruct IH as [Hone Hapart].
      rewrite trigger_times_cons, Hn. cbn [Nat.ltb Nat.leb].
      split; [constructor; [lia|done]|].
      split; [|done].
      by apply (pluck_spacing_step now d' e t0).
Qed.

Lemma speedN_range (d : Sample Q) :
  0 <= l_speed (latest d) -> 0 <= speedN d <= 1.
Proof.
  intros Hx. unfold speedN.
  cbn [num_min num_lit num_div num_truthy Q_number].
  apply normalized_range; [done|lra|lra].
Qed.

Lemma strengthN_range (d : Sample Q) :
  0 <= l_bt (latest d) -> 0 <= strengthN d <= 1.
Proof.
  intros Hx. unfold strengthN.
  cbn [num_min num_lit num_div num_truthy Q_number].
  apply normalized_range; [done|lra|lra].
Qed.

Lemma indexN_range (d : Sample Q) :
  0 <= l_kp (latest d) -> 0 <= indexN d <= 1.
Proof.
  intros Hx. unfold indexN.
  cbn [num_min num_lit num_div num_truthy Q_number].
  apply normalized_range; [done|lra|lra].
Qed.

Lemma pad_calls_in_range (d : Sample Q) :
  Forall call_in_range (pad_calls d).
Proof.
  unfold pad_calls. pose proof (fieldN_range d) as [Hlo Hhi].
  set (bzN := fieldN d) in *. clearbody bzN.
  cbn [num_lit num_add num_mul num_ltb Q_number].
  constructor; [done|]. constructor; [|constructor].
  destruct (Q_ltb bzN (-0.3)); [|destruct (Q_ltb bzN 0.1)];
    (split; [cbn; lia|]);
    repeat (apply List.Forall_cons; [split; lra|]); apply List.Forall_nil.
Qed.

(** X18: what [update] hands to Tone.js is within range.  For a running
    engine, draws in [0, 1), a sample whose speed, density, field strength
    and index are not negative, and the arithmetic taken exactly: the wind
    note is in [35, 100] Hz, the pad chord has 3 or 4 notes in [135, 430]
    Hz, the noise filter is at [80, 2580] Hz and its volume in [-38, -20]
    dB, the rumble in [25, 50] Hz, the shimmer in [800, 2000) Hz, the
    breathing range within [0.1, 0.2] and [0.2, 0.4]; and a pluck or a
    bell always gets a note of its scale, never [undefined]. *)
Theorem update_calls_are_in_range
    (now : Q) (d : Sample Q) (e : SonEngine Q) (draws : nat) :
  unit_draws host ->
  nonnegative (latest d) ->
  on e = true ->
  Forall call_in_range (fst (fst (update host now (Some d) e draws))).
Proof.
  intros Hdraws (Hs & Hd & Hb & Hk) Hon.
  rewrite (update_by_voice_eq host now d e draws Hon).
  unfold update_by_voice, pluck_calls, bell_calls, sub_calls, shimmer_calls.
  pose proof (speedN_range d Hs) as [Hs0 Hs1].
  pose proof (strengthN_range d Hb) as [Hb0 Hb1].
  pose proof (indexN_range d Hk) as [Hk0 Hk1].
  assert (Hpick : forall c, is_Some (pick notes (random host c))).
  { intros c. destruct (Hdraws c). by apply pick_is_Some. }
  assert (Hbell : forall c, is_Some (pick bellNotes (random host c))).
  { intros c. destruct (Hdraws c). by apply pick_is_Some. }
  assert (Hshimmer : forall c, 800 <= 800 + random host c * 1200 < 2000).
  { intros c. destruct (Hdraws c). lra. }
  assert (Forall call_in_range (wind_calls d)) as Hwind.
  { repeat (apply List.Forall_cons;
              [cbn [call_in_range num_lit num_add num_mul Q_number];
               split; lra|]).
    apply List.Forall_nil. }
  assert (Forall call_in_range (noise_calls d)) as Hnoise.
  { repeat (apply List.Forall_cons;
              [cbn [call_in_range num_lit num_add num_mul Q_number];
               split; lra|]).
    apply List.Forall_nil. }
  assert (Forall call_in_range (breath_calls d)) as Hbreath.
  { constructor; [|constructor]. cbn [call_in_range].
    cbn [num_lit num_add num_mul Q_number].
    refine (conj (conj _ _) (conj (conj _ _) _)); lra. }
  assert (Forall call_in_range
            [SubAttackRelease (num_lit 25 + indexN d * num_lit 25)])
    as Hsub.
  { repeat (apply List.Forall_cons;
              [cbn [call_in_range num_lit num_add num_mul Q_number];
               split; lra|]).
    apply List.Forall_nil. }
  pose proof (pad_calls_in_range d) as Hpad.
  cbn [num_lit num_add num_mul num_ltb Q_number] in *.
  destruct (pluck_fires now d e), (bell_fires now d e),
    (Q_ltb 0.35 (indexN d)), (Q_ltb 1.8 (speedN d + strengthN d + indexN d));
    voice_cases; cbn [fst];
    repeat (apply Forall_app; split); try done;
    constructor; try done; (apply Hpick || apply Hbell || apply Hshimmer).
Qed.
End EngineExact.

Lemma plucks_are_a_quarter_second_apart_witness :
  let '(css, _, _) := updates swinging_host three_updates started_engine 0 in
  Forall (fun cs => (pluck_triggers cs <= 1)%nat) css
  /\ apart 0 (trigger_times pluck_triggers three_updates css).
Proof.
  pose proof (plucks_are_a_quarter_second_apart swinging_host three_updates
                started_engine 0 0) as Hplucks.
  apply Hplucks; [|reflexivity].
  repeat constructor; by vm_compute.
Defined.

Lemma update_calls_are_in_range_witness :
  Forall call_in_range
    (fst (fst (update swinging_host 1%Q (Some quiet_sample) started_engine 0))).
Proof.
  pose proof (update_calls_are_in_range swinging_host 1%Q quiet_sample
                started_engine 0) as Hrange.
  apply Hrange; [|by vm_compute|reflexivity].
  intros c. cbn. destruct (Nat.even c); split; lra.
Defined.

(* ================================================================== *)
(** * The playback callback and the event loop *)
(* ================================================================== *)

Section PlaybackFacts.
Context {Num : Type} `{JsNumber Num}.
Local Open Scope js_scope.

Lemma getCurrent_same_cursor (t : Num) (p p' : TimelinePlayer Num) d :
  getCurrent t p = Ok (d, p') -> same_cursor p p'.
Proof.
  unfold getCurrent, same_cursor.
  destruct (timeline_length p =? 0)%Z; [by intros [= _ <-]|].
  cbv zeta. destruct (point_at _ _); destruct (point_at _ _);
    cbn [mbind Result_bind]; try done.
  by intros [= _ <-].
Qed.

(** With the cursor within the timeline [getCurrent] returns a sample. *)
Lemma getCurrent_returns (t : Num) (p : TimelinePlayer Num) :
  (0 <= index p < timeline_length p)%Z ->
  exists smp p', getCurrent t p = Ok (Some smp, p') /\ same_cursor p p'.
Proof.
  intros Hi.
  destruct (lookup_lt_is_Some_2 (timeline p) (Z.to_nat (index p)))
    as [a Ha]; [unfold timeline_length in *; lia|].
  destruct (getCurrent_on_cursor p a t) as (smp & p' & Hg & _).
  { split; [lia|done]. }
  exists smp, p'. split; [done|]. by eapply getCurrent_same_cursor.
Qed.

(** The callback does nothing while the player is loading or empty. *)
Lemma tick_inert (pb : Playback Num) :
  loading (player pb) = true \/ timeline (player pb) = [] ->
  tick pb = Ok (false, pb).
Proof.
  intros Hidle. unfold tick.
  destruct Hidle as [->|Hnil]; [done|].
  unfold timeline_length. rewrite Hnil. by rewrite orb_true_r.
Qed.

(** Before the fifteenth tick the callback counts and samples. *)
Lemma tick_counts (pb : Playback Num) :
  loading (player pb) = false ->
  (0 <= index (player pb) < timeline_length (player pb))%Z ->
  (tickCount pb + 1 < TICKS_PER_POINT)%Z ->
  exists smp p',
    tick pb = Ok (false, mkPlayback p' (tickCount pb + 1) (Some smp))
    /\ same_cursor (player pb) p'.
Proof.
  intros Hload Hi Hc. unfold tick. rewrite Hload.
  destruct (Z.eqb_spec (timeline_length (player pb)) 0) as [Hz|_]; [lia|].
  cbn [orb]. destruct (Z.leb_spec TICKS_PER_POINT (tickCount pb + 1));
    [lia|].
  destruct (getCurrent_returns
              (num_min (num_of_Z (tickCount pb + 1)
                        / num_of_Z TICKS_PER_POINT) (num_lit 1))
              (player pb) Hi) as (smp & p' & -> & Hsame).
  by exists smp, p'.
Qed.

(** The fifteenth tick calls [advance()], and [fetchLive()] when that
    returns [true]. *)
Lemma tick_advances (pb : Playback Num) :
  loading (player pb) = false ->
  (0 <= index (player pb) < timeline_length (player pb))%Z ->
  (tickCount pb + 1 = TICKS_PER_POINT)%Z ->
  exists smp p',
    tick pb = Ok (negb (paused (player pb))
                  && (timeline_length (player pb) - 1
                      <=? index (player pb) + 1)%Z,
                  mkPlayback p' 0 (Some smp))
    /\ timeline p' = timeline (player pb)
    /\ isLive p' = isLive (player pb)
    /\ paused p' = paused (player pb)
    /\ if paused (player pb)
       then index p' = index (player pb) /\ loading p' = false
       else if (timeline_length (player pb) - 1 <=? index (player pb) + 1)%Z
            then index p' = 0%Z /\ loading p' = true /\ error p' = None
            else index p' = (index (player pb) + 1)%Z /\ loading p' = false.
Proof.
  intros Hload Hi Hc. unfold tick. rewrite Hload.
  destruct (Z.eqb_spec (timeline_length (player pb)) 0) as [Hz|_]; [lia|].
  cbn [orb]. destruct (Z.leb_spec TICKS_PER_POINT (tickCount pb + 1));
    [|lia].
  destruct (paused (player pb)) eqn:Hp.
  - unfold advance. rewrite Hp.
    destruct (getCurrent_returns
                (num_min (num_of_Z (tickCount pb + 1)
                          / num_of_Z TICKS_PER_POINT) (num_lit 1))
                (player pb)) as (smp & p' & -> & Hsame); [lia|].
    exists smp, p'. split; [done|].
    destruct Hsame as (? & ? & ? & ? & ? & ?).
    rewrite ?Hp. repeat split; congruence.
  - destruct (Z.leb_spec (timeline_length (player pb) - 1)
                (index (player pb) + 1)) as [Hend|Hin].
    + rewrite advance_wraps by done.
      destruct (getCurrent_returns
                  (num_min (num_of_Z (tickCount pb + 1)
                            / num_of_Z TICKS_PER_POINT) (num_lit 1))
                  (begin_fetch (set_index (player pb) 0)))
        as (smp & p' & -> & Hsame).
      { unfold timeline_length in *. cbn. lia. }
      exists smp, p'. split; [done|].
      destruct Hsame as (? & ? & ? & ? & ? & ?).
      unfold begin_fetch, set_index in *.
      cbn [timeline index isLive loading error paused] in *.
      rewrite ?Hp. repeat split; congruence.
    + rewrite advance_inside by done.
      destruct (getCurrent_returns
                  (num_min (num_of_Z (tickCount pb + 1)
                            / num_of_Z TICKS_PER_POINT) (num_lit 1))
                  (set_index (player pb) (index (player pb) + 1)))
        as (smp & p' & -> & Hsame).
      { unfold timeline_length in *. cbn. lia. }
      exists smp, p'. split; [done|].
      destruct Hsame as (? & ? & ? & ? & ? & ?).
      unfold set_index in *.
      cbn [timeline index isLive loading error paused] in *.
      rewrite ?Hp. repeat split; congruence.
Qed.
End PlaybackFacts.

Section EventLoopFacts.
Variable host : Host float.

(** The statements the callback runs of [fetchLive()] are those of its
    beginning. *)
Lemma begin_fetch_fetchLive_begin (p : TimelinePlayer float) :
  begin_fetch p = fetchLive_begin p.
Proof. reflexivity. Qed.



End EventLoopFacts.

Section PlaybackRuns.
Context {Num : Type} `{JsNumber Num}.
Local Open Scope js_scope.

Lemma ticks_app (n m : nat) (pb : Playback Num) :
  ticks (n + m) pb
  = '(r1, pb1) ← ticks n pb; '(r2, pb2) ← ticks m pb1; Ok (r1 ++ r2, pb2).
Proof.
  revert pb. induction n as [|n IH]; intros pb.
  - cbn [Nat.add ticks mbind Result_bind].
    destruct (ticks m pb) as [[r2 pb2]|]; done.
  - cbn [Nat.add ticks]. destruct (tick pb) as [[fetching pb1]|]; [|done].
    cbn [mbind Result_bind]. rewrite IH.
    destruct (ticks n pb1) as [[r1 pb1']|]; [|done].
    cbn [mbind Result_bind].
    destruct (ticks m pb1') as [[r2 pb2]|]; done.
Qed.

Lemma rests_refl (pb : Playback Num) : rests pb pb.
Proof. by unfold rests, same_cursor. Qed.

Lemma rests_trans (pb1 pb2 pb3 : Playback Num) :
  rests pb1 pb2 -> rests pb2 pb3 -> rests pb1 pb3.
Proof.
  unfold rests, same_cursor.
  intros (? & ? & ? & ? & ? & ?) (? & ? & ? & ? & ? & ?).
  repeat split; congruence.
Qed.

(** Ticks before the fifteenth count and sample. *)
Lemma ticks_count (n : nat) (pb : Playback Num) :
  loading (player pb) = false ->
  (0 <= index (player pb) < timeline_length (player pb))%Z ->
  (tickCount pb + Z.of_nat n < TICKS_PER_POINT)%Z ->
  exists pb',
    ticks n pb = Ok (replicate n false, pb')
    /\ tickCount pb' = (tickCount pb + Z.of_nat n)%Z
    /\ rests pb pb'.
Proof.
  revert pb. induction n as [|n IH]; intros pb Hl Hi Hc.
  - exists pb. split; [done|]. split; [lia|apply rests_refl].
  - destruct (tick_counts pb Hl Hi) as (smp & p' & Htick & Hsame); [lia|].
    destruct (IH (mkPlayback p' (tickCount pb + 1) (Some smp)))
      as (pb' & Hrun & Hcount & Hrest).
    + cbn [player]. destruct Hsame as (_ & _ & _ & -> & _). done.
    + cbn [player]. destruct Hsame as (Htl & -> & _).
      unfold timeline_length in *. by rewrite Htl.
    + cbn [tickCount]. lia.
    + exists pb'. cbn [ticks]. rewrite Htick. cbn [mbind Result_bind].
      rewrite Hrun. cbn [mbind Result_bind replicate].
      split; [done|]. split; [cbn [tickCount] in Hcount; lia|].
      eapply rests_trans; [|exact Hrest]. exact Hsame.
Qed.

(** Fifteen ticks move an unpaused cursor by one point. *)
Lemma fifteen_ticks_inside (pb : Playback Num) :
  loading (player pb) = false -> paused (player pb) = false ->
  tickCount pb = 0%Z ->
  (0 <= index (player pb))%Z ->
  (index (player pb) + 1 < timeline_length (player pb) - 1)%Z ->
  exists pb',
    ticks 15 pb = Ok (replicate 15 false, pb')
    /\ tickCount pb' = 0%Z
    /\ index (player pb') = (index (player pb) + 1)%Z
    /\ loading (player pb') = false
    /\ paused (player pb') = false
    /\ timeline (player pb') = timeline (player pb).
Proof.
  intros Hl Hp Hc Hi0 Hi.
  destruct (ticks_count 14 pb Hl) as (pb1 & Hrun & Hcount & Hrest);
    [lia|unfold TICKS_PER_POINT; lia|].
  destruct Hrest as (Htl & Hidx & _ & Hl1 & _ & Hp1).
  rewrite Hl in Hl1. rewrite Hp in Hp1.
  destruct (tick_advances pb1 Hl1)
    as (smp & p' & Htick & Htl' & _ & Hp' & Hcase).
  { unfold timeline_length in *. rewrite Htl, Hidx. lia. }
  { unfold TICKS_PER_POINT. lia. }
  rewrite Hp1 in Hcase, Htick, Hp'.
  unfold timeline_length in *. rewrite Htl, Hidx in Hcase, Htick.
  destruct (Z.leb_spec (Z.of_nat (length (timeline (player pb))) - 1)
              (index (player pb) + 1)); [lia|].
  destruct Hcase as [Hi' Hl'].
  exists (mkPlayback p' 0 (Some smp)).
  change 15%nat with (14 + 1)%nat. rewrite ticks_app, Hrun.
  cbn [mbind Result_bind ticks]. rewrite Htick.
  cbn [mbind Result_bind negb andb player tickCount].
  split; [done|]. repeat split; congruence.
Qed.

(** At the end of the window the fifteenth tick calls [fetchLive()]. *)
Lemma fifteen_ticks_wrap (pb : Playback Num) :
  loading (player pb) = false -> paused (player pb) = false ->
  tickCount pb = 0%Z ->
  (0 <= index (player pb) < timeline_length (player pb))%Z ->
  (timeline_length (player pb) - 1 <= index (player pb) + 1)%Z ->
  exists pb',
    ticks 15 pb = Ok (replicate 14 false ++ [true], pb')
    /\ tickCount pb' = 0%Z
    /\ index (player pb') = 0%Z
    /\ loading (player pb') = true
    /\ timeline (player pb') = timeline (player pb).
Proof.
  intros Hl Hp Hc Hi Hend.
  destruct (ticks_count 14 pb Hl) as (pb1 & Hrun & Hcount & Hrest);
    [lia|unfold TICKS_PER_POINT; lia|].
  destruct Hrest as (Htl & Hidx & _ & Hl1 & _ & Hp1).
  rewrite Hl in Hl1. rewrite Hp in Hp1.
  destruct (tick_advances pb1 Hl1)
    as (smp & p' & Htick & Htl' & _ & Hp' & Hcase).
  { unfold timeline_length in *. rewrite Htl, Hidx. lia. }
  { unfold TICKS_PER_POINT. lia. }
  rewrite Hp1 in Hcase, Htick, Hp'.
  unfold timeline_length in *. rewrite Htl, Hidx in Hcase, Htick.
  destruct (Z.leb_spec (Z.of_nat (length (timeline (player pb))) - 1)
              (index (player pb) + 1)); [|lia].
  destruct Hcase as (Hi' & Hl' & _).
  exists (mkPlayback p' 0 (Some smp)).
  change 15%nat with (14 + 1)%nat. rewrite ticks_app, Hrun.
  cbn [mbind Result_bind ticks]. rewrite Htick.
  cbn [mbind Result_bind negb andb player tickCount].
  split; [done|]. repeat split; congruence.
Qed.

(** While the player is loading every tick is inert. *)
Lemma ticks_inert (n : nat) (pb : Playback Num) :
  loading (player pb) = true -> ticks n pb = Ok (replicate n false, pb).
Proof.
  intros Hl. induction n as [|n IH]; [done|].
  cbn [ticks]. rewrite tick_inert by (by left).
  cbn [mbind Result_bind]. rewrite IH. done.
Qed.

(** Rounds of fifteen ticks within the window. *)
Lemma rounds_inside (m : nat) (pb : Playback Num) :
  loading (player pb) = false -> paused (player pb) = false ->
  tickCount pb = 0%Z ->
  (0 <= index (player pb))%Z ->
  (index (player pb) + Z.of_nat m < timeline_length (player pb) - 1)%Z ->
  exists pb',
    ticks (15 * m) pb = Ok (replicate (15 * m) false, pb')
    /\ tickCount pb' = 0%Z
    /\ index (player pb') = (index (player pb) + Z.of_nat m)%Z
    /\ loading (player pb') = false
    /\ paused (player pb') = false
    /\ timeline (player pb') = timeline (player pb).
Proof.
  revert pb. induction m as [|m IH]; intros pb Hl Hp Hc Hi0 Hi.
  - exists pb. cbn. repeat split; (done || lia).
  - destruct (fifteen_ticks_inside pb Hl Hp Hc Hi0)
      as (pb1 & Hrun & Hc1 & Hi1 & Hl1 & Hp1 & Htl1); [lia|].
    destruct (IH pb1 Hl1 Hp1 Hc1)
      as (pb2 & Hrun2 & Hc2 & Hi2 & Hl2 & Hp2 & Htl2).
    { lia. }
    { unfold timeline_length in *. rewrite Htl1, Hi1. lia. }
    exists pb2. replace (15 * S m)%nat with (15 + 15 * m)%nat by lia.
    rewrite ticks_app, Hrun. cbn [mbind Result_bind]. rewrite Hrun2.
    cbn [mbind Result_bind]. rewrite <- replicate_add.
    split; [done|]. repeat split; (congruence || lia).
Qed.

(** X20: the pace of the playback and the fetch at the end of the window.
    With a player that is neither loading nor paused, [tickCount] at 0 and
    the cursor on point [i] of a timeline of [n] points, [i < n - 1]:
    after [15 * m] ticks the cursor is on point [i + m], as long as that
    is before the last point, and no tick has called [fetchLive()]; the
    tick number [15 * (n - 1 - i)] is the first to call it, it puts the
    cursor back on point 0 and leaves the player loading; and however many
    ticks follow before the fetch settles, none calls [fetchLive()] again
    or changes anything.  No tick throws. *)
Theorem ticks_walk_the_window_then_fetch_once
    (pb : Playback Num) (k later : nat) :
  loading (player pb) = false -> paused (player pb) = false ->
  tickCount pb = 0%Z ->
  (0 <= index (player pb))%Z ->
  (index (player pb) + Z.of_nat (S k) = timeline_length (player pb) - 1)%Z ->
  (forall m, (m <= k)%nat ->
     exists pb',
       ticks (15 * m) pb = Ok (replicate (15 * m) false, pb')
       /\ index (player pb') = (index (player pb) + Z.of_nat m)%Z
       /\ loading (player pb') = false)
  /\ exists pb',
       ticks (15 * S k + later) pb
       = Ok (replicate (15 * k + 14) false ++ [true]
               ++ replicate later false, pb')
       /\ index (player pb') = 0%Z
       /\ loading (player pb') = true
       /\ timeline (player pb') = timeline (player pb).
Proof.
  intros Hl Hp Hc Hi0 Hend. split.
  - intros m Hm.
    destruct (rounds_inside m pb Hl Hp Hc Hi0)
      as (pb' & Hrun & _ & Hi & Hl' & _); [lia|].
    by exists pb'.
  - destruct (rounds_inside k pb Hl Hp Hc Hi0)
      as (pb1 & Hrun1 & Hc1 & Hi1 & Hl1 & Hp1 & Htl1); [lia|].
    destruct (fifteen_ticks_wrap pb1 Hl1 Hp1 Hc1)
      as (pb2 & Hrun2 & Hc2 & Hi2 & Hl2 & Htl2).
    { unfold timeline_length in *. rewrite Htl1, Hi1. lia. }
    { unfold timeline_length in *. rewrite Htl1, Hi1. lia. }
    exists pb2.
    replace (15 * S k + later)%nat with (15 * k + (15 + later))%nat by lia.
    rewrite ticks_app, Hrun1. cbn [mbind Result_bind].
    rewrite ticks_app, Hrun2. cbn [mbind Result_bind].
    rewrite (ticks_inert later pb2 Hl2). cbn [mbind Result_bind].
    split.
    + do 2 f_equal. rewrite replicate_add, <- !app_assoc. done.
    + repeat split; congruence.
Qed.

(** X21: a paused player.  While the player is paused and not loading,
    with the cursor on a point of the timeline, no number of ticks moves
    the cursor, calls [fetchLive()] or throws; the ticks go on counting,
    [tickCount] running through 0..14, and sampling. *)
Theorem ticks_leave_a_paused_player_in_place (n : nat) (pb : Playback Num) :
  loading (player pb) = false -> paused (player pb) = true ->
  (0 <= tickCount pb < TICKS_PER_POINT)%Z ->
  (0 <= index (player pb) < timeline_length (player pb))%Z ->
  exists pb',
    ticks n pb = Ok (replicate n false, pb')
    /\ tickCount pb' = ((tickCount pb + Z.of_nat n) mod TICKS_PER_POINT)%Z
    /\ timeline (player pb') = timeline (player pb)
    /\ index (player pb') = index (player pb)
    /\ loading (player pb') = false
    /\ paused (player pb') = true.
Proof.
  revert pb. induction n as [|n IH]; intros pb Hl Hp Hc Hi.
  - exists pb. split; [done|].
    rewrite Z.add_0_r, Z.mod_small by done. done.
  - assert (exists pb1,
              tick pb = Ok (false, pb1)
              /\ tickCount pb1 = ((tickCount pb + 1) mod TICKS_PER_POINT)%Z
              /\ timeline (player pb1) = timeline (player pb)
              /\ index (player pb1) = index (player pb)
              /\ loading (player pb1) = false
              /\ paused (player pb1) = true)
      as (pb1 & Htick & Hc1 & Htl1 & Hi1 & Hl1 & Hp1).
    { destruct (Z.eq_dec (tickCount pb + 1)%Z TICKS_PER_POINT) as [Hlast|Hnot].
      - destruct (tick_advances pb Hl Hi Hlast)
          as (smp & p' & Htick & Htl' & _ & Hp' & Hcase).
        rewrite Hp in Htick, Hcase, Hp'. destruct Hcase as [Hi' Hl'].
        exists (mkPlayback p' 0 (Some smp)). cbn [player tickCount].
        split; [done|]. rewrite Hlast, Z.mod_same by done. done.
      - destruct (tick_counts pb Hl Hi) as (smp & p' & Htick & Hsame);
          [lia|].
        destruct Hsame as (Htl' & Hi' & _ & Hl' & _ & Hp').
        exists (mkPlayback p' (tickCount pb + 1) (Some smp)).
        cbn [player tickCount]. split; [done|].
        rewrite Z.mod_small by lia.
        repeat split; congruence. }
    destruct (IH pb1 Hl1 Hp1) as (pb2 & Hrun & Hc2 & Htl2 & Hi2 & Hl2 & Hp2).
    { rewrite Hc1. apply Z.mod_pos_bound. done. }
    { unfold timeline_length in *. rewrite Htl1, Hi1. done. }
    exists pb2. cbn [ticks]. rewrite Htick. cbn [mbind Result_bind].
    rewrite Hrun. cbn [mbind Result_bind replicate].
    split; [done|]. split.
    + rewrite Hc2, Hc1.
      rewrite Zplus_mod_idemp_l. f_equal. lia.
    + repeat split; congruence.
Qed.
End PlaybackRuns.

Lemma ticks_walk_the_window_then_fetch_once_witness :
  exists pb',
    ticks (15 * 2 + 3) (short_playback 2 false)
    = Ok (replicate (15 * 1 + 14) false ++ [true] ++ replicate 3 false, pb')
    /\ index (player pb') = 0%Z
    /\ loading (player pb') = true
    /\ timeline (player pb') = timeline (player (short_playback 2 false)).
Proof.
  pose proof (ticks_walk_the_window_then_fetch_once
                (short_playback 2 false) 1 3) as Hwalk.
  apply Hwalk; by vm_compute.
Defined.

Lemma ticks_leave_a_paused_player_in_place_witness :
  exists pb',
    ticks 40 (short_playback 4 true) = Ok (replicate 40 false, pb')
    /\ tickCount pb' = ((0 + Z.of_nat 40) mod TICKS_PER_POINT)%Z
    /\ timeline (player pb') = timeline (player (short_playback 4 true))
    /\ index (player pb') = 4%Z
    /\ loading (player pb') = false
    /\ paused (player pb') = true.
Proof.
  pose proof (ticks_leave_a_paused_player_in_place 40 (short_playback 4 true))
    as Hpaused.
  apply Hpaused; by vm_compute.
Defined.

Section PlaybackSamples.
Context {Num : Type} `{JsNumber Num}.
Local Open Scope js_scope.

(** The sample of a tick that counts. *)
Lemma tick_counts_reads (pb : Playback Num) (a : TelemetryPoint Num) :
  loading (player pb) = false ->
  cursor_on (player pb) a ->
  (tickCount pb + 1 < TICKS_PER_POINT)%Z ->
  exists smp p',
    tick pb = Ok (false, mkPlayback p' (tickCount pb + 1) (Some smp))
    /\ same_cursor (player pb) p'
    /\ latest smp
       = interp (num_min (num_of_Z (tickCount pb + 1)
                          / num_of_Z TICKS_PER_POINT) (num_lit 1))
                a (next_point (player pb) a).
Proof.
  intros Hload Hon Hc.
  pose proof Hon as [Hi Ha]. pose proof (lookup_lt_Some _ _ _ Ha) as Hlt.
  unfold tick. rewrite Hload.
  destruct (Z.eqb_spec (timeline_length (player pb)) 0) as [Hz|_].
  { unfold timeline_length in Hz. lia. }
  cbn [orb]. destruct (Z.leb_spec TICKS_PER_POINT (tickCount pb + 1));
    [lia|].
  destruct (getCurrent_on_cursor (player pb) a
              (num_min (num_of_Z (tickCount pb + 1)
                        / num_of_Z TICKS_PER_POINT) (num_lit 1)) Hon)
    as (smp & p' & Hg & Hlatest & _).
  rewrite Hg. exists smp, p'. split; [done|].
  split; [by eapply getCurrent_same_cursor|done].
Qed.

(** The sample of the tick that moves the cursor. *)
Lemma tick_moves_reads (pb : Playback Num) (b : TelemetryPoint Num) :
  loading (player pb) = false -> paused (player pb) = false ->
  (tickCount pb + 1 = TICKS_PER_POINT)%Z ->
  (0 <= index (player pb))%Z ->
  (index (player pb) + 1 < timeline_length (player pb) - 1)%Z ->
  timeline (player pb) !! S (Z.to_nat (index (player pb))) = Some b ->
  exists smp p',
    tick pb = Ok (false, mkPlayback p' 0 (Some smp))
    /\ same_cursor (set_index (player pb) (index (player pb) + 1)) p'
    /\ latest smp
       = interp (num_min (num_of_Z TICKS_PER_POINT
                          / num_of_Z TICKS_PER_POINT) (num_lit 1))
                b (next_point
                     (set_index (player pb) (index (player pb) + 1)) b).
Proof.
  intros Hload Hp Hc Hi0 Hi Hb.
  unfold tick. rewrite Hload.
  destruct (Z.eqb_spec (timeline_length (player pb)) 0) as [Hz|_]; [lia|].
  cbn [orb]. destruct (Z.leb_spec TICKS_PER_POINT (tickCount pb + 1));
    [|lia].
  rewrite advance_inside by done. rewrite Hc.
  destruct (getCurrent_on_cursor
              (set_index (player pb) (index (player pb) + 1)) b
              (num_min (num_of_Z TICKS_PER_POINT
                        / num_of_Z TICKS_PER_POINT) (num_lit 1)))
    as (smp & p' & Hg & Hlatest & _).
  { split; cbn [set_index index timeline]; [lia|].
    by replace (Z.to_nat (index (player pb) + 1))
      with (S (Z.to_nat (index (player pb)))) by lia. }
  rewrite Hg. exists smp, p'. split; [done|].
  split; [by eapply getCurrent_same_cursor|done].
Qed.
End PlaybackSamples.

Section PlaybackExact.
Local Open Scope Q_scope.

Lemma Latest_eq_refl (l : Latest Q) : Latest_eq l l.
Proof. unfold Latest_eq. repeat split; reflexivity. Qed.

Lemma interp_whole (a b : TelemetryPoint Q) (t : Q) :
  t == 1 -> Latest_eq (interp t a b) (raw b).
Proof.
  intros Ht. unfold Latest_eq, interp, raw, lerp.
  cbn [l_speed l_density l_temp l_bt l_bz l_kp num_add num_sub num_mul
       Q_number].
  rewrite Ht. repeat split; ring.
Qed.

(** X22: the sample of the tick that moves the cursor.  In exact
    arithmetic, with the cursor on point [a], followed by [b] and [c], and
    [tickCount] at 13: the next tick samples 14/15 of the way from [a] to
    [b]; the tick after it moves the cursor onto [b] and samples at
    fraction 1 from there, which is the point [c] itself; and the tick
    after that samples 1/15 of the way from [b] to [c].  So on every
    fifteenth tick [dataRef] holds the point after the new cursor, not the
    new cursor. *)
Theorem cursor_move_samples_the_point_after
    (pb : Playback Q) (i : nat) (a b c : TelemetryPoint Q) :
  loading (player pb) = false -> paused (player pb) = false ->
  tickCount pb = 13%Z ->
  index (player pb) = Z.of_nat i ->
  timeline (player pb) !! i = Some a ->
  timeline (player pb) !! S i = Some b ->
  timeline (player pb) !! S (S i) = Some c ->
  (S (S i) < length (timeline (player pb)) - 1)%nat ->
  exists pb1 pb2 pb3,
    tick pb = Ok (false, pb1)
    /\ tick pb1 = Ok (false, pb2)
    /\ tick pb2 = Ok (false, pb3)
    /\ shows (dataRef pb1) (interp (14 # 15) a b)
    /\ index (player pb2) = Z.of_nat (S i)
    /\ shows (dataRef pb2) (raw c)
    /\ shows (dataRef pb3) (interp (1 # 15) b c).
Proof.
  intros Hl Hp Hc Hi Ha Hb Hcc Hlen.
  (* the fourteenth tick *)
  destruct (tick_counts_reads pb a Hl) as (smp1 & p1 & Ht1 & Hs1 & Hl1).
  { split; [lia|]. by rewrite Hi, Nat2Z.id. }
  { rewrite Hc. done. }
  destruct Hs1 as (Htl1 & Hi1 & _ & Hload1 & _ & Hp1).
  rewrite Hc in Ht1, Hl1.
  unfold next_point in Hl1. rewrite Hi, Nat2Z.id, Hb in Hl1.
  (* the fifteenth *)
  destruct (tick_moves_reads (mkPlayback p1 (13 + 1) (Some smp1)) b)
    as (smp2 & p2 & Ht2 & Hs2 & Hl2); cbn [player tickCount].
  { congruence. } { congruence. } { done. } { lia. }
  { unfold timeline_length. rewrite Htl1, Hi1, Hi. lia. }
  { by rewrite Htl1, Hi1, Hi, Nat2Z.id. }
  cbn [player tickCount] in Ht2, Hs2, Hl2.
  destruct Hs2 as (Htl2 & Hi2 & _ & Hload2 & _ & Hp2).
  cbn [set_index timeline index loading paused] in Htl2, Hi2, Hload2, Hp2.
  unfold next_point in Hl2. cbn [set_index timeline index] in Hl2.
  rewrite Hi1, Hi in Hl2.
  replace (Z.to_nat (Z.of_nat i + 1)) with (S i) in Hl2 by lia.
  rewrite Htl1, Hcc in Hl2.
  (* the first of the next round *)
  destruct (tick_counts_reads (mkPlayback p2 0 (Some smp2)) b)
    as (smp3 & p3 & Ht3 & _ & Hl3); cbn [player tickCount].
  { congruence. }
  { split; [lia|]. rewrite Hi2, Htl2, Htl1, Hi1, Hi.
    by replace (Z.to_nat (Z.of_nat i + 1)) with (S i) by lia. }
  { done. }
  cbn [player tickCount] in Ht3, Hl3.
  unfold next_point in Hl3. rewrite Hi2, Htl2, Htl1, Hi1, Hi in Hl3.
  replace (Z.to_nat (Z.of_nat i + 1)) with (S i) in Hl3 by lia.
  rewrite Hcc in Hl3.
  do 3 eexists. split; [exact Ht1|]. split; [exact Ht2|].
  split; [exact Ht3|]. cbn [dataRef player shows].
  rewrite Hl1, Hl2, Hl3.
  split; [apply Latest_eq_refl|]. split; [lia|].
  split; [by apply interp_whole|apply Latest_eq_refl].
Qed.
End PlaybackExact.

Lemma cursor_move_samples_the_point_after_witness :
  exists pb1 pb2 pb3,
    tick climbing_playback = Ok (false, pb1)
    /\ tick pb1 = Ok (false, pb2)
    /\ tick pb2 = Ok (false, pb3)
    /\ shows (dataRef pb1) (interp (14 # 15) (step_point 0) (step_point 1))
    /\ index (player pb2) = Z.of_nat 1
    /\ shows (dataRef pb2) (raw (step_point 2))
    /\ shows (dataRef pb3) (interp (1 # 15) (step_point 1) (step_point 2)).
Proof.
  pose proof (cursor_move_samples_the_point_after climbing_playback 0
                (step_point 0) (step_point 1) (step_point 2)) as Hmove.
  apply Hmove; by vm_compute.
Defined.

(* ================================================================== *)
(** * Samples in exact arithmetic *)
(* ================================================================== *)

Section SampleFacts.
Local Open Scope Q_scope.

Lemma lerp_between (t x y : Q) :
  0 <= t <= 1 -> between x y (lerp t x y).
Proof.
  intros [H0 H1]. unfold between, lerp.
  cbn [num_add num_sub num_mul Q_number].
  destruct (Qlt_le_dec y x) as [Hlt|Hle]; [right|left]; split; nra.
Qed.

Lemma between_range (lo hi x y z : Q) :
  lo <= x <= hi -> lo <= y <= hi -> between x y z -> lo <= z <= hi.
Proof. unfold between. intros ? ? [?|?]; lra. Qed.

Lemma between_start (x y : Q) : between x y x.
Proof.
  unfold between. destruct (Qlt_le_dec y x); [right|left]; split; lra.
Qed.

(** A sample read at a fraction in [0, 1] from the points [a] and [b]. *)
Lemma reads_between (a b : TelemetryPoint Q) (t : Q) (smp : Sample Q) :
  0 <= t <= 1 ->
  latest smp = interp t a b ->
  xray_values smp = [tp_xray a; lerp t (tp_xray a) (tp_xray b)] ->
  sample_between a b smp.
Proof.
  intros Ht Hlatest Hx. unfold sample_between. rewrite Hlatest, Hx.
  cbn [interp l_speed l_density l_temp l_bt l_bz l_kp].
  repeat (split; [by apply lerp_between|]).
  constructor; [apply between_start|].
  constructor; [by apply lerp_between|constructor].
Qed.

Lemma in_ranges_between (a b : TelemetryPoint Q) (smp : Sample Q) :
  in_ranges a -> in_ranges b -> sample_between a b smp ->
  sample_in_ranges smp.
Proof.
  intros (Has & Had & Hat & Hab & Haz & _ & _ & Hak & Hax)
         (Hbs & Hbd & Hbt & Hbb & Hbz & _ & _ & Hbk & Hbx)
         (Hs & Hd & Ht & Hb & Hz & Hk & Hx).
  split.
  - refine (conj _ (conj _ (conj _ (conj _ (conj _ _)))));
      (eapply between_range; [| |eassumption]; eassumption).
  - eapply Forall_impl; [exact Hx|]. intros x Hbetween.
    eapply between_range; [| |eassumption]; eassumption.
Qed.

(** X23: [getCurrent] never overshoots.  In exact arithmetic, with the
    cursor on a point and a fraction in [0, 1], every value of the sample
    (the six of [latest] and the two of [xray_values]) lies between the
    value of the point at the cursor and that of the next point. *)
Theorem getCurrent_never_overshoots
    (p : TimelinePlayer Q) (a : TelemetryPoint Q) (t : Q) :
  cursor_on p a -> 0 <= t <= 1 ->
  exists smp p',
    getCurrent t p = Ok (Some smp, p')
    /\ sample_between a (next_point p a) smp.
Proof.
  intros Hon Ht.
  destruct (getCurrent_on_cursor p a t Hon)
    as (smp & p' & Hg & Hlatest & Hx & _).
  exists smp, p'. split; [done|]. by apply (reads_between _ _ t).
Qed.

(** X24: the samples of a simulated timeline.  With draws in [0, 1) and
    the arithmetic taken exactly, whatever the cursor and the fraction in
    [0, 1], the sample [getCurrent] reads from the timeline of
    [generateSimulatedTimeline] is within the bounds of the random walk:
    speed in [280, 900], density in [0.5, 40], temperature in [20000,
    500000], bt in [1, 35], bz in [-25, 15], kp in [0, 9], flux in [1e-8,
    1e-4].  So the speed, density, field strength and index that the
    scene and the sonification read are never negative. *)
Theorem simulated_samples_are_in_range
    (host : Host Q) (draws i : nat) (t : Q) :
  unit_draws host -> 0 <= t <= 1 -> (i < 5000)%nat ->
  exists smp p',
    getCurrent t (player_on (fst (generateSimulatedTimeline host draws))
                            (Z.of_nat i))
    = Ok (Some smp, p')
    /\ sample_in_ranges smp /\ nonnegative (latest smp).
Proof.
  intros _ Ht Hi.
  pose proof (generateSimulatedTimeline_length host draws) as Hlen.
  assert (Forall in_ranges (fst (generateSimulatedTimeline host draws)))
    as Hranges.
  { unfold generateSimulatedTimeline, mbind, Rand_bind.
    destruct (storms host draws) as [ss c1]. apply walk_loop_in_ranges. }
  set (tl := fst (generateSimulatedTimeline host draws)) in *.
  unfold points in Hlen.
  destruct (lookup_lt_is_Some_2 tl i) as [a Ha]; [lia|].
  assert (cursor_on (player_on tl (Z.of_nat i)) a) as Hon.
  { split; [cbn; lia|]. cbn [player_on index timeline].
    by rewrite Nat2Z.id. }
  destruct (getCurrent_on_cursor _ a t Hon)
    as (smp & p' & Hg & Hlatest & Hx & _).
  exists smp, p'. split; [done|].
  assert (in_ranges a) as Hina.
  { by eapply Forall_lookup_1. }
  assert (in_ranges (next_point (player_on tl (Z.of_nat i)) a)) as Hinb.
  { unfold next_point. cbn [player_on index timeline].
    destruct (tl !! S _) as [b|] eqn:Hb; cbn [default]; [|done].
    by eapply Forall_lookup_1. }
  assert (sample_in_ranges smp) as Hin.
  { eapply in_ranges_between; [exact Hina|exact Hinb|].
    by apply (reads_between _ _ t). }
  split; [done|].
  destruct Hin as [(Hs & Hd & _ & Hb & _ & Hk) _].
  unfold nonnegative. repeat split; lra.
Qed.
End SampleFacts.

Lemma getCurrent_never_overshoots_witness :
  exists smp p',
    getCurrent (1 # 3) (player_on [step_point 0; step_point 3]%Q 0)
    = Ok (Some smp, p')
    /\ sample_between (step_point 0) (step_point 3) smp.
Proof.
  pose proof (getCurrent_never_overshoots
                (player_on [step_point 0; step_point 3]%Q 0)
                (step_point 0) (1 # 3)) as Hbetween.
  apply Hbetween; by vm_compute.
Defined.

Lemma simulated_samples_are_in_range_witness :
  exists smp p',
    getCurrent (1 # 3)
      (player_on (fst (generateSimulatedTimeline swinging_host 0))
                 (Z.of_nat 7))
    = Ok (Some smp, p')
    /\ sample_in_ranges smp /\ nonnegative (latest smp).
Proof.
  pose proof (simulated_samples_are_in_range swinging_host 0 7 (1 # 3))
    as Hsim.
  apply Hsim; [|by vm_compute|lia].
  intros c. cbn. destruct (Nat.even c); split; lra.
Defined.

(* ================================================================== *)
(** * More on the scene, in exact arithmetic *)
(* ================================================================== *)

Section FrameFacts.
Local Open Scope Q_scope.

(** The smoothed state over a run of render ticks. *)
Lemma animate_run_bounds (sm : Smooth Q) (ds : list (option (Sample Q))) :
  below_ceilings sm -> above_floors sm -> Forall nonnegative_tick ds ->
  below_ceilings (animate_run sm ds) /\ above_floors (animate_run sm ds).
Proof.
  intros Hc Hf Hds. revert sm Hc Hf.
  induction Hds as [|d ds Hd _ IH]; intros sm Hc Hf; [done|].
  unfold animate_run. cbn [fold_left]. apply IH.
  - destruct d as [d|]; [by apply smooth_below_ceilings|done].
  - destruct d as [d|]; [by apply smooth_above_floors|done].
Qed.

Lemma frame_params_valid (sm : Smooth Q) :
  below_ceilings sm -> above_floors sm -> valid_frame (frame_params sm).
Proof.
  intros Hc Hf.
  pose proof (scene_intensity_floor sm) as Hi0.
  pose proof (scene_intensity_ceiling sm Hc) as Hi1.
  destruct Hc as (Hs & Hd & Hbt & Hk & Hbz0 & Hbz1).
  destruct Hf as (Hs0 & Hd0 & Hbt0 & Hk0).
  assert (0 <= Q_max 0 (- sm_bz sm) <= 1) as [Hm0 Hm1].
  { split; [apply Q_max_le_l|apply Q_max_lub; lra]. }
  unfold valid_frame, frame_params.
  cbn [streamGain streamRed streamBlue streamOpacity fieldStretch tubeRadius
       fieldOpacity fieldHue starRate bgR bgB uBloomStrength
       num_add num_mul num_max num_neg num_lit Q_number].
  set (intensity := scene_intensity sm) in *. clearbody intensity.
  set (south := Q_max 0 (- sm_bz sm)) in *. clearbody south.
  refine (conj _ (conj _ (conj _ (conj _ (conj _ (conj _ (conj _ (conj _
            (conj _ (conj _ (conj _ _)))))))))));
    split; lra.
Qed.

(** X25: the numbers of a frame stay valid.  From a smoothed state within
    [0, 1] (and [-1, 1] for bz), over any run of render ticks that read
    no negative speed, density, field strength or index, and the
    arithmetic taken exactly: the colours and opacities [animate] sets are
    within [0, 1] (stream red in [0.2, 0.55], blue in [0.35, 0.7], opacity
    in [0.15, 0.45], field lines in [0.087, 0.276], background red and
    blue below 0.031), the hue is in [0.23, 0.47], the tube radius is
    positive, the rate of shooting stars is in [0.01, 0.04] and the bloom
    strength in [0.36, 0.78]. *)
Theorem frame_parameters_stay_valid
    (sm : Smooth Q) (ds : list (option (Sample Q))) :
  below_ceilings sm -> above_floors sm -> Forall nonnegative_tick ds ->
  valid_frame (frame_params (animate_run sm ds)).
Proof.
  intros Hc Hf Hds.
  destruct (animate_run_bounds sm ds Hc Hf Hds) as [Hc' Hf'].
  by apply frame_params_valid.
Qed.
End FrameFacts.

Lemma frame_parameters_stay_valid_witness :
  valid_frame (frame_params (animate_run sm0 [Some quiet_sample; None])).
Proof.
  pose proof (frame_parameters_stay_valid sm0 [Some quiet_sample; None])
    as Hvalid.
  apply Hvalid.
  - unfold below_ceilings. cbn. repeat split; lra.
  - unfold above_floors. cbn. repeat split; lra.
  - repeat constructor; by vm_compute.
Defined.

Section BloomFacts.
Local Open Scope Q_scope.
Variable tDiffuse : Q * Q -> vec4 Q.
Variables uResolution vUv : Q * Q.

(** The weight of a tap is positive. *)
Lemma tap_weight_pos (tap : Z * Z) : 0 < tap_weight tap.
Proof.
  unfold tap_weight, num_of_Z. cbn [num_lit num_add num_mul num_div Q_number].
  assert (0 <= inject_Z (fst tap * fst tap + snd tap * snd tap)) as Hn.
  { change 0 with (inject_Z 0). rewrite <- Zle_Qle. nia. }
  apply Qlt_shift_div_l; lra.
Qed.


Lemma bloom_taps_cons tap l acc :
  bloom_taps tDiffuse uResolution vUv (tap :: l) acc
  = bloom_taps tDiffuse uResolution vUv l
      (vec4_add (fst acc)
         (vec4_scale (texel tDiffuse uResolution vUv tap) (tap_weight tap)),
       snd acc + tap_weight tap).
Proof. reflexivity. Qed.

Lemma channel_add_scale ch (a b : vec4 Q) (s : Q) :
  channel ch (vec4_add a (vec4_scale b s)) = channel ch a + channel ch b * s.
Proof. by destruct ch. Qed.

(** The sum of the weights grows, and the weighted sum of a channel stays
    at or below [bound] times the sum of the weights. *)
Lemma bloom_taps_bound ch bound l acc :
  Forall (fun tap => channel ch (texel tDiffuse uResolution vUv tap)
                     <= bound) l ->
  channel ch (fst acc) <= bound * snd acc ->
  let acc' := bloom_taps tDiffuse uResolution vUv l acc in
  channel ch (fst acc') <= bound * snd acc' /\ snd acc <= snd acc'.
Proof.
  intros Hl. revert acc. induction Hl as [|tap l Htap _ IH]; intros acc Hacc.
  - cbn. split; [done|lra].
  - rewrite bloom_taps_cons. cbv zeta.
    pose proof (tap_weight_pos tap) as Hw.
    destruct (IH (vec4_add (fst acc)
                    (vec4_scale (texel tDiffuse uResolution vUv tap)
                                (tap_weight tap)),
                  snd acc + tap_weight tap)) as [Hb Ht].
    { cbn [fst snd]. rewrite channel_add_scale. nra. }
    cbn [fst snd] in Ht. split; [done|lra].
Qed.

Lemma bloom_taps_total l acc :
  snd acc <= snd (bloom_taps tDiffuse uResolution vUv l acc).
Proof.
  revert acc. induction l as [|tap l IH]; intros acc; [cbn; lra|].
  rewrite bloom_taps_cons. pose proof (tap_weight_pos tap) as Hw.
  specialize (IH (vec4_add (fst acc)
                    (vec4_scale (texel tDiffuse uResolution vUv tap)
                                (tap_weight tap)),
                  snd acc + tap_weight tap)).
  cbn [fst snd] in IH. lra.
Qed.

(** The sum of the weights of the 81 taps is positive. *)
Lemma bloom_total_pos :
  0 < snd (bloom_taps tDiffuse uResolution vUv taps
             (mkVec4 0 0 0 0, 0)).
Proof.
  assert (exists tap l, taps = tap :: l) as (tap & l & ->).
  { do 2 eexists. reflexivity. }
  rewrite bloom_taps_cons. pose proof (tap_weight_pos tap) as Hw.
  pose proof (bloom_taps_total l
                (vec4_add (mkVec4 0 0 0 0)
                   (vec4_scale (texel tDiffuse uResolution vUv tap)
                               (tap_weight tap)),
                 0 + tap_weight tap)) as Ht.
  cbn [fst snd] in *. lra.
Qed.

(** The pass, channel by channel. *)
Lemma bloom_fragment_channel (uBloomStrength : Q) (ch : Channel) :
  let acc := bloom_taps tDiffuse uResolution vUv taps (mkVec4 0 0 0 0, 0) in
  channel ch (bloom_fragment tDiffuse uBloomStrength uResolution vUv)
  = channel ch (tDiffuse vUv)
    + glsl_max (channel ch (fst acc) / snd acc - 0.35) 0 * 1.2
      * uBloomStrength.
Proof.
  cbv zeta. unfold bloom_fragment.
  cbn [num_lit Q_number].
  destruct (bloom_taps tDiffuse uResolution vUv taps (mkVec4 0 0 0 0, 0))
    as [bloom total].
  by destruct ch.
Qed.

Lemma glsl_max_zero_nonneg (x : Q) : 0 <= glsl_max x 0.
Proof.
  unfold glsl_max. cbn [num_ltb Q_number].
  destruct (Q_ltb x 0) eqn:Hlt; [lra|].
  unfold Q_ltb in Hlt. destruct (Qle_bool 0 x) eqn:Hle; [|done].
  by apply Qle_bool_iff in Hle.
Qed.

Lemma glsl_max_zero_below (x m : Q) : x <= m -> 0 <= m -> glsl_max x 0 <= m.
Proof.
  intros Hx Hm. unfold glsl_max. cbn [num_ltb Q_number].
  by destruct (Q_ltb x 0).
Qed.

(** X26: the bloom pass only brightens.  With a bloom strength that is not
    negative and the arithmetic taken exactly, for every pixel and every
    channel: the colour the pass writes is at or above the colour of the
    trail buffer at that pixel; it is that colour unchanged when none of
    the 81 texels read around the pixel exceeds 0.35 in the channel; and
    when none exceeds [bound] the pass adds at most
    [(bound - 0.35) * 1.2 * uBloomStrength]. *)
Theorem bloom_only_brightens (uBloomStrength : Q) (ch : Channel) :
  0 <= uBloomStrength ->
  0 < fst uResolution /\ 0 < snd uResolution ->
  let out := bloom_fragment tDiffuse uBloomStrength uResolution vUv in
  channel ch (tDiffuse vUv) <= channel ch out
  /\ (taps_below tDiffuse uResolution vUv ch 0.35 ->
      channel ch out == channel ch (tDiffuse vUv))
  /\ (forall bound,
        0.35 <= bound ->
        taps_below tDiffuse uResolution vUv ch bound ->
        channel ch out
        <= channel ch (tDiffuse vUv)
           + (bound - 0.35) * 1.2 * uBloomStrength).
Proof.
  intros Hs _. cbv zeta. rewrite bloom_fragment_channel. cbv zeta.
  pose proof bloom_total_pos as Ht.
  set (acc := bloom_taps tDiffuse uResolution vUv taps (mkVec4 0 0 0 0, 0))
    in *.
  pose proof (glsl_max_zero_nonneg (channel ch (fst acc) / snd acc - 0.35))
    as Hg0.
  assert (Hbelow : forall bound,
             0.35 <= bound ->
             taps_below tDiffuse uResolution vUv ch bound ->
             glsl_max (channel ch (fst acc) / snd acc - 0.35) 0
             <= bound - 0.35).
  { intros bound Hb Htaps.
    destruct (bloom_taps_bound ch bound taps (mkVec4 0 0 0 0, 0) Htaps)
      as [Hsum _].
    { destruct ch; cbn; lra. }
    fold acc in Hsum.
    apply glsl_max_zero_below; [|lra].
    assert (channel ch (fst acc) / snd acc <= bound) as Havg.
    { apply Qle_shift_div_r; [done|]. lra. }
    lra. }
  set (g := glsl_max (channel ch (fst acc) / snd acc - 0.35) 0) in *.
  clearbody g. split; [nra|]. split.
  - intros Htaps.
    assert (g <= 0.35 - 0.35) as Hg by (apply Hbelow; [lra|done]).
    assert (g == 0) as -> by lra. ring.
  - intros bound Hb Htaps. specialize (Hbelow bound Hb Htaps). nra.
Qed.
End BloomFacts.

Lemma bloom_only_brightens_witness :
  (channel Red (bloom_fragment (flat_texture (1 # 5)) (1 # 2) (800, 600)
                               (1 # 2, 1 # 2))
   == 1 # 5)%Q.
Proof.
  pose proof (bloom_only_brightens (flat_texture (1 # 5)) (800, 600)%Q
                (1 # 2, 1 # 2)%Q (1 # 2)%Q Red) as Hbloom.
  apply Hbloom; [by vm_compute|split; by vm_compute|].
  apply Forall_forall. intros tap _. by vm_compute.
Defined.
